(** * Campus Life Planner: validation and query engine

    A shallow embedding of [scripts/validators.js] and of the search module
    (the [search] IIFE), together with the parts of the JavaScript run time
    they call: strings, the regular-expression engine ([RegExp], [exec],
    [test], [String.prototype.match], [String.prototype.replace]), arrays
    held by reference, and the DOM text serialisation behind [escapeHtml].

    JavaScript strings are sequences of UTF-16 code units.  This development
    covers the strings whose code units are all below 256, written as Rocq
    [string]s: an [ascii] is read as the code unit with the same number
    (Latin-1).  Regular expressions are compiled without the [u] and [v]
    flags, as everywhere in the source. *)

From stdpp Require Import gmap strings list pretty.
From Stdlib Require Import Ascii String NArith QArith Lia.

Close Scope Q_scope.
Open Scope string_scope.
Open Scope list_scope.

(** ** Characters and strings of the host language *)

Module js.

Abbreviation chars := list_ascii_of_string.
Abbreviation str := string_of_list_ascii.

Definition code (c : ascii) : N := N_of_ascii c.

Definition in_range (lo hi : N) (c : ascii) : bool :=
  ((lo <=? code c) && (code c <=? hi))%N.

(** A code unit between two others, as in a class range [[lo-hi]]. *)
Definition between (lo hi c : ascii) : bool :=
  ((code lo <=? code c) && (code c <=? code hi))%N.

Definition is_digit (c : ascii) : bool := in_range 48 57 c.
Definition is_upper (c : ascii) : bool := in_range 65 90 c.
Definition is_lower (c : ascii) : bool := in_range 97 122 c.
Definition is_letter (c : ascii) : bool := is_upper c || is_lower c.

(** [\w]: the basic word characters [A-Za-z0-9_]. *)
Definition is_word_char (c : ascii) : bool :=
  is_letter c || is_digit c || (code c =? 95)%N.

(** LineTerminator: LF and CR (U+2028 and U+2029 lie above 255). *)
Definition is_line_terminator (c : ascii) : bool :=
  ((code c =? 10) || (code c =? 13))%N.

(** WhiteSpace: TAB, VT, FF, SP and NBSP (the others lie above 255). *)
Definition is_white_space (c : ascii) : bool :=
  ((code c =? 9) || (code c =? 11) || (code c =? 12) || (code c =? 32)
   || (code c =? 160))%N.

(** [\s], and what [String.prototype.trim] strips: WhiteSpace and
    LineTerminator. *)
Definition is_space (c : ascii) : bool :=
  is_white_space c || is_line_terminator c.

(** [toUpperCase] on one code unit, where the result is again one code unit
    below 256: [a-z], and the Latin-1 letters U+00E0..U+00FE except the
    division sign.  (U+00DF upper-cases to two units; U+00B5 and U+00FF
    upper-case to units above 255 that no string of this development
    contains, so they stand for themselves.) *)
Definition to_upper (c : ascii) : ascii :=
  if is_lower c || (in_range 224 254 c && negb (code c =? 247)%N)
  then ascii_of_N (code c - 32) else c.

Fixpoint drop_while {A} (p : A -> bool) (l : list A) : list A :=
  match l with
  | [] => []
  | a :: l' => if p a then drop_while p l' else l
  end.

Definition trim_start (l : list ascii) : list ascii := drop_while is_space l.
Definition trim_end (l : list ascii) : list ascii :=
  rev (drop_while is_space (rev l)).

(** [String.prototype.trim] *)
Definition trim (s : string) : string :=
  str (trim_end (trim_start (chars s))).

(** [s.length] *)
Definition jslength (s : string) : nat := List.length (chars s).

(** The values a caller can pass where the source expects a string.  The
    source only ever observes such a value through [!v] and [typeof v]. *)
Inductive value :=
| Undefined
| Null
| Boolean (b : bool)
| Number (q : option Q)        (* [None] is NaN *)
| String_ (s : string)
| Object.

(** ToBoolean *)
Definition truthy (v : value) : bool :=
  match v with
  | Undefined | Null => false
  | Boolean b => b
  | Number None => false
  | Number (Some q) => negb (Qeq_bool q 0%Q)
  | String_ s => negb (String.eqb s "")
  | Object => true
  end.

Definition is_string (v : value) : bool :=
  match v with String_ _ => true | _ => false end.

(** The outcome of host code that can throw. *)
Inductive completion (A : Type) :=
| Normal (a : A)
| Throw (message : string).
Arguments Normal {A} a.
Arguments Throw {A} message.

End js.

(** ** The regular-expression engine of the host

    Patterns are parsed as the ECMAScript grammar with the Annex B
    extensions for web browsers (a lone [{], [}] or []] is a literal; an
    escape that is no back reference is an octal or identity escape), and
    matched by the backtracking semantics of the language specification:
    a matcher takes a state and a continuation.  Named groups, look-behind
    and escapes of code units above 255 are outside this development: the
    constructor below rejects them. *)

Module regexp.
Import js.

Inductive class_escape := Esc_d | Esc_D | Esc_w | Esc_W | Esc_s | Esc_S.

Inductive class_item :=
| Range (lo hi : ascii)
| ClassEsc (e : class_escape).

Inductive node :=
| NEmpty
| NChar (c : ascii)
| NAny
| NClass (invert : bool) (items : list class_item)
| NSeq (a b : node)
| NAlt (a b : node)
| NRepeat (a : node) (min : nat) (max : option nat) (greedy : bool)
| NGroup (idx : nat) (a : node)
| NLookahead (negate : bool) (a : node)
| NBackref (idx : nat)
| NBegin
| NEnd
| NWordB
| NNotWordB.

(** *** Parsing *)

Definition digit_val (c : ascii) : nat := N.to_nat (code c - 48).

Definition is_octal (c : ascii) : bool := in_range 48 55 c.

Definition hex_val (c : ascii) : option nat :=
  if is_digit c then Some (digit_val c)
  else if in_range 65 70 c then Some (N.to_nat (code c - 55))
  else if in_range 97 102 c then Some (N.to_nat (code c - 87))
  else None.

Fixpoint parse_digits_from (acc : nat) (cs : list ascii) : nat * list ascii :=
  match cs with
  | c :: r => if is_digit c then parse_digits_from (10 * acc + digit_val c) r
              else (acc, cs)
  | [] => (acc, cs)
  end.

Definition parse_digits (cs : list ascii) : option (nat * list ascii) :=
  match cs with
  | c :: _ => if is_digit c then Some (parse_digits_from 0 cs) else None
  | [] => None
  end.

(** The number of capturing groups, found before parsing (a decimal escape
    is a back reference only when that many groups exist). *)
Fixpoint count_groups (in_class : bool) (cs : list ascii) : nat :=
  match cs with
  | [] => 0
  | "\"%char :: _ :: r => count_groups in_class r
  | "["%char :: r => count_groups true r
  | "]"%char :: r => count_groups false r
  | "("%char :: r =>
      if in_class then count_groups in_class r
      else match r with
           | "?"%char :: _ => count_groups false r
           | _ => S (count_groups false r)
           end
  | _ :: r => count_groups in_class r
  end.

(** The text after the opening brace of [{n}], [{n,}] or [{n,m}]. *)
Definition parse_braces (cs : list ascii)
  : option (nat * option nat * list ascii) :=
  match parse_digits cs with
  | Some (n, "}"%char :: r) => Some (n, Some n, r)
  | Some (n, ","%char :: "}"%char :: r) => Some (n, None, r)
  | Some (n, ","%char :: r) =>
      match parse_digits r with
      | Some (m, "}"%char :: r') => Some (n, Some m, r')
      | _ => None
      end
  | _ => None
  end.

Record quantifier := {
  q_min : nat;
  q_max : option nat;
  q_greedy : bool
}.

Definition lazy_suffix (min : nat) (max : option nat) (cs : list ascii)
  : quantifier * list ascii :=
  match cs with
  | "?"%char :: r => ({| q_min := min; q_max := max; q_greedy := false |}, r)
  | _ => ({| q_min := min; q_max := max; q_greedy := true |}, cs)
  end.

Definition parse_quantifier (cs : list ascii)
  : completion (option (quantifier * list ascii)) :=
  match cs with
  | "*"%char :: r => Normal (Some (lazy_suffix 0 None r))
  | "+"%char :: r => Normal (Some (lazy_suffix 1 None r))
  | "?"%char :: r => Normal (Some (lazy_suffix 0 (Some 1) r))
  | "{"%char :: r =>
      match parse_braces r with
      | Some (n, Some m, r') =>
          if (m <? n)%nat then Throw "numbers out of order in {} quantifier"
          else Normal (Some (lazy_suffix n (Some m) r'))
      | Some (n, None, r') => Normal (Some (lazy_suffix n None r'))
      | None => Normal None
      end
  | _ => Normal None
  end.

Definition ascii_of_code (n : nat) : ascii := ascii_of_nat n.

(** Legacy octal escape: [cs] starts with an octal digit. *)
Definition parse_octal (cs : list ascii) : ascii * list ascii :=
  match cs with
  | d1 :: r1 =>
      match r1 with
      | d2 :: r2 =>
          if is_octal d2 then
            match r2 with
            | d3 :: r3 =>
                if is_octal d3 && in_range 48 51 d1
                then (ascii_of_code (64 * digit_val d1 + 8 * digit_val d2
                                     + digit_val d3), r3)
                else (ascii_of_code (8 * digit_val d1 + digit_val d2), r2)
            | [] => (ascii_of_code (8 * digit_val d1 + digit_val d2), r2)
            end
          else (ascii_of_code (digit_val d1), r1)
      | [] => (ascii_of_code (digit_val d1), r1)
      end
  | [] => (zero, [])
  end.

(** CharacterEscape, the text after the backslash; [in_class] tells whether
    the escape stands inside a character class. *)
Definition parse_char_escape (in_class : bool) (cs : list ascii)
  : completion (ascii * list ascii) :=
  match cs with
  | [] => Throw "\ at end of pattern"
  | c :: r =>
      if is_octal c then Normal (parse_octal cs)
      else match c with
      | "t"%char => Normal (ascii_of_code 9, r)
      | "n"%char => Normal (ascii_of_code 10, r)
      | "v"%char => Normal (ascii_of_code 11, r)
      | "f"%char => Normal (ascii_of_code 12, r)
      | "r"%char => Normal (ascii_of_code 13, r)
      | "c"%char =>
          match r with
          | l :: r' =>
              if is_letter l
                 || (in_class && (is_digit l || (code l =? 95)%N))
              then Normal (ascii_of_N (code l mod 32), r')
              else Normal ("\"%char, cs)
          | [] => Normal ("\"%char, cs)
          end
      | "x"%char =>
          match r with
          | h1 :: h2 :: r' =>
              match hex_val h1, hex_val h2 with
              | Some a, Some b => Normal (ascii_of_code (16 * a + b), r')
              | _, _ => Normal (c, r)
              end
          | _ => Normal (c, r)
          end
      | "u"%char =>
          match r with
          | h1 :: h2 :: h3 :: h4 :: r' =>
              match hex_val h1, hex_val h2, hex_val h3, hex_val h4 with
              | Some a, Some b, Some c', Some d =>
                  if ((a =? 0) && (b =? 0))%nat
                  then Normal (ascii_of_code (16 * c' + d), r')
                  else Throw "code unit above 255"
              | _, _, _, _ => Normal (c, r)
              end
          | _ => Normal (c, r)
          end
      | _ => Normal (c, r)
      end
  end.

Definition class_escape_of (c : ascii) : option class_escape :=
  match c with
  | "d"%char => Some Esc_d
  | "D"%char => Some Esc_D
  | "w"%char => Some Esc_w
  | "W"%char => Some Esc_W
  | "s"%char => Some Esc_s
  | "S"%char => Some Esc_S
  | _ => None
  end.

Inductive class_atom :=
| AtomChar (c : ascii)
| AtomEsc (e : class_escape).

(** ClassAtom; [cs] is not empty and does not start with the closing
    bracket. *)
Definition parse_class_atom (cs : list ascii)
  : completion (class_atom * list ascii) :=
  match cs with
  | [] => Throw "Unterminated character class"
  | "\"%char :: r =>
      match r with
      | [] => Throw "\ at end of pattern"
      | c :: r' =>
          match class_escape_of c with
          | Some e => Normal (AtomEsc e, r')
          | None =>
              if (code c =? 98)%N then Normal (AtomChar (ascii_of_code 8), r')
              else match parse_char_escape true r with
                   | Normal (a, r'') => Normal (AtomChar a, r'')
                   | Throw m => Throw m
                   end
          end
      end
  | c :: r => Normal (AtomChar c, r)
  end.

Definition item_of_atom (a : class_atom) : class_item :=
  match a with
  | AtomChar c => Range c c
  | AtomEsc e => ClassEsc e
  end.

(** ClassRanges up to and including the closing bracket. *)
Fixpoint parse_class_items (fuel : nat) (cs : list ascii)
  : completion (list class_item * list ascii) :=
  match fuel with
  | 0 => Throw "Unterminated character class"
  | S fuel' =>
      match cs with
      | [] => Throw "Unterminated character class"
      | "]"%char :: r => Normal ([], r)
      | _ =>
          match parse_class_atom cs with
          | Throw m => Throw m
          | Normal (a, r) =>
              match r with
              | "-"%char :: r1 =>
                  match r1 with
                  | [] => Throw "Unterminated character class"
                  | "]"%char :: r2 =>
                      Normal ([item_of_atom a; Range "-" "-"], r2)
                  | _ =>
                      match parse_class_atom r1 with
                      | Throw m => Throw m
                      | Normal (b, r2) =>
                          match parse_class_items fuel' r2 with
                          | Throw m => Throw m
                          | Normal (items, r3) =>
                              match a, b with
                              | AtomChar lo, AtomChar hi =>
                                  if (code hi <? code lo)%N
                                  then Throw
                                    "Range out of order in character class"
                                  else Normal (Range lo hi :: items, r3)
                              | _, _ =>
                                  Normal (item_of_atom a :: Range "-" "-"
                                          :: item_of_atom b :: items, r3)
                              end
                          end
                      end
                  end
              | _ =>
                  match parse_class_items fuel' r with
                  | Throw m => Throw m
                  | Normal (items, r') => Normal (item_of_atom a :: items, r')
                  end
              end
          end
      end
  end.

Definition parse_class (cs : list ascii) : completion (node * list ascii) :=
  let '(invert, body) :=
    match cs with
    | "^"%char :: r => (true, r)
    | _ => (false, cs)
    end in
  match parse_class_items (S (List.length body)) body with
  | Throw m => Throw m
  | Normal (items, r) => Normal (NClass invert items, r)
  end.

(** AtomEscape, the text after the backslash; the boolean tells whether the
    term may take a quantifier. *)
Definition parse_atom_escape (total : nat) (cs : list ascii)
  : completion (node * bool * list ascii) :=
  match cs with
  | [] => Throw "\ at end of pattern"
  | c :: r =>
      match class_escape_of c with
      | Some e => Normal (NClass false [ClassEsc e], true, r)
      | None =>
          if (code c =? 98)%N then Normal (NWordB, false, r)
          else if (code c =? 66)%N then Normal (NNotWordB, false, r)
          else
            let legacy :=
              match parse_char_escape false cs with
              | Normal (a, r') => Normal (NChar a, true, r')
              | Throw m => Throw m
              end in
            if in_range 49 57 c then
              match parse_digits cs with
              | Some (k, r') =>
                  if (k <=? total)%nat then Normal (NBackref k, true, r')
                  else legacy
              | None => legacy
              end
            else legacy
      end
  end.

Definition seq_of (a b : node) : node := NSeq a b.

Fixpoint parse_disjunction (fuel total : nat) (cs : list ascii) (n : nat)
  {struct fuel} : completion (node * list ascii * nat) :=
  match fuel with
  | 0 => Throw "pattern too deeply nested"
  | S fuel' =>
      match parse_alternative fuel' total cs n with
      | Throw m => Throw m
      | Normal (a, r, n1) =>
          match r with
          | "|"%char :: r' =>
              match parse_disjunction fuel' total r' n1 with
              | Throw m => Throw m
              | Normal (b, r'', n2) => Normal (NAlt a b, r'', n2)
              end
          | _ => Normal (a, r, n1)
          end
      end
  end
with parse_alternative (fuel total : nat) (cs : list ascii) (n : nat)
  {struct fuel} : completion (node * list ascii * nat) :=
  match fuel with
  | 0 => Throw "pattern too deeply nested"
  | S fuel' =>
      match cs with
      | [] => Normal (NEmpty, cs, n)
      | "|"%char :: _ => Normal (NEmpty, cs, n)
      | ")"%char :: _ => Normal (NEmpty, cs, n)
      | _ =>
          match parse_term fuel' total cs n with
          | Throw m => Throw m
          | Normal (t, r, n1) =>
              match parse_alternative fuel' total r n1 with
              | Throw m => Throw m
              | Normal (rest, r', n2) => Normal (seq_of t rest, r', n2)
              end
          end
      end
  end
with parse_term (fuel total : nat) (cs : list ascii) (n : nat)
  {struct fuel} : completion (node * list ascii * nat) :=
  match fuel with
  | 0 => Throw "pattern too deeply nested"
  | S fuel' =>
      let group (wrap : node -> node) (body : list ascii) (n0 : nat) :=
        match parse_disjunction fuel' total body n0 with
        | Throw m => Throw m
        | Normal (d, ")"%char :: r, n1) => Normal (wrap d, true, r, n1)
        | Normal _ => Throw "Unterminated group"
        end in
      let atom : completion (node * bool * list ascii * nat) :=
        match cs with
        | [] => Throw "Nothing to repeat"
        | "^"%char :: r => Normal (NBegin, false, r, n)
        | "$"%char :: r => Normal (NEnd, false, r, n)
        | "."%char :: r => Normal (NAny, true, r, n)
        | "*"%char :: _ | "+"%char :: _ | "?"%char :: _ =>
            Throw "Nothing to repeat"
        | "{"%char :: r =>
            match parse_braces r with
            | Some _ => Throw "Nothing to repeat"
            | None => Normal (NChar "{", true, r, n)
            end
        | "["%char :: r =>
            match parse_class r with
            | Throw m => Throw m
            | Normal (c, r') => Normal (c, true, r', n)
            end
        | "\"%char :: r =>
            match parse_atom_escape total r with
            | Throw m => Throw m
            | Normal (a, q, r') => Normal (a, q, r', n)
            end
        | "("%char :: "?"%char :: ":"%char :: r => group (fun d => d) r n
        | "("%char :: "?"%char :: "="%char :: r => group (NLookahead false) r n
        | "("%char :: "?"%char :: "!"%char :: r => group (NLookahead true) r n
        | "("%char :: "?"%char :: "<"%char :: _ =>
            Throw "named groups and look-behind are not modelled"
        | "("%char :: "?"%char :: _ => Throw "Invalid group"
        | "("%char :: r => group (NGroup (S n)) r (S n)
        | c :: r => Normal (NChar c, true, r, n)
        end in
      match atom with
      | Throw m => Throw m
      | Normal (a, quantifiable, r, n1) =>
          match parse_quantifier r with
          | Throw m => Throw m
          | Normal None => Normal (a, r, n1)
          | Normal (Some (q, r')) =>
              if quantifiable
              then Normal (NRepeat a (q_min q) (q_max q) (q_greedy q), r', n1)
              else Throw "Nothing to repeat"
          end
      end
  end.

(** The pattern of a regular expression, with its number of groups. *)
Definition parse_pattern (p : string) : completion (node * nat) :=
  let cs := chars p in
  let total := count_groups false cs in
  match parse_disjunction (4 * List.length cs + 4) total cs 0 with
  | Throw m => Throw m
  | Normal (d, [], n) => Normal (d, n)
  | Normal (_, ")"%char :: _, _) => Throw "Unmatched ')'"
  | Normal _ => Throw "Unexpected character"
  end.

(** *** Flags *)

Record flags := {
  hasIndices : bool;
  global : bool;
  ignoreCase : bool;
  multiline : bool;
  dotAll : bool;
  sticky : bool
}.

Definition no_flags : flags :=
  {| hasIndices := false; global := false; ignoreCase := false;
     multiline := false; dotAll := false; sticky := false |}.

(** The flags argument of the constructor: each flag at most once.  The
    flags [u] and [v] change the pattern grammar and are not modelled. *)
Fixpoint parse_flags (cs : list ascii) (f : flags) : completion flags :=
  match cs with
  | [] => Normal f
  | c :: r =>
      let once (seen : bool) (f' : flags) :=
        if seen then Throw "Invalid flags" else parse_flags r f' in
      match c with
      | "d"%char => once (hasIndices f)
          {| hasIndices := true; global := global f;
             ignoreCase := ignoreCase f; multiline := multiline f;
             dotAll := dotAll f; sticky := sticky f |}
      | "g"%char => once (global f)
          {| hasIndices := hasIndices f; global := true;
             ignoreCase := ignoreCase f; multiline := multiline f;
             dotAll := dotAll f; sticky := sticky f |}
      | "i"%char => once (ignoreCase f)
          {| hasIndices := hasIndices f; global := global f;
             ignoreCase := true; multiline := multiline f;
             dotAll := dotAll f; sticky := sticky f |}
      | "m"%char => once (multiline f)
          {| hasIndices := hasIndices f; global := global f;
             ignoreCase := ignoreCase f; multiline := true;
             dotAll := dotAll f; sticky := sticky f |}
      | "s"%char => once (dotAll f)
          {| hasIndices := hasIndices f; global := global f;
             ignoreCase := ignoreCase f; multiline := multiline f;
             dotAll := true; sticky := sticky f |}
      | "y"%char => once (sticky f)
          {| hasIndices := hasIndices f; global := global f;
             ignoreCase := ignoreCase f; multiline := multiline f;
             dotAll := dotAll f; sticky := true |}
      | "u"%char | "v"%char => Throw "Unicode mode is not modelled"
      | _ => Throw "Invalid flags"
      end
  end.

(** The [flags] accessor: the flags in the order [dgimsy]. *)
Definition flags_string (f : flags) : string :=
  (if hasIndices f then "d" else "") ++ (if global f then "g" else "")
  ++ (if ignoreCase f then "i" else "") ++ (if multiline f then "m" else "")
  ++ (if dotAll f then "s" else "") ++ (if sticky f then "y" else "").

(** *** Matching *)

(** The input is split at the current position: [prev] holds the code units
    before it, the nearest first, and [rest] those from it on.  The end
    index of the specification is the length of [prev]. *)
Record state := {
  prev : list ascii;
  rest : list ascii;
  captures : list (option (list ascii))
}.

Definition end_index (x : state) : nat := List.length (prev x).

Definition continuation := state -> option state.
Definition matcher := state -> continuation -> option state.

Definition all_chars : list ascii := map ascii_of_nat (seq 0 256).

(** Canonicalize *)
Definition canonicalize (fl : flags) (c : ascii) : ascii :=
  if ignoreCase fl then to_upper c else c.

Definition escape_mem (e : class_escape) (a : ascii) : bool :=
  match e with
  | Esc_d => is_digit a
  | Esc_D => negb (is_digit a)
  | Esc_w => is_word_char a
  | Esc_W => negb (is_word_char a)
  | Esc_s => is_space a
  | Esc_S => negb (is_space a)
  end.

Definition item_mem (it : class_item) (a : ascii) : bool :=
  match it with
  | Range lo hi => between lo hi a
  | ClassEsc e => escape_mem e a
  end.

Definition class_mem (items : list class_item) (a : ascii) : bool :=
  existsb (fun it => item_mem it a) items.

(** Whether the set [A] has a member whose canonical form is that of
    [ch]. *)
Definition set_has (fl : flags) (A : ascii -> bool) (ch : ascii) : bool :=
  if ignoreCase fl
  then existsb (fun a => A a && Ascii.eqb (to_upper a) (to_upper ch))
               all_chars
  else A ch.

(** CharacterSetMatcher *)
Definition char_set_matcher (fl : flags) (A : ascii -> bool) (invert : bool)
  : matcher :=
  fun x c =>
    match rest x with
    | [] => None
    | ch :: r =>
        if Bool.eqb (set_has fl A ch) invert then None
        else c {| prev := ch :: prev x; rest := r; captures := captures x |}
    end.

(** IsWordChar at the position before, and at, the current one. *)
Definition word_before (x : state) : bool :=
  match prev x with
  | c :: _ => is_word_char c
  | [] => false
  end.

Definition word_after (x : state) : bool :=
  match rest x with
  | c :: _ => is_word_char c
  | [] => false
  end.

Definition at_line_start (fl : flags) (x : state) : bool :=
  match prev x with
  | [] => true
  | c :: _ => multiline fl && is_line_terminator c
  end.

Definition at_line_end (fl : flags) (x : state) : bool :=
  match rest x with
  | [] => true
  | c :: _ => multiline fl && is_line_terminator c
  end.

(** The capturing groups inside a term: a quantifier resets them at every
    iteration. *)
Fixpoint groups_in (r : node) : list nat :=
  match r with
  | NSeq a b | NAlt a b => groups_in a ++ groups_in b
  | NRepeat a _ _ _ | NLookahead _ a => groups_in a
  | NGroup i a => i :: groups_in a
  | _ => []
  end.

Definition set_capture (i : nat) (v : option (list ascii))
  (caps : list (option (list ascii))) : list (option (list ascii)) :=
  <[pred i := v]> caps.

Definition clear_captures (gs : list nat) (x : state) : state :=
  {| prev := prev x; rest := rest x;
     captures := foldr (fun i caps => set_capture i None caps)
                       (captures x) gs |}.

(** The code units consumed between the states [x] and [y]. *)
Definition consumed (x y : state) : list ascii :=
  rev (take (end_index y - end_index x) (prev y)).

(** Matching the captured text [s] against the input, code unit by code
    unit in canonical form. *)
Fixpoint match_captured (fl : flags) (s prev rest : list ascii)
  : option (list ascii * list ascii) :=
  match s with
  | [] => Some (prev, rest)
  | a :: s' =>
      match rest with
      | [] => None
      | ch :: r =>
          if Ascii.eqb (canonicalize fl a) (canonicalize fl ch)
          then match_captured fl s' (ch :: prev) r
          else None
      end
  end.

(** RepeatMatcher.  Every iteration either lowers [min] or, once [min] is
    zero, has to consume input, so [min] plus the length of the remaining
    input bounds the number of iterations; [fuel] is set to one more. *)
Fixpoint repeat_matcher (m : matcher) (gs : list nat) (fuel : nat)
  (min : nat) (max : option nat) (greedy : bool) (x : state)
  (c : continuation) {struct fuel} : option state :=
  match fuel with
  | 0 => None
  | S fuel' =>
      match max with
      | Some 0 => c x
      | _ =>
          let d : continuation := fun y =>
            if (min =? 0)%nat && (end_index y =? end_index x)%nat then None
            else repeat_matcher m gs fuel' (pred min) (pred <$> max)
                                greedy y c in
          let xr := clear_captures gs x in
          if negb (min =? 0)%nat then m xr d
          else if greedy then
            match m xr d with
            | Some z => Some z
            | None => c x
            end
          else
            match c x with
            | Some z => Some z
            | None => m xr d
            end
      end
  end.

(** The matcher of a pattern, by recursion on its syntax. *)
Fixpoint compile (fl : flags) (r : node) : matcher :=
  match r with
  | NEmpty => fun x c => c x
  | NChar a => char_set_matcher fl (Ascii.eqb a) false
  | NAny =>
      char_set_matcher fl (fun a => dotAll fl || negb (is_line_terminator a))
                       false
  | NClass invert items => char_set_matcher fl (class_mem items) invert
  | NSeq a b => fun x c => compile fl a x (fun y => compile fl b y c)
  | NAlt a b => fun x c =>
      match compile fl a x c with
      | Some z => Some z
      | None => compile fl b x c
      end
  | NRepeat a min max greedy => fun x c =>
      repeat_matcher (compile fl a) (groups_in a)
                     (S (min + List.length (rest x))) min max greedy x c
  | NGroup i a => fun x c =>
      compile fl a x (fun y =>
        c {| prev := prev y; rest := rest y;
             captures := set_capture i (Some (consumed x y)) (captures y) |})
  | NLookahead negate a => fun x c =>
      match compile fl a x Some with
      | Some y =>
          if negate then None
          else c {| prev := prev x; rest := rest x; captures := captures y |}
      | None => if negate then c x else None
      end
  | NBackref i => fun x c =>
      match captures x !! pred i with
      | Some (Some s) =>
          match match_captured fl s (prev x) (rest x) with
          | Some (p, r) => c {| prev := p; rest := r; captures := captures x |}
          | None => None
          end
      | _ => c x
      end
  | NBegin => fun x c => if at_line_start fl x then c x else None
  | NEnd => fun x c => if at_line_end fl x then c x else None
  | NWordB => fun x c =>
      if Bool.eqb (word_before x) (word_after x) then None else c x
  | NNotWordB => fun x c =>
      if Bool.eqb (word_before x) (word_after x) then c x else None
  end.

(** *** Regular-expression objects *)

Record RegExp := {
  source : string;
  flags_of : flags;
  pattern : node;
  group_count : nat;
  lastIndex : nat
}.

Definition set_lastIndex (R : RegExp) (i : nat) : RegExp :=
  {| source := source R; flags_of := flags_of R; pattern := pattern R;
     group_count := group_count R; lastIndex := i |}.

(** EscapeRegExpPattern: the [source] of a regular expression reads back as
    the same pattern between slashes. *)
Fixpoint escape_source (in_class : bool) (cs : list ascii) : list ascii :=
  match cs with
  | [] => []
  | "\"%char :: c :: r => "\"%char :: c :: escape_source in_class r
  | "/"%char :: r =>
      if in_class then "/"%char :: escape_source in_class r
      else "\"%char :: "/"%char :: escape_source in_class r
  | "["%char :: r => "["%char :: escape_source true r
  | "]"%char :: r => "]"%char :: escape_source false r
  | c :: r =>
      if (code c =? 10)%N then "\"%char :: "n"%char :: escape_source in_class r
      else if (code c =? 13)%N
      then "\"%char :: "r"%char :: escape_source in_class r
      else c :: escape_source in_class r
  end.

Definition source_of (p : string) : string :=
  if String.eqb p "" then "(?:)" else str (escape_source false (chars p)).

(** [new RegExp(pattern, flags)]: a SyntaxError when the flags or the
    pattern do not parse. *)
Definition RegExp_new (p f : string) : completion RegExp :=
  match parse_flags (chars f) no_flags with
  | Throw m =>
      Throw ("Invalid flags supplied to RegExp constructor '" ++ f ++ "'")
  | Normal fl =>
      match parse_pattern p with
      | Throw m =>
          Throw ("Invalid regular expression: /" ++ p ++ "/" ++ f ++ ": " ++ m)
      | Normal (r, n) =>
          Normal {| source := source_of p; flags_of := fl; pattern := r;
                    group_count := n; lastIndex := 0 |}
      end
  end.

(** The array a successful match returns: [index], the matched text
    [match[0]], and the captures [match[1]], ... ([None] is undefined). *)
Record match_result := {
  index : nat;
  matched : string;
  groups : list (option string)
}.

(** The first position from the current one on at which the matcher
    succeeds (a sticky expression tries the current position only). *)
Fixpoint scan (m : matcher) (only_here : bool)
  (caps : list (option (list ascii))) (prev rest : list ascii)
  : option (state * state) :=
  let x := {| prev := prev; rest := rest; captures := caps |} in
  match m x Some with
  | Some y => Some (x, y)
  | None =>
      if only_here then None
      else match rest with
           | [] => None
           | c :: rest' => scan m only_here caps (c :: prev) rest'
           end
  end.

Definition uses_lastIndex (R : RegExp) : bool :=
  global (flags_of R) || sticky (flags_of R).

(** RegExpBuiltinExec: the match array or null, and the expression with
    its [lastIndex] as the call leaves it. *)
Definition exec (R : RegExp) (S : string) : option match_result * RegExp :=
  let input := chars S in
  let start := if uses_lastIndex R then lastIndex R else 0 in
  let fail := if uses_lastIndex R then set_lastIndex R 0 else R in
  if (List.length input <? start)%nat then (None, fail)
  else
    match scan (compile (flags_of R) (pattern R)) (sticky (flags_of R))
               (replicate (group_count R) None)
               (rev (take start input)) (drop start input) with
    | None => (None, fail)
    | Some (x, y) =>
        (Some {| index := end_index x;
                 matched := str (consumed x y);
                 groups := map (option_map str) (captures y) |},
         if uses_lastIndex R then set_lastIndex R (end_index y) else R)
    end.

(** [RegExp.prototype.test] *)
Definition test (R : RegExp) (S : string) : bool * RegExp :=
  let '(r, R') := exec R S in
  (match r with Some _ => true | None => false end, R').

(** [String.prototype.match] with a regular expression that has no [g]
    flag: the result of [exec]. *)
Definition string_match (S : string) (R : RegExp)
  : option match_result * RegExp :=
  exec R S.

(** A regular-expression literal: a new object at every evaluation. *)
Definition literal (p f : string) : RegExp :=
  match RegExp_new p f with
  | Normal R => R
  | Throw _ =>
      {| source := p; flags_of := no_flags; pattern := NClass false [];
         group_count := 0; lastIndex := 0 |}
  end.

End regexp.

(** ** The fixed-width fragment

    Patterns built from single code units, classes, sequences, alternatives
    of equal width and exact repetitions consume a fixed number of code
    units; on them the matcher amounts to a test of the next code units,
    which [accepts] describes. *)

Module fragment.
Import js regexp.

(** The state [n] code units further on. *)
Definition advance (n : nat) (x : state) : state :=
  {| prev := rev (take n (rest x)) ++ prev x;
     rest := drop n (rest x);
     captures := captures x |}.

Fixpoint width (r : node) : option nat :=
  match r with
  | NEmpty => Some 0
  | NChar _ | NAny | NClass _ _ => Some 1
  | NSeq a b =>
      match width a, width b with
      | Some n, Some m => Some (n + m)
      | _, _ => None
      end
  | NAlt a b =>
      match width a, width b with
      | Some n, Some m => if (n =? m)%nat then Some n else None
      | _, _ => None
      end
  | NRepeat a n (Some m) _ =>
      match width a with
      | Some w => if (n =? m)%nat then Some (n * w) else None
      | None => None
      end
  | _ => None
  end.

Definition accepts_char (fl : flags) (A : ascii -> bool) (invert : bool)
  (ch : ascii) : bool :=
  negb (Bool.eqb (set_has fl A ch) invert).

Definition accepts_one (fl : flags) (A : ascii -> bool) (invert : bool)
  (l : list ascii) : bool :=
  match l with
  | [ch] => accepts_char fl A invert ch
  | _ => false
  end.

Fixpoint chunks_all (f : list ascii -> bool) (w n : nat) (l : list ascii)
  : bool :=
  match n with
  | 0 => true
  | S n' => f (take w l) && chunks_all f w n' (drop w l)
  end.

(** Whether the pattern [r] matches exactly the code units [l]. *)
Fixpoint accepts (fl : flags) (r : node) (l : list ascii) : bool :=
  match r with
  | NEmpty => true
  | NChar a => accepts_one fl (Ascii.eqb a) false l
  | NAny =>
      accepts_one fl (fun a => dotAll fl || negb (is_line_terminator a))
                  false l
  | NClass invert items => accepts_one fl (class_mem items) invert l
  | NSeq a b =>
      let n := default 0 (width a) in
      accepts fl a (take n l) && accepts fl b (drop n l)
  | NAlt a b => accepts fl a l || accepts fl b l
  | NRepeat a n _ _ => chunks_all (accepts fl a) (default 0 (width a)) n l
  | _ => false
  end.

Definition prefix_test (fl : flags) (r : node) (n : nat) (x : state)
  (c : continuation) : option state :=
  if (n <=? List.length (rest x))%nat && accepts fl r (take n (rest x))
  then c (advance n x) else None.

(** [y] is a state of the same input as [x], not before it. *)
Definition follows (y x : state) : Prop :=
  List.length (rest y) <= List.length (rest x)
  /\ List.length (prev y) + List.length (rest y)
     = List.length (prev x) + List.length (rest x).

(** A matcher that calls its continuation only on states that follow the
    one it was given. *)
Definition forward (m : matcher) : Prop :=
  forall x c c', (forall y, follows y x -> c y = c' y) -> m x c = m x c'.

(** A matcher whose result is the result of its continuation on a state
    that follows the one it was given. *)
Definition answers (m : matcher) : Prop :=
  forall x c z, m x c = Some z -> exists y, follows y x /\ c y = Some z.

(** A matcher that fails everywhere but at the start of the input. *)
Definition only_at_start (m : matcher) : Prop :=
  forall x k, prev x <> [] -> m x k = None.

(** The attempt at index 0, the only one an expression anchored by [^]
    can win. *)
Definition anchored_run (R : RegExp) (S : string) : option state :=
  compile (flags_of R) (regexp.pattern R)
    {| prev := []; rest := chars S;
       captures := replicate (group_count R) None |} Some.

Definition succeeds (o : option state) : bool :=
  match o with
  | Some _ => true
  | None => false
  end.

End fragment.

(** ** The DOM behind [escapeHtml] *)

Module dom.
Import js.

(** Serialising a text node ([innerHTML] of an element whose [textContent]
    was set): the ampersand, the no-break space and the angle brackets are
    replaced by character references. *)
Fixpoint escape_text (cs : list ascii) : string :=
  match cs with
  | [] => ""
  | c :: r =>
      (if (code c =? 38)%N then "&amp;"
       else if (code c =? 160)%N then "&nbsp;"
       else if (code c =? 60)%N then "&lt;"
       else if (code c =? 62)%N then "&gt;"
       else String c "") ++ escape_text r
  end.

End dom.

(** ** JSON values *)

Module json.
Import js.

(** What [JSON.parse] returns.  A number is given by its value, [None]
    standing for an infinite one (a literal out of range); the members of
    an object are listed with the names as the object has them, each
    once. *)
#[local] Unset Elimination Schemes.
Inductive JSON :=
| JNull
| JBoolean (b : bool)
| JNumber (finite : option Q)
| JString (s : string)
| JArray (elements : list JSON)
| JObject (members : list (string * JSON)).
#[local] Set Elimination Schemes.

(** ToBoolean *)
Definition truthy (v : JSON) : bool :=
  match v with
  | JNull => false
  | JBoolean b => b
  | JNumber None => true
  | JNumber (Some q) => negb (Qeq_bool q 0%Q)
  | JString s => negb (String.eqb s "")
  | JArray _ | JObject _ => true
  end.

(** [!v] for a value that may be [undefined] ([None]). *)
Definition falsy (v : option JSON) : bool :=
  match v with
  | Some v => negb (truthy v)
  | None => true
  end.

Definition is_array (v : option JSON) : bool :=
  match v with
  | Some (JArray _) => true
  | _ => false
  end.

(** [typeof v === 'object'] *)
Definition is_object (v : option JSON) : bool :=
  match v with
  | Some (JNull | JArray _ | JObject _) => true
  | _ => false
  end.

Definition is_string (v : option JSON) : bool :=
  match v with
  | Some (JString _) => true
  | _ => false
  end.

(** The elements of a value that is an array. *)
Definition elements (v : option JSON) : list JSON :=
  match v with
  | Some (JArray l) => l
  | _ => []
  end.

Fixpoint member (key : string) (members : list (string * JSON))
  : option JSON :=
  match members with
  | [] => None
  | (k, v) :: members' => if String.eqb k key then Some v else member key members'
  end.

(** The outcome of a computation that can throw. *)
Notation "'let!' x := m 'in' k" :=
  (match m with
   | Normal x => k
   | Throw e => Throw e
   end)
  (at level 10, x name, m at level 100, k at level 200, only parsing).

Section host.

(** The message of the TypeError for reading the property [key] of
    [null]. *)
Variable null_property_message : string -> string.

(** [v.key], for the names the source reads: [id], [title], [dueDate],
    [duration], [tag], [createdAt], [updatedAt], [tasks], [settings] and
    [tags], none of which an array, a string, a number or a boolean has,
    own or inherited.  [None] is [undefined]. *)
Definition get (v : JSON) (key : string) : completion (option JSON) :=
  match v with
  | JNull => Throw (null_property_message key)
  | JObject members => Normal (member key members)
  | _ => Normal None
  end.

End host.

End json.

(** ** [scripts/validators.js] *)

Module validators.
Import js regexp.

Module patterns.

Definition title : RegExp :=
  Eval vm_compute in literal "^\S(?:.*\S)?$" "".

Definition duration : RegExp :=
  Eval vm_compute in literal "^(0|[1-9]\d*)(\.\d{1,2})?$" "".

Definition date : RegExp :=
  Eval vm_compute in
    literal "^\d{4}-(0[1-9]|1[0-2])-(0[1-9]|[12]\d|3[01])$" "".

Definition tag : RegExp :=
  Eval vm_compute in literal "^[A-Za-z]+(?:[ -][A-Za-z]+)*$" "".

Definition duplicateWord : RegExp :=
  Eval vm_compute in literal "\b(\w+)\s+\1\b" "i".

End patterns.

Record ValidationResult := {
  valid : bool;
  error : string
}.

Definition ok : ValidationResult := {| valid := true; error := "" |}.
Definition fails (msg : string) : ValidationResult :=
  {| valid := false; error := msg |}.

Definition validateTitle (title : value) : ValidationResult :=
  match title with
  | String_ s =>
      if negb (truthy title) then fails "Title is required"
      else
        let trimmed := trim s in
        if (jslength trimmed =? 0)%nat then fails "Title cannot be empty"
        else if (100 <? jslength trimmed)%nat
        then fails "Title must be 100 characters or less"
        else if negb (fst (test patterns.title trimmed))
        then fails
          "Title cannot have leading/trailing spaces or consecutive spaces"
        else if fst (test patterns.duplicateWord trimmed)
        then fails "Title contains duplicate consecutive words"
        else ok
  | _ => fails "Title is required"
  end.

(** [parseFloat] on a decimal literal without exponent, which is all that
    passes [patterns.duration]: an optional sign, digits, and an optional
    fraction; [None] is NaN.  The value is kept exact: the comparisons
    below are with 0 and 10000, which rounding to a double does not
    cross. *)
Fixpoint digits_value (acc : N) (cs : list ascii) : N * nat * list ascii :=
  match cs with
  | c :: r =>
      if is_digit c
      then let '(v, k, r') := digits_value (10 * acc + (code c - 48)) r in
           (v, S k, r')
      else (acc, 0, cs)
  | [] => (acc, 0, cs)
  end.

Definition parseFloat (s : string) : option Q :=
  let cs := trim_start (chars s) in
  let '(neg, cs1) :=
    match cs with
    | "-"%char :: r => (true, r)
    | "+"%char :: r => (false, r)
    | _ => (false, cs)
    end in
  let '(int, ki, cs2) := digits_value 0 cs1 in
  let '(num, kf) :=
    match cs2 with
    | "."%char :: r => let '(v, k, _) := digits_value int r in (v, k)
    | _ => (int, 0)
    end in
  if ((ki + kf)%nat =? 0)%nat then None
  else
    let q := Qmake (Z.of_N num) (Nat.iter kf (Pos.mul 10) 1%positive) in
    Some (if neg then Qopp q else q).

(** [a < b] on numbers; false when an operand is NaN. *)
Definition num_lt (a b : option Q) : bool :=
  match a, b with
  | Some x, Some y => negb (Qle_bool y x)
  | _, _ => false
  end.

Definition validateDuration (duration : value) : ValidationResult :=
  match duration with
  | String_ s =>
      if negb (truthy duration) then fails "Duration is required"
      else
        let trimmed := trim s in
        if (jslength trimmed =? 0)%nat then fails "Duration cannot be empty"
        else if negb (fst (test patterns.duration trimmed))
        then fails
          "Duration must be a positive number with up to 2 decimal places"
        else
          let num := parseFloat trimmed in
          if num_lt num (Some 0%Q) then fails "Duration must be positive"
          else if num_lt (Some 10000%Q) num
          then fails "Duration must be less than 10000"
          else ok
  | _ => fails "Duration is required"
  end.

Section host_date.

(** The time value of [new Date(s)], with [None] for an invalid date (NaN).
    The constructor belongs to the host, and hosts differ on a day beyond
    the end of its month. *)
Variable Date_time : string -> option Z.

Definition validateDate (date : value) : ValidationResult :=
  match date with
  | String_ s =>
      if negb (truthy date) then fails "Date is required"
      else if negb (fst (test patterns.date s))
      then fails "Date must be in YYYY-MM-DD format"
      else
        match Date_time (s ++ "T00:00:00Z") with
        | None => fails "Invalid date"
        | Some _ => ok
        end
  | _ => fails "Date is required"
  end.

End host_date.

Definition validateTag (tag : value) : ValidationResult :=
  match tag with
  | String_ s =>
      if negb (truthy tag) then fails "Tag is required"
      else
        let trimmed := trim s in
        if (jslength trimmed =? 0)%nat then fails "Tag cannot be empty"
        else if (50 <? jslength trimmed)%nat
        then fails "Tag must be 50 characters or less"
        else if negb (fst (test patterns.tag trimmed))
        then fails "Tag can only contain letters, spaces, and hyphens"
        else ok
  | _ => fails "Tag is required"
  end.

Record CompileResult := {
  regex : option RegExp;
  compile_error : string
}.

(** [flags] is [None] when the caller leaves the argument out. *)
Definition compileRegex (pattern : value) (flags : option string)
  : CompileResult :=
  let flags := default "i" flags in
  match pattern with
  | String_ p =>
      if negb (truthy pattern) then {| regex := None; compile_error := "" |}
      else
        match RegExp_new p flags with
        | Normal R => {| regex := Some R; compile_error := "" |}
        | Throw message =>
            {| regex := None; compile_error := "Invalid regex: " ++ message |}
        end
  | _ => {| regex := None; compile_error := "" |}
  end.

Record MatchSpan := {
  span_text : string;
  span_index : nat;
  span_length : nat
}.

(** The [while] loop of [findMatches]; [None] when [fuel] iterations did
    not reach its end. *)
Fixpoint findMatches_loop (fuel : nat) (text : string) (regexWithG : RegExp)
  (matches : list MatchSpan) : option (list MatchSpan) :=
  match fuel with
  | 0 => None
  | S fuel' =>
      match exec regexWithG text with
      | (None, _) => Some matches
      | (Some m, R') =>
          findMatches_loop fuel' text R'
            (matches ++ [{| span_text := matched m; span_index := index m;
                            span_length := jslength (matched m) |}])
      end
  end.

Definition includes (c : ascii) (s : string) : bool :=
  existsb (Ascii.eqb c) (chars s).

Definition findMatches (fuel : nat) (text : string) (regex : option RegExp)
  : option (completion (list MatchSpan)) :=
  match regex with
  | None => Some (Normal [])
  | Some R =>
      if String.eqb text "" then Some (Normal [])
      else
        let fl := flags_string (flags_of R) in
        match RegExp_new (source R)
                         (if includes "g" fl then fl else fl ++ "g") with
        | Throw m => Some (Throw m)
        | Normal regexWithG =>
            option_map Normal (findMatches_loop fuel text regexWithG [])
        end
  end.

Definition escapeHtml (text : string) : string :=
  dom.escape_text (chars text).

(** [String.prototype.replace] with a regular expression and a replacer
    function: the matches are collected first (all of them under the [g]
    flag, after [lastIndex] is reset; the first one otherwise), then the
    text between them is copied and each match replaced. *)
Fixpoint collect_matches (fuel : nat) (S : string) (R : RegExp)
  : list match_result * RegExp :=
  match fuel with
  | 0 => ([], R)
  | S fuel' =>
      match exec R S with
      | (None, R') => ([], R')
      | (Some m, R') =>
          if global (flags_of R) then
            let R'' := if String.eqb (matched m) ""
                       then set_lastIndex R' (Datatypes.S (lastIndex R'))
                       else R' in
            let '(ms, Rf) := collect_matches fuel' S R'' in
            (m :: ms, Rf)
          else ([m], R')
      end
  end.

Fixpoint splice (input : list ascii) (next : nat) (ms : list match_result)
  (replacer : string -> string) : string :=
  match ms with
  | [] => str (drop next input)
  | m :: ms' =>
      if (next <=? index m)%nat
      then str (take (index m - next) (drop next input))
           ++ replacer (matched m)
           ++ splice input (index m + jslength (matched m)) ms' replacer
      else splice input next ms' replacer
  end.

Definition replace (S : string) (R : RegExp) (replacer : string -> string)
  : string * RegExp :=
  let R0 := if global (flags_of R) then set_lastIndex R 0 else R in
  let '(ms, R') := collect_matches (Datatypes.S (Datatypes.S (jslength S)))
                                   S R0 in
  (splice (chars S) 0 ms replacer, R').

Definition highlightMatches (text : string) (regex : option RegExp)
  : string * option RegExp :=
  match regex with
  | None => (text, regex)
  | Some R =>
      if String.eqb text "" then (text, regex)
      else
        let '(s, R') :=
          replace text R
                  (fun m => ("<mark>" ++ escapeHtml m ++ "</mark>")%string) in
        (s, Some R')
  end.

(** The object [validateTask] receives: the four values of the form. *)
Record TaskForm := {
  form_title : value;
  form_dueDate : value;
  form_duration : value;
  form_tag : value
}.

(** [errors] is the object the source fills, as a map from its keys;
    [valid] is [Object.keys(errors).length === 0]. *)
Record TaskValidation := {
  all_valid : bool;
  errors : gmap string string
}.

Definition record_error (key : string) (r : ValidationResult)
  (errors : gmap string string) : gmap string string :=
  if negb (valid r) then <[key := error r]> errors else errors.

Section host_date_of_task.

Variable Date_time : string -> option Z.

Definition validateTask (task : TaskForm) : TaskValidation :=
  let errors := record_error "title" (validateTitle (form_title task)) ∅ in
  let errors :=
    record_error "dueDate" (validateDate Date_time (form_dueDate task))
                 errors in
  let errors :=
    record_error "duration" (validateDuration (form_duration task)) errors in
  let errors := record_error "tag" (validateTag (form_tag task)) errors in
  {| all_valid := (size errors =? 0)%nat; errors := errors |}.

End host_date_of_task.

(** [validateImportJSON].  [JSON.parse] and the message of the TypeError
    for a property of [null] belong to the host. *)
Record ImportValidation := {
  import_valid : bool;
  import_data : option json.JSON;
  import_error : string
}.

Section host_json.

Import json.

Variable JSON_parse : string -> completion JSON.
Variable null_property_message : string -> string.

Let get := get null_property_message.

(** [!v || typeof v !== 'string'] *)
Definition no_text (v : option JSON) : bool :=
  falsy v || negb (json.is_string v).

(** [v === undefined || v === null] *)
Definition no_value (v : option JSON) : bool :=
  match v with
  | None | Some JNull => true
  | _ => false
  end.

(** The body of the loop for the record at index [i]: [Some] is the error
    the function returns with, [None] lets the loop go on. *)
Definition check_record (i : nat) (record : JSON)
  : completion (option string) :=
  let complaint (what : string) :=
    Normal (Some ("Record " ++ pretty i ++ ": " ++ what)%string) in
  let! id := get record "id" in
  if no_text id then complaint "Missing or invalid id" else
  let! title := get record "title" in
  if no_text title then complaint "Missing or invalid title" else
  let! dueDate := get record "dueDate" in
  if no_text dueDate then complaint "Missing or invalid dueDate" else
  let! duration := get record "duration" in
  if no_value duration then complaint "Missing duration" else
  let! tag := get record "tag" in
  if no_text tag then complaint "Missing or invalid tag" else
  let! createdAt := get record "createdAt" in
  if no_text createdAt then complaint "Missing or invalid createdAt" else
  let! updatedAt := get record "updatedAt" in
  if no_text updatedAt then complaint "Missing or invalid updatedAt" else
  Normal None.

Fixpoint check_records (i : nat) (records : list JSON)
  : completion (option string) :=
  match records with
  | [] => Normal None
  | record :: records' =>
      let! complaint := check_record i record in
      match complaint with
      | Some e => Normal (Some e)
      | None => check_records (S i) records'
      end
  end.

Definition validateImportJSON (jsonString : string) : ImportValidation :=
  let attempt :=
    let! data := JSON_parse jsonString in
    match data with
    | JArray records =>
        let! complaint := check_records 0 records in
        match complaint with
        | Some e => Normal {| import_valid := false; import_data := None;
                              import_error := e |}
        | None => Normal {| import_valid := true; import_data := Some data;
                            import_error := "" |}
        end
    | _ => Normal {| import_valid := false; import_data := None;
                     import_error := "Data must be an array" |}
    end in
  match attempt with
  | Normal r => r
  | Throw message =>
      {| import_valid := false; import_data := None;
         import_error := ("JSON parse error: " ++ message)%string |}
  end.

End host_json.

End validators.

(** ** The storage module *)

Module storage.
Import js json.

Definition STORAGE_KEY : string := "campus-life-planner:tasks".
Definition SETTINGS_KEY : string := "campus-life-planner:settings".
Definition TAGS_KEY : string := "campus-life-planner:tags".

(** [localStorage]: a map from keys to texts. *)
Abbreviation Storage := (gmap string string).

Record ImportResult := {
  success : bool;
  error : string;
  data : option JSON
}.

Section host.

Variable JSON_parse : string -> completion JSON.
Variable JSON_stringify : JSON -> string.
Variable null_property_message : string -> string.

(** Whether the host lets [localStorage] hold these texts; [setItem]
    throws when it does not. *)
Variable within_quota : Storage -> bool.

Let get := get null_property_message.

Definition setItem (key value : string) (ls : Storage)
  : completion unit * Storage :=
  if within_quota (<[key := value]> ls)
  then (Normal tt, <[key := value]> ls)
  else (Throw "QuotaExceededError", ls).

(** [saveTasks], [saveSettings] and [saveTags]: the three differ in the
    key only. *)
Definition save (key : string) (v : JSON) (ls : Storage) : bool * Storage :=
  match setItem key (JSON_stringify v) ls with
  | (Normal _, ls') => (true, ls')
  | (Throw _, ls') => (false, ls')
  end.

Definition saveTasks : JSON -> Storage -> bool * Storage := save STORAGE_KEY.
Definition saveSettings : JSON -> Storage -> bool * Storage :=
  save SETTINGS_KEY.
Definition saveTags : JSON -> Storage -> bool * Storage := save TAGS_KEY.

(** The body of the loop of [importData] for the task at index [i]. *)
Definition check_task (i : nat) (task : JSON) : completion (option string) :=
  let! id := get task "id" in
  let! title := get task "title" in
  let! dueDate := get task "dueDate" in
  let! duration := get task "duration" in
  let! tag := get task "tag" in
  if falsy id || falsy title || falsy dueDate
     || match duration with None => true | Some _ => false end
     || falsy tag
  then Normal (Some ("Invalid task at index " ++ pretty i
                     ++ ": missing required fields")%string)
  else Normal None.

Fixpoint check_tasks (i : nat) (tasks : list JSON)
  : completion (option string) :=
  match tasks with
  | [] => Normal None
  | task :: tasks' =>
      let! complaint := check_task i task in
      match complaint with
      | Some e => Normal (Some e)
      | None => check_tasks (S i) tasks'
      end
  end.

Definition failure (message : string) : ImportResult :=
  {| success := false; error := message; data := None |}.

Definition importData (jsonString : string) (ls : Storage)
  : ImportResult * Storage :=
  let attempt : completion (ImportResult * Storage) :=
    let! parsed := JSON_parse jsonString in
    let! tasks := get parsed "tasks" in
    if falsy tasks || negb (is_array tasks)
    then Normal (failure "Invalid data: missing or invalid tasks array", ls)
    else
    let! settings := get parsed "settings" in
    if falsy settings || negb (is_object settings)
    then Normal (failure "Invalid data: missing or invalid settings", ls)
    else
    let! tags := get parsed "tags" in
    if falsy tags || negb (is_array tags)
    then Normal (failure "Invalid data: missing or invalid tags array", ls)
    else
    (* Past the three tests [tasks] is an array, and [settings] and
       [tags] are values. *)
    let! complaint := check_tasks 0 (elements tasks) in
    match complaint with
    | Some e => Normal (failure e, ls)
    | None =>
        let ls := snd (saveTasks (default JNull tasks) ls) in
        let ls := snd (saveSettings (default JNull settings) ls) in
        let ls := snd (saveTags (default JNull tags) ls) in
        Normal ({| success := true; error := ""; data := Some parsed |}, ls)
    end in
  match attempt with
  | Normal r => r
  | Throw message => (failure ("JSON parse error: " ++ message)%string, ls)
  end.

End host.

End storage.

(** ** The search module *)

Module search.
Import js regexp validators.

Record Task := {
  id : string;
  title : string;
  dueDate : string;
  duration : Q;
  tag : string;
  createdAt : string;
  updatedAt : string
}.

(** The names of the string-valued properties of a task. *)
Inductive field :=
| f_id | f_title | f_dueDate | f_tag | f_createdAt | f_updatedAt.

(** [task[field]] *)
Definition get (task : Task) (f : field) : string :=
  match f with
  | f_id => id task
  | f_title => title task
  | f_dueDate => dueDate task
  | f_tag => tag task
  | f_createdAt => createdAt task
  | f_updatedAt => updatedAt task
  end.

(** *** Arrays

    An array is an object: the functions below receive and return
    references into a store of arrays.  Task objects are never written to
    by this module and are kept as values. *)

Definition loc := nat.
Abbreviation heap := (gmap loc (list Task)).

Definition M (A : Type) : Type := heap -> A * heap.

Definition ret {A} (a : A) : M A := fun h => (a, h).

Definition bind {A B} (m : M A) (k : A -> M B) : M B :=
  fun h => let '(a, h') := m h in k a h'.

Notation "'let*' x := m 'in' k" := (bind m (fun x => k))
  (at level 10, x pattern, m at level 100, k at level 200, only parsing).

(** The elements of the array at [l]. *)
Definition elements (l : loc) : M (list Task) :=
  fun h => (default [] (h !! l), h).

(** A new array. *)
Definition new_array (ts : list Task) : M loc :=
  fun h => let l := fresh (dom h) in (l, <[l := ts]> h).

(** [Array.prototype.some] and [Array.prototype.filter] with a callback
    that updates a state of type [S] (here: the [lastIndex] of a regular
    expression). *)
Fixpoint array_some {A S} (p : A -> S -> bool * S) (l : list A) (s : S)
  : bool * S :=
  match l with
  | [] => (false, s)
  | a :: l' =>
      let '(b, s') := p a s in
      if b then (true, s') else array_some p l' s'
  end.

Fixpoint array_filter {A S} (p : A -> S -> bool * S) (l : list A) (s : S)
  : list A * S :=
  match l with
  | [] => ([], s)
  | a :: l' =>
      let '(b, s') := p a s in
      let '(kept, s'') := array_filter p l' s' in
      (if b then a :: kept else kept, s'')
  end.

Definition default_fields : list field := [f_title; f_tag; f_dueDate].

(** The callback of [searchTasks]: some field of the task passes
    [regex.test]. *)
Definition task_matches (fields : list field) (task : Task) (R : RegExp)
  : bool * RegExp :=
  array_some (fun f R => test R (get task f)) fields R.

Definition searchTasks (tasks : loc) (regex : option RegExp)
  (fields : list field) : M (loc * option RegExp) :=
  match regex with
  | None => ret (tasks, None)
  | Some R =>
      let* ts := elements tasks in
      let '(kept, R') := array_filter (task_matches fields) ts R in
      let* l := new_array kept in
      ret (l, Some R')
  end.

Record ParsedQuery := {
  command : option string;
  pattern : value
}.

Definition tag_command : RegExp :=
  Eval vm_compute in literal "^@tag:(\w+)$" "i".

Definition date_command : RegExp :=
  Eval vm_compute in literal "^@date:(\d{4}-\d{2}-\d{2})$" "".

(** [match[i]] for a capturing group [i]. *)
Definition capture (m : match_result) (i : nat) : value :=
  match groups m !! pred i with
  | Some (Some s) => String_ s
  | _ => Undefined
  end.

Definition parseQuery (query : value) : completion ParsedQuery :=
  if negb (truthy query)
  then Normal {| command := None; pattern := String_ "" |}
  else
    match query with
    | String_ q =>
        match fst (string_match q tag_command) with
        | Some tagMatch =>
            Normal {| command := Some "tag"; pattern := capture tagMatch 1 |}
        | None =>
            match fst (string_match q date_command) with
            | Some dateMatch =>
                Normal {| command := Some "date";
                          pattern := capture dateMatch 1 |}
            | None => Normal {| command := None; pattern := query |}
            end
        end
    | _ => Throw "query.match is not a function"
    end.

(** [a === b] where [a] is a string. *)
Definition strict_equal (a : string) (b : value) : bool :=
  match b with
  | String_ s => String.eqb a s
  | _ => false
  end.

Definition applyCommand (tasks : loc) (command : option string)
  (pattern : value) : M loc :=
  match command with
  | Some c =>
      if String.eqb c "tag" then
        let* ts := elements tasks in
        new_array (List.filter (fun task => strict_equal (tag task) pattern)
                               ts)
      else if String.eqb c "date" then
        let* ts := elements tasks in
        new_array (List.filter
                     (fun task => strict_equal (dueDate task) pattern) ts)
      else ret tasks
  | None => ret tasks
  end.

Record SearchResult := {
  tasks : loc;
  error : string
}.

Definition performSearch (tasks : loc) (query : value) (caseSensitive : bool)
  : M (completion SearchResult) :=
  if negb (truthy query) then ret (Normal {| tasks := tasks; error := "" |})
  else
    match parseQuery query with
    | Throw m => ret (Throw m)
    | Normal {| command := command; pattern := pattern |} =>
        if truthy (match command with Some c => String_ c | None => Null end)
        then
          let* filtered := applyCommand tasks command pattern in
          ret (Normal {| tasks := filtered; error := "" |})
        else
          let '{| regex := regex; compile_error := error |} :=
            compileRegex pattern (Some (if caseSensitive then "g" else "gi"))
          in
          match regex with
          | None =>
              let* empty := new_array [] in
              ret (Normal {| tasks := empty; error := error |})
          | Some _ =>
              let* filtered := searchTasks tasks regex default_fields in
              ret (Normal {| tasks := fst filtered; error := "" |})
          end
    end.

(** [highlightText]: [String(text)] is [text], the properties of a task
    being strings. *)
Definition highlightText (text : string) (regex : option RegExp)
  : string * option RegExp :=
  if negb (truthy (match regex with Some _ => Object | None => Null end))
     || negb (truthy (String_ text))
  then (text, regex)
  else highlightMatches text regex.

Definition getHighlightedTitle (task : Task) (regex : option RegExp)
  : string * option RegExp :=
  highlightText (title task) regex.

Definition getHighlightedTag (task : Task) (regex : option RegExp)
  : string * option RegExp :=
  highlightText (tag task) regex.

Definition getHighlightedDate (task : Task) (regex : option RegExp)
  : string * option RegExp :=
  highlightText (dueDate task) regex.

Record PatternValidation := {
  pattern_valid : bool;
  pattern_error : string;
  pattern_regex : option RegExp
}.

Definition validatePattern (pattern : value) : PatternValidation :=
  if negb (truthy pattern)
  then {| pattern_valid := true; pattern_error := "";
          pattern_regex := None |}
  else
    let '{| regex := regex; compile_error := error |} :=
      compileRegex pattern None in
    match regex with
    | None => {| pattern_valid := false; pattern_error := error;
                 pattern_regex := None |}
    | Some _ => {| pattern_valid := true; pattern_error := "";
                   pattern_regex := regex |}
    end.

Record Suggestion := {
  suggestion_type : string;
  suggestion_text : string;
  suggestion_label : string;
  suggestion_pattern : string
}.

(** [[...new Set(l)]]: the members of [l], each once, in the order of
    their first occurrence; [seen] holds those met so far. *)
Fixpoint unique (seen l : list string) : list string :=
  match l with
  | [] => []
  | a :: l' =>
      if existsb (String.eqb a) seen then unique seen l'
      else a :: unique (a :: seen) l'
  end.

(** [today] is [utils.formatDate(new Date())]. *)
Definition getSuggestions (today : string) (tasks : list Task)
  : list Suggestion :=
  let tags := unique [] (map tag tasks) in
  map (fun tag =>
         {| suggestion_type := "tag";
            suggestion_text := "@tag:" ++ tag;
            suggestion_label := "Filter by tag: " ++ tag;
            suggestion_pattern := "@tag:" ++ tag |}) tags
  ++ [ {| suggestion_type := "pattern"; suggestion_text := "upcoming";
          suggestion_label := "Find upcoming tasks";
          suggestion_pattern := "^[^0-9]*$" |};
       {| suggestion_type := "pattern"; suggestion_text := "today";
          suggestion_label := "Find today's tasks";
          suggestion_pattern := today |} ].

(** Whether the expression, used afresh, matches in the text, and in
    some of the fields of a task. *)
Definition matches_in (R : RegExp) (s : string) : bool :=
  fst (test (set_lastIndex R 0) s).

Definition task_has_match (fields : list field) (R : RegExp) (task : Task)
  : bool :=
  existsb (fun f => matches_in R (get task f)) fields.

End search.

(** ** The utilities *)

Module utils.
Import js regexp search.

(** The local calendar fields of a [Date] object: [getFullYear()],
    [getMonth()] and [getDate()]. *)
Record DateFields := {
  fullYear : Z;
  month : nat;
  day : nat
}.

(** What [formatDate] is given: a string, or a [Date] object, whose
    fields are [None] when it is an invalid date. *)
Inductive DateLike :=
| DateText (s : string)
| DateObject (fields : option DateFields).

(** [s.padStart(n, fill)] for a filler of one code unit. *)
Definition padStart (n : nat) (fill : ascii) (s : string) : string :=
  str (replicate (n - String.length s) fill) ++ s.

Definition formatDate (date : DateLike) : string :=
  match date with
  | DateText s => s
  | DateObject None => "NaN-NaN-NaN"
  | DateObject (Some d) =>
      let month := padStart 2 "0" (pretty (month d + 1)) in
      let day := padStart 2 "0" (pretty (day d)) in
      pretty (fullYear d) ++ "-" ++ month ++ "-" ++ day
  end.

(** [toLowerCase] on one code unit: [A-Z], and the Latin-1 letters
    U+00C0..U+00DE except the multiplication sign. *)
Definition to_lower (c : ascii) : ascii :=
  if is_upper c || (in_range 192 222 c && negb (code c =? 215)%N)
  then ascii_of_N (code c + 32) else c.

Definition toLowerCase (s : string) : string := str (map to_lower (chars s)).

(** [a < b] on strings: the first code unit that differs decides, and a
    proper prefix comes first. *)
Fixpoint string_lt (a b : list ascii) : bool :=
  match a, b with
  | _, [] => false
  | [], _ :: _ => true
  | x :: a', y :: b' =>
      (code x <? code y)%N || ((code x =? code y)%N && string_lt a' b')
  end.

(** [item[prop]] for a task: a string, the duration, or, for any other
    name, a value that is the same for every task ([undefined], or a
    member the tasks inherit). *)
Inductive property_value :=
| StringValue (s : string)
| NumberValue (q : Q)
| SharedValue.

Definition property (task : Task) (prop : string) : property_value :=
  if String.eqb prop "id" then StringValue (id task)
  else if String.eqb prop "title" then StringValue (title task)
  else if String.eqb prop "dueDate" then StringValue (dueDate task)
  else if String.eqb prop "duration" then NumberValue (duration task)
  else if String.eqb prop "tag" then StringValue (tag task)
  else if String.eqb prop "createdAt" then StringValue (createdAt task)
  else if String.eqb prop "updatedAt" then StringValue (updatedAt task)
  else SharedValue.

(** The value the comparator of [sortBy] compares. *)
Definition sort_key (task : Task) (prop : string) : property_value :=
  match property task prop with
  | StringValue s => StringValue (toLowerCase s)
  | v => v
  end.

(** [a < b] on two values of one property. *)
Definition less (a b : property_value) : bool :=
  match a, b with
  | StringValue x, StringValue y => string_lt (chars x) (chars y)
  | NumberValue x, NumberValue y => negb (Qle_bool y x)
  | _, _ => false
  end.

(** The comparator of [sortBy]. *)
Definition compare_by (prop order : string) (a b : Task) : Z :=
  let aVal := sort_key a prop in
  let bVal := sort_key b prop in
  if String.eqb order "asc"
  then if less bVal aVal then 1 else if less aVal bVal then -1 else 0
  else if less aVal bVal then 1 else if less bVal aVal then -1 else 0.

(** [Array.prototype.sort] with a comparator.  The sort of the language
    is stable, and for a comparator that orders the elements
    consistently, as the one above does, its result is fixed: no element
    comes after one the comparator puts behind it, and the elements the
    comparator does not tell apart keep their order.  Inserting the
    elements from the last to the first computes this result. *)
Fixpoint insert {A} (compare : A -> A -> Z) (x : A) (l : list A) : list A :=
  match l with
  | [] => [x]
  | y :: l' => if (0 <? compare x y)%Z then y :: insert compare x l'
               else x :: l
  end.

Definition sort {A} (compare : A -> A -> Z) (l : list A) : list A :=
  foldr (insert compare) [] l.

(** [sortBy]: the copy [[...arr]] is the list itself, lists being
    values. *)
Definition sortBy (arr : list Task) (prop order : string) : list Task :=
  sort (compare_by prop order) arr.


End utils.

(** ** [scripts/state.js]: the search and the sort of the task list *)

Module state.
Import js regexp validators search.

(** The fields of [appState] that the functions below read or write. *)
Record AppState := {
  tasks : list Task;
  searchQuery : string;
  searchRegex : option RegExp;
  caseSensitive : bool;
  sortBy : string;
  sortOrder : string
}.

(** The state module is a closure over [appState]: its functions are
    state transformers. *)
Definition setSearchQuery (query : string) (caseSensitive : bool)
  (s : AppState) : AppState :=
  {| tasks := tasks s;
     searchQuery := query;
     searchRegex :=
       if truthy (String_ query)
       then regex (compileRegex (String_ query)
                                (Some (if caseSensitive then "g" else "gi")))
       else None;
     caseSensitive := caseSensitive;
     sortBy := sortBy s;
     sortOrder := sortOrder s |}.

Definition getSearchRegex (s : AppState) : option RegExp := searchRegex s.

(** [order] is [None] when the caller leaves the argument out, or passes
    [null]. *)
Definition setSortOptions (field : string) (order : option string)
  (s : AppState) : AppState :=
  if String.eqb (sortBy s) field
     && match order with None => true | Some _ => false end
  then {| tasks := tasks s; searchQuery := searchQuery s;
          searchRegex := searchRegex s; caseSensitive := caseSensitive s;
          sortBy := sortBy s;
          sortOrder := if String.eqb (sortOrder s) "asc" then "desc"
                       else "asc" |}
  else {| tasks := tasks s; searchQuery := searchQuery s;
          searchRegex := searchRegex s; caseSensitive := caseSensitive s;
          sortBy := field;
          sortOrder := match order with
                       | Some o => if truthy (String_ o) then o else "asc"
                       | None => "asc"
                       end |}.

(** The text [getFilteredTasks] tests for a task. *)
Definition searchText (task : Task) : string :=
  title task ++ " " ++ tag task ++ " " ++ dueDate task.

(** [getFilteredTasks]: the tasks that pass [searchRegex.test], sorted;
    the expression is left with the [lastIndex] of its last test. *)
Definition getFilteredTasks (s : AppState) : list Task * AppState :=
  match searchRegex s with
  | None => (utils.sortBy (tasks s) (sortBy s) (sortOrder s), s)
  | Some R =>
      let '(filtered, R') :=
        array_filter (fun task R => test R (searchText task)) (tasks s) R in
      (utils.sortBy filtered (sortBy s) (sortOrder s),
       {| tasks := tasks s; searchQuery := searchQuery s;
          searchRegex := Some R'; caseSensitive := caseSensitive s;
          sortBy := sortBy s; sortOrder := sortOrder s |})
  end.

End state.

(** ** Reference definitions and sample data *)

Module spec.
Import js regexp validators search.

Definition exam1 : Task :=
  {| id := "t1"; title := "exam"; dueDate := "2025-09-29"; duration := 90;
     tag := "Academic"; createdAt := ""; updatedAt := "" |}.

Definition exam2 : Task :=
  {| id := "t2"; title := "exam"; dueDate := "2025-10-02"; duration := 60;
     tag := "Academic"; createdAt := ""; updatedAt := "" |}.

(** A store with one array, at reference 0. *)
Definition store_of (ts : list Task) : heap := {[ 0%nat := ts ]}.

(** A state of the page with two tasks and no search. *)
Definition sample_state : state.AppState :=
  {| state.tasks := [exam1; exam2];
     state.searchQuery := ""; state.searchRegex := None;
     state.caseSensitive := false;
     state.sortBy := "dueDate"; state.sortOrder := "asc" |}.

(** Two adjacent white-space code units. *)
Fixpoint has_double_space (cs : list ascii) : bool :=
  match cs with
  | a :: (b :: _) as r => (is_space a && is_space b) || has_double_space r
  | _ => false
  end.

(** A host whose [Date] constructor takes the date-time format
    [YYYY-MM-DDTHH:mm:ssZ] and gives an invalid date for every field out of
    range, the day of the month included; one of the behaviours found in
    practice. *)
Definition two_digits (a b : ascii) : option Z :=
  if is_digit a && is_digit b
  then Some (Z.of_N (10 * (code a - 48) + (code b - 48)))
  else None.

Definition is_leap (y : Z) : bool :=
  ((y mod 4 =? 0) && negb (y mod 100 =? 0) || (y mod 400 =? 0))%Z.

Definition days_in_month (y m : Z) : Z :=
  (if m =? 2 then (if is_leap y then 29 else 28)
   else if (m =? 4) || (m =? 6) || (m =? 9) || (m =? 11) then 30
   else 31)%Z.

(** The number of days from 1 January 1970 to the given civil date. *)
Definition days_from_civil (y m d : Z) : Z :=
  (let y' := if m <=? 2 then y - 1 else y in
   let era := y' / 400 in
   let yoe := y' - era * 400 in
   let doy := (153 * (if 2 <? m then m - 3 else m + 9) + 2) / 5 + d - 1 in
   let doe := yoe * 365 + yoe / 4 - yoe / 100 + doy in
   era * 146097 + doe - 719468)%Z.

Definition calendar_time (s : string) : option Z :=
  match chars s with
  | [y1; y2; y3; y4; a; m1; m2; b; d1; d2; t; h1; h2; c; n1; n2; e; s1; s2;
     z] =>
      if Ascii.eqb a "-" && Ascii.eqb b "-" && Ascii.eqb t "T"
         && Ascii.eqb c ":" && Ascii.eqb e ":" && Ascii.eqb z "Z"
      then
        match two_digits y1 y2, two_digits y3 y4, two_digits m1 m2,
              two_digits d1 d2, two_digits h1 h2, two_digits n1 n2,
              two_digits s1 s2 with
        | Some yh, Some yl, Some m, Some d, Some hh, Some mm, Some ss =>
            let y := (100 * yh + yl)%Z in
            if ((1 <=? m) && (m <=? 12) && (1 <=? d)
                && (d <=? days_in_month y m) && (hh <=? 23) && (mm <=? 59)
                && (ss <=? 59))%Z
            then Some ((days_from_civil y m d * 86400
                        + hh * 3600 + mm * 60 + ss) * 1000)%Z
            else None
        | _, _, _, _, _, _, _ => None
        end
      else None
  | _ => None
  end.

(** A host whose [Date] constructor takes the same format and checks the
    day of the month against 1..31 only, whatever the month: the days are
    counted on from the first of the month, so that 30 February 2025 is
    2 March 2025.  The other behaviour found in practice (V8, the engine of
    Chrome and Node.js). *)
Definition rolling_time (s : string) : option Z :=
  match chars s with
  | [y1; y2; y3; y4; a; m1; m2; b; d1; d2; t; h1; h2; c; n1; n2; e; s1; s2;
     z] =>
      if Ascii.eqb a "-" && Ascii.eqb b "-" && Ascii.eqb t "T"
         && Ascii.eqb c ":" && Ascii.eqb e ":" && Ascii.eqb z "Z"
      then
        match two_digits y1 y2, two_digits y3 y4, two_digits m1 m2,
              two_digits d1 d2, two_digits h1 h2, two_digits n1 n2,
              two_digits s1 s2 with
        | Some yh, Some yl, Some m, Some d, Some hh, Some mm, Some ss =>
            let y := (100 * yh + yl)%Z in
            if ((1 <=? m) && (m <=? 12) && (1 <=? d) && (d <=? 31)
                && (hh <=? 23) && (mm <=? 59) && (ss <=? 59))%Z
            then Some (((days_from_civil y m 1 + (d - 1)) * 86400
                        + hh * 3600 + mm * 60 + ss) * 1000)%Z
            else None
        | _, _, _, _, _, _, _ => None
        end
      else None
  | _ => None
  end.

(** A call that does not filter: the store is as it was, and the array
    returned is the one received. *)
Definition same_array (h h' : heap) (received returned : loc) : Prop :=
  h' = h /\ returned = received.

(** A call that filters: the array returned is one that the store [h] did
    not hold, its elements are elements of the received one in their order,
    and the store is [h] with that one array more. *)
Definition new_view (h h' : heap) (received returned : loc) : Prop :=
  h !! returned = None
  /\ exists kept, sublist kept (default [] (h !! received))
                  /\ h' = <[returned := kept]> h.

(** The commands [applyCommand] has a case for. *)
Definition filters_by (command : option string) : bool :=
  match command with
  | Some c => String.eqb c "tag" || String.eqb c "date"
  | None => false
  end.

(** The reading of "the result is a new filtered view" for one call of
    [performSearch]: the store is kept, and the returned array is one the
    store did not hold before. *)
Definition returns_new_view (h : heap) (received : loc) (q : string)
  (caseSensitive : bool) : Prop :=
  let '(r, h') := performSearch received (String_ q) caseSensitive h in
  match r with
  | Normal r => h ⊆ h' /\ h !! tasks r = None
  | Throw _ => False
  end.

(** *** The query shapes, in the words of the specification *)

(** ASCII and Latin-1 letters compared without regard to case. *)
Definition same_ignoring_case (a b : ascii) : bool :=
  Ascii.eqb (to_upper a) (to_upper b).

(** What follows the prefix [p] in [cs], code units compared by [same]. *)
Fixpoint strip_prefix (same : ascii -> ascii -> bool) (p cs : list ascii)
  : option (list ascii) :=
  match p with
  | [] => Some cs
  | a :: p' =>
      match cs with
      | c :: cs' => if same a c then strip_prefix same p' cs' else None
      | [] => None
      end
  end.

(** [@tag:<word>]: the prefix in any case, then a non-empty run of letters,
    digits and underscores up to the end. *)
Definition tag_argument (cs : list ascii) : option (list ascii) :=
  match strip_prefix same_ignoring_case (chars "@tag:") cs with
  | Some w =>
      if (1 <=? List.length w)%nat && forallb is_word_char w then Some w
      else None
  | None => None
  end.

(** [YYYY-MM-DD], each letter standing for a digit. *)
Definition is_date_text (d : list ascii) : bool :=
  match d with
  | [y1; y2; y3; y4; a; m1; m2; b; d1; d2] =>
      is_digit y1 && is_digit y2 && is_digit y3 && is_digit y4
      && Ascii.eqb "-" a && is_digit m1 && is_digit m2
      && Ascii.eqb "-" b && is_digit d1 && is_digit d2
  | _ => false
  end.

(** [@date:<YYYY-MM-DD>] *)
Definition date_argument (cs : list ascii) : option (list ascii) :=
  match strip_prefix Ascii.eqb (chars "@date:") cs with
  | Some d => if is_date_text d then Some d else None
  | None => None
  end.

(** The three shapes, the commands first. *)
Definition classify (q : string) : ParsedQuery :=
  if String.eqb q "" then {| command := None; pattern := String_ "" |}
  else
    match tag_argument (chars q) with
    | Some w => {| command := Some "tag"; pattern := String_ (str w) |}
    | None =>
        match date_argument (chars q) with
        | Some d => {| command := Some "date"; pattern := String_ (str d) |}
        | None => {| command := None; pattern := String_ q |}
        end
    end.

(** *** The date format, in the words of the specification *)

Definition two_digit_value (a b : ascii) : option N :=
  if is_digit a && is_digit b
  then Some (10 * (code a - 48) + (code b - 48))%N
  else None.

Definition two_digits_within (lo hi : N) (a b : ascii) : bool :=
  match two_digit_value a b with
  | Some n => ((lo <=? n) && (n <=? hi))%N
  | None => false
  end.

(** [YYYY-MM-DD] with the month in 01..12 and the day in 01..31. *)
Definition is_iso_date (cs : list ascii) : bool :=
  match cs with
  | [y1; y2; y3; y4; a; m1; m2; b; d1; d2] =>
      is_digit y1 && is_digit y2 && is_digit y3 && is_digit y4
      && Ascii.eqb "-" a && two_digits_within 1 12 m1 m2
      && Ascii.eqb "-" b && two_digits_within 1 31 d1 d2
  | _ => false
  end.

End spec.

(** ** Greedy runs

    An unbounded greedy quantifier over a single code unit or class, as
    the backtracking of [repeat_matcher] unfolds on it: the run is
    extended while the code units are accepted, and the continuation is
    tried at the end of the longest run first, then one code unit
    earlier, and so on down to [min] iterations. *)

Module runs.
Import js regexp.

Fixpoint greedy_run (acc : ascii -> bool) (c : continuation) (min : nat)
  (p r : list ascii) (caps : list (option (list ascii))) : option state :=
  let here := if (min =? 0)%nat
              then c {| prev := p; rest := r; captures := caps |}
              else None in
  match r with
  | ch :: r' =>
      if acc ch then
        match greedy_run acc c (pred min) (ch :: p) r' caps with
        | Some z => Some z
        | None => here
        end
      else here
  | [] => here
  end.

Fixpoint take_while {A} (p : A -> bool) (l : list A) : list A :=
  match l with
  | [] => []
  | a :: l' => if p a then a :: take_while p l' else []
  end.

End runs.

(** ** What the patterns of the validators accept

    Each of [patterns.title], [patterns.duration] and [patterns.tag] is
    described by a function on the code units that does not mention the
    matcher; the properties part proves that the pattern accepts a text
    exactly when the function does. *)

Module shapes.
Import js regexp.

(** After the first code unit of a title: any code units but line
    terminators, the last of them no white space. *)
Fixpoint ends_well (r : list ascii) : bool :=
  match r with
  | [] => false
  | ch :: r' =>
      match r' with
      | [] => negb (is_space ch)
      | _ => negb (is_line_terminator ch) && ends_well r'
      end
  end.

Definition title_shape (cs : list ascii) : bool :=
  match cs with
  | [] => false
  | c :: r => negb (is_space c)
              && match r with [] => true | _ => ends_well r end
  end.

(** Nothing, or a point and one or two digits. *)
Definition fraction_shape (r : list ascii) : bool :=
  match r with
  | [] => true
  | dot :: d1 :: t =>
      Ascii.eqb "." dot && is_digit d1
      && match t with
         | [] => true
         | [d2] => is_digit d2
         | _ => false
         end
  | _ => false
  end.

(** A zero, or digits that do not start with a zero, and then a
    fraction. *)
Definition duration_shape (cs : list ascii) : bool :=
  match cs with
  | [] => false
  | c :: r =>
      (Ascii.eqb "0" c && fraction_shape r)
      || (between "1" "9" c && fraction_shape (drop_while is_digit r))
  end.

Definition is_separator (c : ascii) : bool :=
  Ascii.eqb " " c || Ascii.eqb "-" c.

(** Words of letters, with one space or hyphen between two of them;
    [after_letter] tells whether the code unit before is a letter. *)
Fixpoint tag_shape (after_letter : bool) (cs : list ascii) : bool :=
  match cs with
  | [] => after_letter
  | c :: r =>
      if is_letter c then tag_shape true r
      else if is_separator c then after_letter && tag_shape false r
      else false
  end.

(** A word of [\w] code units at the start of [cs], white space after it,
    and then the same word, case aside, and no longer one. *)
Definition repeated_word_at (cs : list ascii) : bool :=
  let w := runs.take_while is_word_char cs in
  let after := drop_while is_word_char cs in
  (1 <=? List.length w)%nat
  && (1 <=? List.length (runs.take_while is_space after))%nat
  && match spec.strip_prefix spec.same_ignoring_case w
                             (drop_while is_space after) with
     | Some (c :: _) => negb (is_word_char c)
     | Some [] => true
     | None => false
     end.

(** Such a word somewhere in [cs], starting where a word starts;
    [after_word] tells whether the code unit before is a word
    character. *)
Fixpoint has_repeated_word (after_word : bool) (cs : list ascii) : bool :=
  match cs with
  | [] => false
  | c :: r =>
      (negb after_word && repeated_word_at cs)
      || has_repeated_word (is_word_char c) r
  end.

(** The parts of the patterns the proofs go through. *)
(** The flags and the pattern of [patterns.duplicateWord]. *)
Definition folding : flags :=
  {| hasIndices := false; global := false; ignoreCase := true;
     multiline := false; dotAll := false; sticky := false |}.

Definition repeated_word : node :=
  NSeq NWordB
    (NSeq
       (NGroup 1
          (NSeq (NRepeat (NClass false [ClassEsc Esc_w]) 1 None true) NEmpty))
       (NSeq (NRepeat (NClass false [ClassEsc Esc_s]) 1 None true)
          (NSeq (NBackref 1) (NSeq NWordB NEmpty)))).

Definition duration_tail : node :=
  NSeq
    (NRepeat
       (NGroup 2
          (NSeq (NChar ".")
             (NSeq (NRepeat (NClass false [ClassEsc Esc_d]) 1 (Some 2) true)
                NEmpty)))
       0 (Some 1) true)
    (NSeq NEnd NEmpty).

Definition tag_word : node :=
  NRepeat (NClass false [Range "A" "Z"; Range "a" "z"]) 1 None true.

Definition tag_more : node :=
  NSeq (NClass false [Range " " " "; Range "-" "-"]) (NSeq tag_word NEmpty).

Definition at_end : continuation :=
  fun y => compile no_flags (NSeq NEnd NEmpty) y Some.

(** [parseFloat] after the leading white space, with the tests on the
    sign and the point written as comparisons. *)
Definition number_prefix (cs : list ascii) : option Q :=
  let '(neg, cs1) :=
    match cs with
    | c :: r => if Ascii.eqb c "-" then (true, r)
                else if Ascii.eqb c "+" then (false, r) else (false, cs)
    | [] => (false, cs)
    end in
  let '(int, ki, cs2) := validators.digits_value 0 cs1 in
  let '(num, kf) :=
    match cs2 with
    | c :: r => if Ascii.eqb c "."
                then let '(v, k, _) := validators.digits_value int r in (v, k)
                else (int, 0)
    | [] => (int, 0)
    end in
  if ((ki + kf)%nat =? 0)%nat then None
  else
    let q := Qmake (Z.of_N num) (Nat.iter kf (Pos.mul 10) 1%positive) in
    Some (if neg then Qopp q else q).

(** The parts of a formatted date. *)
Definition four_digits (cs : list ascii) : bool :=
  match cs with
  | [a; b; c; d] => is_digit a && is_digit b && is_digit c && is_digit d
  | _ => false
  end.

Definition two_digits_in (lo hi : N) (cs : list ascii) : bool :=
  match cs with
  | [a; b] => spec.two_digits_within lo hi a b
  | _ => false
  end.

End shapes.

(** ** The records of an import, in the words of the messages *)

Module records.
Import js json.

(** A string that is not empty. *)
Definition text (v : option JSON) : bool :=
  match v with
  | Some (JString s) => negb (String.eqb s "")
  | _ => false
  end.

(** An object with an [id], a [title], a [dueDate], a [tag], a
    [createdAt] and an [updatedAt] that are strings and not empty, and a
    [duration] that is there and not [null]. *)
Definition complete_record (r : JSON) : bool :=
  match r with
  | JObject m =>
      text (member "id" m) && text (member "title" m)
      && text (member "dueDate" m)
      && match member "duration" m with
         | None | Some JNull => false
         | Some _ => true
         end
      && text (member "tag" m) && text (member "createdAt" m)
      && text (member "updatedAt" m)
  | _ => false
  end.

(** The first record that is not complete, with its index, counted from
    [i]. *)
Fixpoint first_incomplete (i : nat) (l : list JSON) : option (nat * JSON) :=
  match l with
  | [] => None
  | r :: l' =>
      if complete_record r then first_incomplete (S i) l' else Some (i, r)
  end.

Section host.

Variable JSON_parse : string -> completion JSON.
Variable null_property_message : string -> string.

(** What [importData] returns, with the tests of the structure taken
    together: [None] when the text passes them. *)
Definition import_complaint (s : string) : option string :=
  match JSON_parse s with
  | Throw m => Some ("JSON parse error: " ++ m)%string
  | Normal parsed =>
      match get null_property_message parsed "tasks" with
      | Throw m => Some ("JSON parse error: " ++ m)%string
      | Normal tasks =>
          if falsy tasks || negb (is_array tasks)
          then Some "Invalid data: missing or invalid tasks array"
          else
            match get null_property_message parsed "settings" with
            | Throw m => Some ("JSON parse error: " ++ m)%string
            | Normal settings =>
                if falsy settings || negb (is_object settings)
                then Some "Invalid data: missing or invalid settings"
                else
                  match get null_property_message parsed "tags" with
                  | Throw m => Some ("JSON parse error: " ++ m)%string
                  | Normal tags =>
                      if falsy tags || negb (is_array tags)
                      then Some "Invalid data: missing or invalid tags array"
                      else
                        match storage.check_tasks null_property_message 0
                                (elements tasks) with
                        | Throw m => Some ("JSON parse error: " ++ m)%string
                        | Normal complaint => complaint
                        end
                  end
            end
      end
  end.

End host.

(** A host for examples: [JSON.parse] on four texts, [JSON.stringify] on
    the values they hold, and the message of V8 for a property of
    [null]. *)
Definition quoted (s : string) : string :=
  String (ascii_of_nat 34) s ++ String (ascii_of_nat 34) "".

Definition sample_export : string :=
  "{" ++ quoted "tasks" ++ ":[]," ++ quoted "settings" ++ ":{},"
  ++ quoted "tags" ++ ":[]}".

Definition sample_parse (s : string) : completion JSON :=
  if String.eqb s "[]" then Normal (JArray [])
  else if String.eqb s "[null]" then Normal (JArray [JNull])
  else if String.eqb s "[{}]" then Normal (JArray [JObject []])
  else if String.eqb s sample_export
  then Normal (JObject [("tasks", JArray []); ("settings", JObject []);
                        ("tags", JArray [])])
  else Throw "Unexpected token".

Definition sample_stringify (v : JSON) : string :=
  match v with
  | JArray [] => "[]"
  | JObject [] => "{}"
  | _ => "null"
  end.

Definition sample_message (key : string) : string :=
  "Cannot read properties of null (reading '" ++ key ++ "')".

End records.

(** ** Matches as parts of the text *)

Module segments.
Import js regexp fragment validators.

(** [y] is a state of the same input as [x]. *)
Definition same_input (y x : state) : Prop :=
  rev (prev y) ++ rest y = rev (prev x) ++ rest x.

(** A matcher whose result is the result of its continuation on a state
    of the same input, further on. *)
Definition tracks (m : matcher) : Prop :=
  forall x c z, m x c = Some z ->
    exists y, follows y x /\ same_input y x /\ c y = Some z.

(** [input.substring(i, i + n)] *)
Definition substring (i n : nat) (input : list ascii) : list ascii :=
  take n (drop i input).

(** Matches of [input] that follow one another from the index [next] on:
    each is the text found at its index, and starts where the one before
    ends or later. *)
Fixpoint matches_in_order (input : list ascii) (next : nat)
  (ms : list match_result) : bool :=
  match ms with
  | [] => true
  | m :: ms' =>
      (next <=? index m)%nat
      && (index m + jslength (matched m) <=? List.length input)%nat
      && String.eqb (matched m)
                    (str (substring (index m) (jslength (matched m)) input))
      && matches_in_order input (index m + jslength (matched m)) ms'
  end.

(** The same of the spans [findMatches] returns, none of them empty. *)
Fixpoint spans_in_order (input : list ascii) (next : nat)
  (spans : list MatchSpan) : bool :=
  match spans with
  | [] => true
  | sp :: spans' =>
      (next <=? span_index sp)%nat
      && (0 <? span_length sp)%nat
      && (span_index sp + span_length sp <=? List.length input)%nat
      && String.eqb (span_text sp)
                    (str (substring (span_index sp) (span_length sp) input))
      && spans_in_order input (span_index sp + span_length sp) spans'
  end.

(** A text with some of its parts marked: the parts in between are kept
    as they are, the marked ones escaped and wrapped. *)
Inductive marked : list ascii -> string -> Prop :=
| marked_rest (u : list ascii) : marked u (str u)
| marked_match (u m rest : list ascii) (out : string) :
    marked rest out ->
    marked (u ++ m ++ rest)
           (str u ++ "<mark>" ++ escapeHtml (str m) ++ "</mark>" ++ out).

End segments.

(** * Properties *)

Import js regexp fragment.

#[local] Arguments is_digit : simpl never.
#[local] Arguments is_word_char : simpl never.
#[local] Arguments is_space : simpl never.
#[local] Arguments between : simpl never.
#[local] Arguments to_upper : simpl never.
#[local] Arguments Ascii.eqb : simpl never.
#[local] Arguments set_has : simpl never.

(** ** Code units *)

Lemma all_chars_complete (a : ascii) : In a all_chars.
Proof.
  unfold all_chars. rewrite <- (ascii_nat_embedding a).
  apply in_map, in_seq. pose proof (nat_ascii_bounded a). lia.
Qed.

(** A property checked on the 256 code units holds of every code unit. *)
Lemma for_all_chars (P : ascii -> bool) :
  forallb P all_chars = true -> forall a, P a = true.
Proof.
  intros H a. rewrite forallb_forall in H. apply H, all_chars_complete.
Qed.

Lemma for_all_chars2 (P : ascii -> ascii -> bool) :
  forallb (fun a => forallb (P a) all_chars) all_chars = true ->
  forall a b, P a b = true.
Proof.
  intros H a b. apply for_all_chars. now apply (for_all_chars _ H a).
Qed.

Lemma digit_not_space (c : ascii) : is_digit c = true -> is_space c = false.
Proof.
  revert c.
  assert (H : forall c, implb (is_digit c) (negb (is_space c)) = true)
    by (apply for_all_chars; vm_compute; reflexivity).
  intros c Hc. specialize (H c). rewrite Hc in H. cbn in H.
  now apply negb_true_iff.
Qed.

Lemma eqb_false_r (b : bool) : Bool.eqb b false = negb b.
Proof. now destruct b. Qed.

Lemma forallb_pointwise {A} (f g : A -> bool) (l : list A) :
  (forall a, f a = g a) -> forallb f l = forallb g l.
Proof.
  intros H. induction l as [|a l IH]; cbn; [reflexivity|]. now rewrite H, IH.
Qed.

(** ** Trimming *)

Lemma drop_while_idem {A} (p : A -> bool) (l : list A) :
  drop_while p (drop_while p l) = drop_while p l.
Proof.
  induction l as [|a l IH]; cbn; [reflexivity|].
  destruct (p a) eqn:E; [exact IH|]. cbn. now rewrite E.
Qed.

Lemma drop_while_head {A} (p : A -> bool) (a : A) (l : list A) :
  p a = false -> drop_while p (a :: l) = a :: l.
Proof. intros H. cbn. now rewrite H. Qed.

Lemma drop_while_last {A} (p : A -> bool) (l : list A) (a : A) :
  p a = false -> exists l', drop_while p (l ++ [a]) = l' ++ [a].
Proof.
  intros H. induction l as [|b l IH]; cbn.
  - rewrite H. now exists [].
  - destruct (p b); [exact IH|]. now exists (b :: l).
Qed.

(** Stripping the end keeps a first code unit that is no white space. *)
Lemma trim_end_keeps_head (a : ascii) (l : list ascii) :
  is_space a = false -> exists l', trim_end (a :: l) = a :: l'.
Proof.
  intros H. unfold trim_end. cbn [rev].
  destruct (drop_while_last is_space (rev l) a H) as [l' ->].
  rewrite rev_app_distr. cbn. now exists (rev l').
Qed.

Lemma trim_start_head (l : list ascii) :
  trim_start l = []
  \/ exists a l', trim_start l = a :: l' /\ is_space a = false.
Proof.
  unfold trim_start. induction l as [|a l IH]; cbn; [now left|].
  destruct (is_space a) eqn:E; [exact IH|]. right. now exists a, l.
Qed.

Lemma trim_end_idem (l : list ascii) : trim_end (trim_end l) = trim_end l.
Proof. unfold trim_end. now rewrite rev_involutive, drop_while_idem. Qed.

Lemma trim_idempotent (s : string) : trim (trim s) = trim s.
Proof.
  unfold trim. rewrite list_ascii_of_string_of_list_ascii. f_equal.
  destruct (trim_start_head (chars s)) as [-> | (a & l & -> & Ha)];
    [reflexivity|].
  destruct (trim_end_keeps_head a l Ha) as [l' E]. rewrite E.
  unfold trim_start. rewrite (drop_while_head _ _ _ Ha), <- E.
  apply trim_end_idem.
Qed.

Lemma trim_nonempty (s : string) : trim s <> "" -> s <> "".
Proof. intros H ->. now apply H. Qed.

Lemma truthy_string (s : string) : s <> "" -> truthy (String_ s) = true.
Proof.
  intros H. cbn. destruct (String.eqb s "") eqn:E; [|reflexivity].
  apply String.eqb_eq in E. contradiction.
Qed.

(** ** The matcher *)

(** An expression without the [g] and [y] flags is left as it was. *)
Lemma exec_keeps_plain_expression (R : RegExp) (S : string) :
  uses_lastIndex R = false -> snd (exec R S) = R.
Proof.
  intros H. unfold exec. rewrite H.
  destruct (_ <? _)%nat; [reflexivity|].
  now destruct (scan _ _ _ _ _) as [[x y]|].
Qed.

Lemma scan_unfold m oh caps p r :
  scan m oh caps p r =
  match m {| prev := p; rest := r; captures := caps |} Some with
  | Some y => Some ({| prev := p; rest := r; captures := caps |}, y)
  | None =>
      if oh then None
      else match r with
           | [] => None
           | c :: r' => scan m oh caps (c :: p) r'
           end
  end.
Proof. destruct r; reflexivity. Qed.

Lemma scan_only_at_start m caps c p r :
  only_at_start m -> scan m false caps (c :: p) r = None.
Proof.
  intros Hm. revert c p. induction r as [|c' r IH]; intros c p;
    rewrite scan_unfold, Hm by discriminate; [reflexivity | apply IH].
Qed.

Lemma begin_only_at_start fl a :
  multiline fl = false -> only_at_start (compile fl (NSeq NBegin a)).
Proof.
  intros Hm [p r caps] k Hp. cbn in *. unfold at_line_start. cbn.
  destruct p; [contradiction|]. now rewrite Hm.
Qed.

(** An expression that starts with [^], without the [m], [g] and [y]
    flags, matches at index 0 or not at all. *)
Lemma exec_anchored R S a :
  regexp.pattern R = NSeq NBegin a ->
  multiline (flags_of R) = false ->
  uses_lastIndex R = false ->
  exec R S =
  match anchored_run R S with
  | Some y =>
      (Some {| index := 0; matched := str (rev (prev y));
               groups := map (option_map str) (captures y) |}, R)
  | None => (None, R)
  end.
Proof.
  intros Hp Hm Hu. unfold exec, anchored_run. rewrite Hu.
  apply orb_false_elim in Hu as [_ ->].
  replace (List.length (chars S) <? 0)%nat with false
    by (symmetry; apply Nat.ltb_ge; lia).
  rewrite take_0, drop_0. cbn [rev]. rewrite scan_unfold.
  destruct (compile _ _ _ Some) as [y|] eqn:E.
  - unfold consumed, end_index. cbn [prev List.length].
    rewrite Nat.sub_0_r, firstn_all. reflexivity.
  - destruct (chars S) as [|c r]; [reflexivity|].
    rewrite scan_only_at_start; [reflexivity|].
    rewrite Hp. now apply begin_only_at_start.
Qed.

Lemma test_anchored R S a :
  regexp.pattern R = NSeq NBegin a ->
  multiline (flags_of R) = false ->
  uses_lastIndex R = false ->
  fst (test R S) = succeeds (anchored_run R S).
Proof.
  intros Hp Hm Hu. unfold test. rewrite (exec_anchored R S a Hp Hm Hu).
  now destruct (anchored_run R S).
Qed.

(** *** Moving forward *)

Lemma follows_refl x : follows x x.
Proof. split; lia. Qed.

Lemma follows_trans z y x : follows z y -> follows y x -> follows z x.
Proof. unfold follows. lia. Qed.

Lemma match_captured_follows fl s p r p' r' :
  match_captured fl s p r = Some (p', r') ->
  List.length r' <= List.length r
  /\ List.length p' + List.length r' = List.length p + List.length r.
Proof.
  revert p r. induction s as [|a s IH]; intros p r H; cbn in H.
  - injection H as <- <-. lia.
  - destruct r as [|ch r]; [discriminate|].
    destruct (Ascii.eqb _ _); [|discriminate].
    apply IH in H. cbn in *. lia.
Qed.

Lemma repeat_forward m gs fuel :
  forward m ->
  forall min max g x c c',
    (forall y, follows y x -> c y = c' y) ->
    repeat_matcher m gs fuel min max g x c
    = repeat_matcher m gs fuel min max g x c'.
Proof.
  intros Hm. induction fuel as [|fuel IH]; intros min max g x c c' H;
    [reflexivity|].
  cbn [repeat_matcher].
  assert (Hd :
    m (clear_captures gs x)
      (fun y => if (min =? 0)%nat && (end_index y =? end_index x)%nat
                then None
                else repeat_matcher m gs fuel (pred min) (pred <$> max)
                                    g y c)
    = m (clear_captures gs x)
        (fun y => if (min =? 0)%nat && (end_index y =? end_index x)%nat
                  then None
                  else repeat_matcher m gs fuel (pred min) (pred <$> max)
                                      g y c')).
  { apply Hm. intros y Hy. destruct (_ && _); [reflexivity|].
    apply IH. intros z Hz. apply H. eapply follows_trans; [exact Hz|].
    destruct x; exact Hy. }
  rewrite Hd, (H x (follows_refl x)). reflexivity.
Qed.

(** Every matcher moves forward in its input. *)
Theorem compile_forward fl r : forward (compile fl r).
Proof.
  induction r as [ |a| |inv items|a IHa b IHb|a IHa b IHb
                  |a IHa min max g|i a IHa|neg a IHa|i| | | | ];
    intros x c c' H; cbn [compile].
  - apply H, follows_refl.
  - unfold char_set_matcher. destruct (rest x) as [|ch r] eqn:E; [reflexivity|].
    destruct (Bool.eqb _ _); [reflexivity|].
    apply H. unfold follows. cbn. rewrite E. cbn. lia.
  - unfold char_set_matcher. destruct (rest x) as [|ch r] eqn:E; [reflexivity|].
    destruct (Bool.eqb _ _); [reflexivity|].
    apply H. unfold follows. cbn. rewrite E. cbn. lia.
  - unfold char_set_matcher. destruct (rest x) as [|ch r] eqn:E; [reflexivity|].
    destruct (Bool.eqb _ _); [reflexivity|].
    apply H. unfold follows. cbn. rewrite E. cbn. lia.
  - apply IHa. intros y Hy. apply IHb. intros z Hz. apply H.
    eapply follows_trans; eassumption.
  - rewrite (IHa x c c' H), (IHb x c c' H). reflexivity.
  - now apply repeat_forward.
  - apply IHa. intros y Hy. apply H. exact Hy.
  - destruct (compile fl a x Some); destruct neg; try reflexivity;
      apply H; unfold follows; cbn; lia.
  - destruct (captures x !! pred i) as [[s|]|]; try (apply H, follows_refl).
    destruct (match_captured fl s (prev x) (rest x)) as [[p r]|] eqn:E;
      [|reflexivity].
    apply H. apply match_captured_follows in E. exact E.
  - destruct (at_line_start fl x); [apply H, follows_refl | reflexivity].
  - destruct (at_line_end fl x); [apply H, follows_refl | reflexivity].
  - destruct (Bool.eqb _ _); [reflexivity | apply H, follows_refl].
  - destruct (Bool.eqb _ _); [apply H, follows_refl | reflexivity].
Qed.

(** The fuel of [repeat_matcher] never runs out: any amount above [min]
    plus the length of the remaining input gives the same result. *)
Theorem repeat_fuel_irrelevant m gs :
  forward m ->
  forall fuel fuel' min max g x c,
    min + List.length (rest x) < fuel ->
    min + List.length (rest x) < fuel' ->
    repeat_matcher m gs fuel min max g x c
    = repeat_matcher m gs fuel' min max g x c.
Proof.
  intros Hm fuel. induction fuel as [|fuel IH];
    intros fuel' min max g x c Hf Hf'; [lia|].
  destruct fuel' as [|fuel']; [lia|]. cbn [repeat_matcher].
  assert (Hd :
    m (clear_captures gs x)
      (fun y => if (min =? 0)%nat && (end_index y =? end_index x)%nat
                then None
                else repeat_matcher m gs fuel (pred min) (pred <$> max)
                                    g y c)
    = m (clear_captures gs x)
        (fun y => if (min =? 0)%nat && (end_index y =? end_index x)%nat
                  then None
                  else repeat_matcher m gs fuel' (pred min) (pred <$> max)
                                      g y c)).
  { apply Hm. intros y [Hy1 Hy2].
    destruct x as [p r caps]. cbn in Hy1, Hy2, Hf, Hf'.
    unfold end_index. cbn [prev].
    destruct min as [|min]; cbn [Nat.eqb andb pred].
    - destruct (List.length (prev y) =? List.length p)%nat eqn:E;
        [reflexivity|].
      apply Nat.eqb_neq in E. apply IH; lia.
    - apply IH; lia. }
  now rewrite Hd.
Qed.

(** In particular the fuel [compile] gives to a quantifier is enough. *)
Corollary quantifier_fuel_enough fl a min max g fuel x c :
  min + List.length (rest x) < fuel ->
  compile fl (NRepeat a min max g) x c
  = repeat_matcher (compile fl a) (groups_in a) fuel min max g x c.
Proof.
  intros H. cbn [compile].
  apply repeat_fuel_irrelevant; [apply compile_forward | lia | exact H].
Qed.

Lemma repeat_answers m gs fuel :
  answers m ->
  forall min max g x c z,
    repeat_matcher m gs fuel min max g x c = Some z ->
    exists y, follows y x /\ c y = Some z.
Proof.
  intros Hm. induction fuel as [|fuel IH]; intros min max g x c z H;
    [discriminate|].
  cbn [repeat_matcher] in H.
  set (d := fun y =>
              if (min =? 0)%nat && (end_index y =? end_index x)%nat
              then None
              else repeat_matcher m gs fuel (pred min) (pred <$> max) g y c)
    in *.
  assert (Hd : m (clear_captures gs x) d = Some z ->
               exists y, follows y x /\ c y = Some z).
  { intros E. apply Hm in E as (y & Hy & E). unfold d in E.
    destruct (_ && _); [discriminate|].
    apply IH in E as (y' & Hy' & E). exists y'. split; [|exact E].
    eapply follows_trans; [exact Hy'|]. destruct x; exact Hy. }
  assert (Hx : c x = Some z -> exists y, follows y x /\ c y = Some z)
    by (intros E; exists x; split; [apply follows_refl | exact E]).
  destruct max as [[|k]|]; [now apply Hx| |].
  all: destruct (negb (min =? 0)%nat); [now apply Hd|];
    destruct g;
    [ destruct (m (clear_captures gs x) d) eqn:E;
      [injection H as <-; now apply Hd | now apply Hx]
    | destruct (c x) eqn:E; [injection H as <-; now apply Hx | now apply Hd] ].
Qed.

(** What a matcher returns, its continuation returned further on. *)
Theorem compile_answers fl r : answers (compile fl r).
Proof.
  induction r as [ |a| |inv items|a IHa b IHb|a IHa b IHb
                  |a IHa min max g|i a IHa|neg a IHa|i| | | | ];
    intros x c z H; cbn [compile] in H.
  - exists x. split; [apply follows_refl | exact H].
  - unfold char_set_matcher in H.
    destruct (rest x) as [|ch r] eqn:E; [discriminate|].
    destruct (Bool.eqb _ _); [discriminate|]. eexists. split; [|exact H].
    unfold follows. cbn. rewrite E. cbn. lia.
  - unfold char_set_matcher in H.
    destruct (rest x) as [|ch r] eqn:E; [discriminate|].
    destruct (Bool.eqb _ _); [discriminate|]. eexists. split; [|exact H].
    unfold follows. cbn. rewrite E. cbn. lia.
  - unfold char_set_matcher in H.
    destruct (rest x) as [|ch r] eqn:E; [discriminate|].
    destruct (Bool.eqb _ _); [discriminate|]. eexists. split; [|exact H].
    unfold follows. cbn. rewrite E. cbn. lia.
  - apply IHa in H as (y & Hy & H). apply IHb in H as (y' & Hy' & H).
    exists y'. split; [eapply follows_trans; eassumption | exact H].
  - destruct (compile fl a x c) eqn:E.
    + injection H as <-. now apply IHa.
    + now apply IHb.
  - now apply repeat_answers in H.
  - apply IHa in H as (y & Hy & H). eexists. split; [|exact H]. exact Hy.
  - destruct (compile fl a x Some); destruct neg; try discriminate.
    + eexists. split; [|exact H]. unfold follows. cbn. lia.
    + exists x. split; [apply follows_refl | exact H].
  - destruct (captures x !! pred i) as [[s|]|];
      try (exists x; split; [apply follows_refl | exact H]).
    destruct (match_captured fl s (prev x) (rest x)) as [[p r]|] eqn:E;
      [|discriminate].
    eexists. split; [|exact H]. apply match_captured_follows in E. exact E.
  - destruct (at_line_start fl x); [|discriminate].
    exists x. split; [apply follows_refl | exact H].
  - destruct (at_line_end fl x); [|discriminate].
    exists x. split; [apply follows_refl | exact H].
  - destruct (Bool.eqb _ _); [discriminate|].
    exists x. split; [apply follows_refl | exact H].
  - destruct (Bool.eqb _ _); [|discriminate].
    exists x. split; [apply follows_refl | exact H].
Qed.

Lemma scan_spec m oh caps p r x y :
  answers m ->
  scan m oh caps p r = Some (x, y) ->
  List.length p <= end_index x /\ follows y x
  /\ end_index x + List.length (rest x) = List.length p + List.length r.
Proof.
  intros Hm. revert p. induction r as [|ch r IH]; intros p H;
    rewrite scan_unfold in H.
  - destruct (m _ Some) eqn:E.
    + injection H as <- <-. apply Hm in E as (y' & Hy & [= <-]).
      unfold end_index. cbn. split; [lia|]. split; [exact Hy | lia].
    + destruct oh; discriminate.
  - destruct (m _ Some) eqn:E.
    + injection H as <- <-. apply Hm in E as (y' & Hy & [= <-]).
      unfold end_index. cbn. split; [lia|]. split; [exact Hy | lia].
    + destruct oh; [discriminate|]. apply IH in H as (H1 & H2 & H3).
      cbn in *. split; [lia|]. split; [exact H2 | lia].
Qed.

(** A successful [exec] under the [g] or [y] flag finds its match at or
    after [lastIndex] and moves [lastIndex] behind it. *)
Lemma exec_progress R S m R' :
  uses_lastIndex R = true ->
  exec R S = (Some m, R') ->
  lastIndex R <= index m
  /\ lastIndex R <= List.length (chars S)
  /\ lastIndex R' = index m + jslength (matched m)
  /\ flags_of R' = flags_of R.
Proof.
  intros Hu H. unfold exec in H. rewrite Hu in H.
  destruct (_ <? _)%nat eqn:El; [discriminate|]. apply Nat.ltb_ge in El.
  destruct (scan _ _ _ _ _) as [[x y]|] eqn:E; [|discriminate].
  injection H as <- <-. cbn [index matched lastIndex set_lastIndex flags_of].
  apply scan_spec in E as (H1 & [H2 H3] & H4); [|apply compile_answers].
  rewrite length_rev, length_take, Nat.min_l in H1 by exact El.
  split; [exact H1|]. split; [exact El|]. split; [|reflexivity].
  unfold jslength, consumed. rewrite list_ascii_of_string_of_list_ascii.
  rewrite length_rev, length_take. unfold end_index in *. lia.
Qed.

(** The loop of [replace] ends within the fuel it is given: any two
    amounts that cover the rest of the text give the same matches. *)
Lemma collect_matches_fuel S :
  forall fuel fuel' R,
    global (flags_of R) = true ->
    0 < fuel -> 0 < fuel' ->
    List.length (chars S) + 2 <= fuel + lastIndex R ->
    List.length (chars S) + 2 <= fuel' + lastIndex R ->
    validators.collect_matches fuel S R
    = validators.collect_matches fuel' S R.
Proof.
  induction fuel as [|fuel IH]; intros fuel' R Hg H0 H0' Hf Hf'; [lia|].
  destruct fuel' as [|fuel']; [lia|]. cbn [validators.collect_matches].
  destruct (exec R S) as [[m|] R'] eqn:E; [|reflexivity].
  rewrite Hg.
  assert (Hu : uses_lastIndex R = true)
    by (unfold uses_lastIndex; now rewrite Hg).
  destruct (exec_progress R S m R' Hu E) as (H1 & H2 & H3 & H4).
  set (R'' := if String.eqb (matched m) ""
              then set_lastIndex R' (Datatypes.S (lastIndex R')) else R').
  assert (Hl : lastIndex R < lastIndex R'').
  { unfold R''. destruct (String.eqb (matched m) "") eqn:Em.
    - cbn. lia.
    - assert (jslength (matched m) <> 0).
      { unfold jslength. destruct (matched m); [discriminate|]. cbn. lia. }
      lia. }
  assert (Hg'' : global (flags_of R'') = true).
  { unfold R''. destruct (String.eqb _ _); cbn; now rewrite H4. }
  rewrite (IH fuel' R'');
    [reflexivity | assumption | lia | lia | lia | lia].
Qed.

(** In particular the fuel [replace] gives to its loop is enough. *)
Corollary replace_fuel_enough S R fuel :
  global (flags_of R) = true ->
  jslength S + 2 <= fuel ->
  validators.collect_matches (Datatypes.S (Datatypes.S (jslength S))) S
                             (set_lastIndex R 0)
  = validators.collect_matches fuel S (set_lastIndex R 0).
Proof.
  intros Hg Hf. unfold jslength in *.
  apply collect_matches_fuel; cbn; try assumption; lia.
Qed.

(** *** Sets of code units *)

Lemma set_has_char fl a ch :
  set_has fl (Ascii.eqb a) ch
  = Ascii.eqb (canonicalize fl a) (canonicalize fl ch).
Proof.
  unfold set_has, canonicalize. destruct (ignoreCase fl); [|reflexivity].
  apply eq_true_iff_eq. rewrite existsb_exists. split.
  - intros (a' & _ & H). apply andb_prop in H as [H1 H2].
    apply Ascii.eqb_eq in H1. now subst a'.
  - intros H. exists a. split; [apply all_chars_complete|].
    now rewrite Ascii.eqb_refl.
Qed.

(** The class [\w] has no member outside itself that differs from one of
    its members by case only. *)
Lemma word_class fl ch :
  set_has fl (class_mem [ClassEsc Esc_w]) ch = is_word_char ch.
Proof.
  unfold set_has. destruct (ignoreCase fl).
  - apply eqb_prop. revert ch. apply for_all_chars. vm_compute. reflexivity.
  - cbn. apply orb_false_r.
Qed.

Lemma set_has_plain fl A ch : ignoreCase fl = false -> set_has fl A ch = A ch.
Proof. intros H. unfold set_has. now rewrite H. Qed.

(** *** The fixed-width fragment *)

Lemma advance_0 x : advance 0 x = x.
Proof. now destruct x. Qed.

Lemma advance_add n m x : advance m (advance n x) = advance (n + m) x.
Proof.
  destruct x as [p r caps]. unfold advance. cbn. f_equal.
  - rewrite app_assoc, <- rev_app_distr. now rewrite take_take_drop.
  - now rewrite drop_drop.
Qed.

Lemma clear_captures_nil x : clear_captures [] x = x.
Proof. now destruct x. Qed.

Lemma width_no_groups r n : width r = Some n -> groups_in r = [].
Proof.
  revert n. induction r; intros n H; cbn in *;
    try reflexivity; try discriminate.
  - destruct (width r1), (width r2); try discriminate.
    erewrite IHr1, IHr2; eauto.
  - destruct (width r1), (width r2); try discriminate.
    erewrite IHr1, IHr2; eauto.
  - destruct max; [|discriminate]. destruct (width r); [|discriminate]. eauto.
Qed.

Lemma char_set_step fl A inv p r caps k :
  char_set_matcher fl A inv {| prev := p; rest := r; captures := caps |} k =
  match r with
  | [] => None
  | ch :: r' =>
      if accepts_char fl A inv ch
      then k {| prev := ch :: p; rest := r'; captures := caps |} else None
  end.
Proof.
  unfold char_set_matcher, accepts_char. cbn. destruct r; [reflexivity|].
  now destruct (Bool.eqb _ _).
Qed.

Lemma char_set_prefix fl A invert x c :
  char_set_matcher fl A invert x c =
  if (1 <=? List.length (rest x))%nat
     && accepts_one fl A invert (take 1 (rest x))
  then c (advance 1 x) else None.
Proof.
  destruct x as [p r caps]. rewrite char_set_step.
  destruct r as [|ch r]; [reflexivity|]. cbn. now rewrite take_0.
Qed.

Lemma repeat_exact fl a w g c :
  (forall x c, compile fl a x c = prefix_test fl a w x c) ->
  forall n fuel x,
    n < fuel ->
    repeat_matcher (compile fl a) [] fuel n (Some n) g x c =
    if (n * w <=? List.length (rest x))%nat
       && chunks_all (accepts fl a) w n (take (n * w) (rest x))
    then c (advance (n * w) x) else None.
Proof.
  intros Ha n. induction n as [|n IH]; intros fuel x Hf.
  - destruct fuel; [lia|]. cbn. now rewrite advance_0.
  - destruct fuel as [|fuel]; [lia|].
    cbn [repeat_matcher Nat.eqb negb andb pred].
    rewrite clear_captures_nil, Ha. unfold prefix_test.
    cbn [fmap option_fmap option_map].
    destruct (w <=? List.length (rest x))%nat eqn:Hw.
    2:{ cbn. apply Nat.leb_gt in Hw.
        replace (w + n * w <=? List.length (rest x))%nat with false;
          [reflexivity|].
        symmetry. apply Nat.leb_gt. lia. }
    apply Nat.leb_le in Hw. cbn [andb chunks_all].
    rewrite take_take, Nat.min_l by lia.
    destruct (accepts fl a (take w (rest x))); cbn [andb].
    2:{ now rewrite andb_false_r. }
    rewrite IH by lia. rewrite advance_add.
    cbn [advance rest]. rewrite length_drop.
    replace (n * w <=? List.length (rest x) - w)%nat
      with (w + n * w <=? List.length (rest x))%nat
      by (apply eq_true_iff_eq; rewrite !Nat.leb_le; lia).
    rewrite take_drop_commute. reflexivity.
Qed.

(** On the fixed-width fragment the matcher tests the next code units and
    goes on from behind them. *)
Theorem compile_fixed fl r n :
  width r = Some n ->
  forall x c, compile fl r x c = prefix_test fl r n x c.
Proof.
  revert n. induction r as [ |a| |inv items|a IHa b IHb|a IHa b IHb
                            |a IHa min max g|i a IHa|neg a IHa|i| | | | ];
    intros n Hn x c; cbn in Hn; try discriminate.
  - injection Hn as <-. unfold prefix_test. cbn. now rewrite advance_0.
  - injection Hn as <-. apply char_set_prefix.
  - injection Hn as <-. apply char_set_prefix.
  - injection Hn as <-. apply char_set_prefix.
  - destruct (width a) as [na|] eqn:Ea; [|discriminate].
    destruct (width b) as [nb|] eqn:Eb; [|discriminate].
    injection Hn as <-. cbn [compile]. rewrite (IHa na eq_refl).
    unfold prefix_test. cbn [accepts]. rewrite Ea.
    cbn [default from_option id].
    destruct (na <=? List.length (rest x))%nat eqn:Hna.
    2:{ cbn. apply Nat.leb_gt in Hna.
        replace (na + nb <=? List.length (rest x))%nat with false;
          [reflexivity|].
        symmetry. apply Nat.leb_gt. lia. }
    apply Nat.leb_le in Hna. cbn [andb].
    rewrite take_take, Nat.min_l by lia.
    destruct (accepts fl a (take na (rest x))); cbn [andb].
    2:{ now rewrite andb_false_r. }
    rewrite (IHb nb eq_refl). unfold prefix_test.
    rewrite advance_add. cbn [advance rest]. rewrite length_drop.
    replace (nb <=? List.length (rest x) - na)%nat
      with (na + nb <=? List.length (rest x))%nat
      by (apply eq_true_iff_eq; rewrite !Nat.leb_le; lia).
    rewrite take_drop_commute. reflexivity.
  - destruct (width a) as [na|] eqn:Ea; [|discriminate].
    destruct (width b) as [nb|] eqn:Eb; [|discriminate].
    destruct (na =? nb)%nat eqn:E; [|discriminate].
    apply Nat.eqb_eq in E. subst nb.
    injection Hn as <-. cbn [compile].
    rewrite (IHa na eq_refl), (IHb na eq_refl). unfold prefix_test.
    cbn [accepts].
    destruct (na <=? _)%nat; cbn [andb]; [|reflexivity].
    destruct (accepts fl a _), (accepts fl b _); cbn [orb];
      destruct (c (advance na x)); reflexivity.
  - destruct max as [m|]; [|discriminate].
    destruct (width a) as [w|] eqn:Ea; [|discriminate].
    destruct (min =? m)%nat eqn:E; [|discriminate].
    apply Nat.eqb_eq in E. subst m.
    injection Hn as <-. unfold prefix_test. cbn [compile accepts].
    rewrite Ea. cbn [default from_option id].
    rewrite (width_no_groups a w Ea).
    apply repeat_exact; [apply IHa; reflexivity | lia].
Qed.

Lemma consumed_advance n x :
  n <= List.length (rest x) -> consumed x (advance n x) = take n (rest x).
Proof.
  intros Hn. unfold consumed, end_index, advance. cbn.
  rewrite length_app, length_rev, length_take, Nat.min_l by lia.
  replace (n + List.length (prev x) - List.length (prev x))
    with (List.length (rev (take n (rest x))))
    by (rewrite length_rev, length_take; lia).
  rewrite take_app_length. apply rev_involutive.
Qed.

(** A group around a fixed-width pattern captures the code units it
    tested. *)
Lemma compile_group_fixed fl i a n :
  width a = Some n ->
  forall x c,
    compile fl (NGroup i a) x c =
    if (n <=? List.length (rest x))%nat && accepts fl a (take n (rest x))
    then c {| prev := prev (advance n x); rest := rest (advance n x);
              captures := set_capture i (Some (take n (rest x)))
                                      (captures x) |}
    else None.
Proof.
  intros Hn x c. cbn [compile]. rewrite (compile_fixed fl a n Hn).
  unfold prefix_test.
  destruct (n <=? List.length (rest x))%nat eqn:E; [|reflexivity].
  apply Nat.leb_le in E. cbn [andb].
  destruct (accepts fl a (take n (rest x))); [|reflexivity].
  now rewrite consumed_advance.
Qed.

(** *** A greedy run up to the end of the input *)

Lemma repeat_to_end (m : matcher) (acc : ascii -> bool) c :
  (forall p r caps k,
      m {| prev := p; rest := r; captures := caps |} k =
      match r with
      | [] => None
      | ch :: r' =>
          if acc ch then k {| prev := ch :: p; rest := r'; captures := caps |}
          else None
      end) ->
  (forall y, rest y <> [] -> c y = None) ->
  forall r p caps fuel min,
    min + List.length r < fuel ->
    repeat_matcher m [] fuel min None true
      {| prev := p; rest := r; captures := caps |} c =
    if (min <=? List.length r)%nat && forallb acc r
    then c {| prev := rev r ++ p; rest := []; captures := caps |} else None.
Proof.
  intros Hm Hc r. induction r as [|ch r IH]; intros p caps fuel min Hf;
    (destruct fuel as [|fuel]; [lia|]);
    destruct min as [|min];
    cbn [repeat_matcher fmap option_fmap option_map Nat.eqb negb andb pred];
    rewrite clear_captures_nil, Hm; try reflexivity.
  - cbn [forallb Nat.leb andb]. destruct (acc ch).
    + unfold end_index. cbn [prev List.length].
      replace (S (List.length p) =? List.length p)%nat with false
        by (symmetry; apply Nat.eqb_neq; lia).
      cbn [List.length] in Hf. rewrite IH by lia.
      cbn [rev Nat.leb andb]. rewrite <- app_assoc. cbn [app].
      destruct (forallb acc r); [|apply Hc; discriminate].
      match goal with |- match ?o with _ => _ end = _ => destruct o end;
        [reflexivity | apply Hc; discriminate].
    + apply Hc. discriminate.
  - cbn [forallb List.length]. destruct (acc ch); [|now rewrite andb_false_r].
    cbn [List.length] in Hf. rewrite IH by lia.
    cbn [rev andb]. rewrite <- app_assoc. reflexivity.
Qed.

Lemma end_continuation fl (f : state -> state) y :
  rest (f y) = rest y -> rest y <> [] -> multiline fl = false ->
  (if at_line_end fl (f y) then Some (f y) else None) = None.
Proof.
  intros Hr Hy Hm. unfold at_line_end. rewrite Hr.
  destruct (rest y); [contradiction|]. now rewrite Hm.
Qed.

Lemma consumed_to_end p r caps caps' :
  consumed {| prev := p; rest := r; captures := caps |}
           {| prev := rev r ++ p; rest := []; captures := caps' |} = r.
Proof.
  unfold consumed, end_index. cbn [prev].
  rewrite length_app, length_rev, Nat.add_sub.
  rewrite <- (length_rev r), take_app_length. apply rev_involutive.
Qed.

Lemma succeeds_if (b : bool) (o : option state) :
  succeeds (if b then o else None) = b && succeeds o.
Proof. now destruct b. Qed.

(** One step of a matcher applied to a state: a sequence, a group around a
    fixed-width pattern, an assertion, or a fixed-width pattern. *)
Ltac step_matcher :=
  lazymatch goal with
  | |- context [compile ?fl (NSeq ?a ?b) ?x ?c] =>
      change (compile fl (NSeq a b) x c)
        with (compile fl a x (fun y => compile fl b y c))
  | |- context [compile ?fl (NGroup ?i ?a) ?x ?c] =>
      let w := eval cbv in (width a) in
      lazymatch w with
      | Some ?n => rewrite (compile_group_fixed fl i a n eq_refl x c)
      end
  | |- context [compile ?fl NBegin ?x ?c] =>
      change (compile fl NBegin x c)
        with (if at_line_start fl x then c x else None)
  | |- context [compile ?fl NEnd ?x ?c] =>
      change (compile fl NEnd x c)
        with (if at_line_end fl x then c x else None)
  | |- context [compile ?fl NEmpty ?x ?c] =>
      change (compile fl NEmpty x c) with (c x)
  | |- context [compile ?fl ?r ?x ?c] =>
      let w := eval cbv in (width r) in
      lazymatch w with
      | Some ?n =>
          rewrite (compile_fixed fl r n eq_refl x c); unfold prefix_test
      end
  end; cbv beta.

Ltac head_atom b :=
  lazymatch b with
  | ?x && _ => head_atom x
  | ?x || _ => head_atom x
  | negb ?x => head_atom x
  | _ => b
  end.

(** Case analysis on the first test a conditional depends on. *)
Ltac split_atom :=
  match goal with
  | |- context [if ?b then _ else _] =>
      let a := head_atom b in destruct a; cbn
  end.

(** The tests of a pattern without the [i] flag, in terms of the code
    units. *)
Ltac plain_tests :=
  unfold accepts_char;
  rewrite ?set_has_char, ?set_has_plain by reflexivity;
  unfold canonicalize; cbn;
  rewrite ?eqb_false_r, ?negb_involutive, ?orb_false_r, ?andb_true_r.

(** ** The date pattern *)

Lemma month_alternatives a b :
  (Ascii.eqb "0" a && between "1" "9" b)
  || (Ascii.eqb "1" a && between "0" "2" b)
  = spec.two_digits_within 1 12 a b.
Proof.
  apply eqb_prop. revert a b. apply for_all_chars2. vm_compute. reflexivity.
Qed.

Lemma day_alternatives a b :
  (Ascii.eqb "0" a && between "1" "9" b)
  || ((between "1" "1" a || between "2" "2" a) && is_digit b)
  || (Ascii.eqb "3" a && (between "0" "0" b || between "1" "1" b))
  = spec.two_digits_within 1 31 a b.
Proof.
  apply eqb_prop. revert a b. apply for_all_chars2. vm_compute. reflexivity.
Qed.

(** [patterns.date] matches exactly the texts [YYYY-MM-DD] with a month in
    01..12 and a day in 01..31, whatever the month. *)
Lemma date_pattern_matches (s : string) :
  fst (test validators.patterns.date s) = spec.is_iso_date (chars s).
Proof.
  rewrite (test_anchored validators.patterns.date s _ eq_refl eq_refl eq_refl).
  unfold anchored_run. generalize (chars s) as cs. intros cs.
  unfold validators.patterns.date.
  cbn [regexp.pattern flags_of group_count replicate].
  repeat step_matcher. rewrite !succeeds_if.
  do 10 (destruct cs as [|? cs]; [cbn; rewrite ?andb_false_r; reflexivity|]).
  destruct cs; cbn; rewrite ?andb_false_r; [|reflexivity].
  plain_tests. rewrite <- month_alternatives, <- day_alternatives.
  rewrite !andb_assoc, !orb_assoc. reflexivity.
Qed.

Lemma iso_date_is_trimmed (cs : list ascii) :
  spec.is_iso_date cs = true -> trim_end (trim_start cs) = cs.
Proof.
  do 10 (destruct cs as [|? cs]; [discriminate|]).
  destruct cs; [|discriminate]. cbn [spec.is_iso_date].
  rewrite !andb_true_iff. intros [[[[[[[H1 _] _] _] _] _] _] H2].
  unfold spec.two_digits_within, spec.two_digit_value in H2.
  destruct (is_digit a7 && is_digit a8) eqn:E; [|discriminate].
  apply andb_prop in E as [_ E].
  unfold trim_start, trim_end.
  rewrite drop_while_head by now apply digit_not_space.
  cbn [rev app]. rewrite drop_while_head by now apply digit_not_space.
  reflexivity.
Qed.

(** ** Title validation *)

(** C2: [validateTitle] accepts "Title  with  double", whose trimmed form
    has two adjacent spaces, although the comment on [patterns.title] lists
    that very string as rejected: the pattern only looks at the first and
    the last code unit. *)
Theorem validateTitle_accepts_double_space :
  validators.validateTitle (String_ "Title  with  double") = validators.ok
  /\ spec.has_double_space (chars (trim "Title  with  double")) = true.
Proof. split; vm_compute; reflexivity. Qed.

(** ** Highlighting *)

(** C3: with the pattern [x] compiled as the search does, [highlightMatches]
    wraps and escapes the match but copies the text around it as it is, so
    the markup of "<b>x" survives; [escapeHtml], used when no search is
    active, neutralises it. *)
Theorem highlightMatches_copies_unmatched_markup :
  exists R,
    validators.regex (validators.compileRegex (String_ "x") (Some "gi"))
      = Some R
    /\ fst (validators.highlightMatches "<b>x" (Some R)) = "<b><mark>x</mark>"
    /\ validators.escapeHtml "<b>x" = "&lt;b&gt;x".
Proof. eexists. repeat split; vm_compute; reflexivity. Qed.

(** ** Match extraction *)

Lemma findMatches_loop_stuck (R : RegExp) (text : string)
  (m : match_result) :
  exec R text = (Some m, R) ->
  forall fuel acc, validators.findMatches_loop fuel text R acc = None.
Proof.
  intros Hexec fuel. induction fuel as [|fuel IH]; intros acc.
  - reflexivity.
  - simpl. rewrite Hexec. apply IH.
Qed.

(** C4: for the pattern [x*], which matches the empty string, the loop of
    [findMatches] never ends on "abc": [exec] returns the empty match at
    index 0 and leaves [lastIndex] at 0, whatever the number of iterations
    allowed. *)
Theorem findMatches_never_returns_on_empty_match :
  exists R,
    validators.regex (validators.compileRegex (String_ "x*") None) = Some R
    /\ forall fuel, validators.findMatches fuel "abc" (Some R) = None.
Proof.
  eexists. split; [vm_compute; reflexivity|].
  intros fuel. unfold validators.findMatches.
  match goal with
  | |- context [RegExp_new ?s ?f] =>
      let r := eval vm_compute in (RegExp_new s f) in
      change (RegExp_new s f) with r
  end.
  cbn [String.eqb Ascii.eqb Bool.eqb].
  erewrite findMatches_loop_stuck; [reflexivity|].
  vm_compute. reflexivity.
Qed.

(** ** Safe compilation *)


(** ** Date validation *)

(** The second layer of [validateDate] is the [Date] constructor of the
    host and nothing else: a text that passes the pattern is accepted
    exactly when the host gives a valid date for it. *)
Lemma validateDate_second_layer (Date_time : string -> option Z)
  (s : string) :
  spec.is_iso_date (chars s) = true ->
  validators.validateDate Date_time (String_ s)
  = match Date_time (s ++ "T00:00:00Z")%string with
    | None => validators.fails "Invalid date"
    | Some _ => validators.ok
    end.
Proof.
  intros H. assert (Hs : s <> "") by (intros ->; discriminate H).
  unfold validators.validateDate.
  now rewrite truthy_string, date_pattern_matches, H by assumption.
Qed.

Lemma chars_append (a b : string) : chars (a ++ b) = chars a ++ chars b.
Proof.
  induction a as [|x a IH]; [reflexivity|].
  change (x :: chars (a ++ b) = x :: (chars a ++ chars b)). now rewrite IH.
Qed.

Lemma two_digits_value (a b : ascii) (n : N) :
  spec.two_digit_value a b = Some n ->
  spec.two_digits a b = Some (Z.of_N n).
Proof.
  unfold spec.two_digit_value, spec.two_digits.
  destruct (is_digit a && is_digit b); [|discriminate].
  now intros [= <-].
Qed.

Lemma two_digits_digits (a b : ascii) :
  is_digit a = true -> is_digit b = true ->
  exists n, spec.two_digits a b = Some n.
Proof.
  intros Ha Hb. unfold spec.two_digits. rewrite Ha, Hb. eauto.
Qed.

(** On the host that counts the days on, the constructor gives a time value
    for every text that passes the pattern. *)
Lemma rolling_time_iso_date (s : string) :
  spec.is_iso_date (chars s) = true ->
  spec.rolling_time (s ++ "T00:00:00Z") <> None.
Proof.
  intros H. unfold spec.rolling_time. rewrite chars_append.
  destruct (chars s)
    as [|y1 [|y2 [|y3 [|y4 [|a [|m1 [|m2 [|b [|d1 [|d2 [|x r]]]]]]]]]]];
    try discriminate H.
  cbn [spec.is_iso_date] in H.
  do 7 (apply andb_prop in H; destruct H as [H ?]).
  unfold spec.two_digits_within in *.
  destruct (spec.two_digit_value m1 m2) as [m|] eqn:Em; [|discriminate].
  destruct (spec.two_digit_value d1 d2) as [d|] eqn:Ed; [|discriminate].
  apply two_digits_value in Em, Ed.
  destruct (two_digits_digits y1 y2) as [yh Eh]; [assumption..|].
  destruct (two_digits_digits y3 y4) as [yl El]; [assumption..|].
  change (chars "T00:00:00Z")
    with ["T"; "0"; "0"; ":"; "0"; "0"; ":"; "0"; "0"; "Z"]%char.
  cbn [app].
  repeat match goal with
  | E : Ascii.eqb _ _ = true |- _ => apply Ascii.eqb_eq in E; subst
  end.
  rewrite Eh, El, Em, Ed.
  cbn [Ascii.eqb Bool.eqb andb].
  change (spec.two_digits "0" "0") with (Some 0%Z).
  cbv beta iota zeta.
  repeat match goal with
  | E : (_ && _)%bool = true |- _ => apply andb_prop in E; destruct E
  | E : (_ <=? _)%N = true |- _ => apply N.leb_le in E
  end.
  replace (1 <=? Z.of_N m)%Z with true by (symmetry; apply Z.leb_le; lia).
  replace (Z.of_N m <=? 12)%Z with true by (symmetry; apply Z.leb_le; lia).
  replace (1 <=? Z.of_N d)%Z with true by (symmetry; apply Z.leb_le; lia).
  replace (Z.of_N d <=? 31)%Z with true by (symmetry; apply Z.leb_le; lia).
  cbn [andb Z.leb Z.compare]. discriminate.
Qed.

(** C5: on a host whose [Date] constructor counts a day beyond the end of
    its month on into the next month, [validateDate] accepts "2025-09-29",
    rejects "2025-13-01" at the pattern, and accepts "2025-02-30": the
    pattern matches it, the constructor gives the time value of 2 March
    2025, and the calendar check does not fire; on such a host it fires
    for no value at all.  On a host whose constructor gives an invalid
    date for 30 February, the same text is rejected with the error of the
    calendar check. *)
Theorem validateDate_accepts_30_February :
  validators.validateDate spec.rolling_time (String_ "2025-09-29")
  = validators.ok
  /\ validators.validateDate spec.rolling_time (String_ "2025-13-01")
     = validators.fails "Date must be in YYYY-MM-DD format"
  /\ fst (test validators.patterns.date "2025-02-30") = true
  /\ spec.rolling_time "2025-02-30T00:00:00Z" = Some 1740873600000%Z
  /\ spec.rolling_time "2025-03-02T00:00:00Z" = Some 1740873600000%Z
  /\ validators.validateDate spec.rolling_time (String_ "2025-02-30")
     = validators.ok
  /\ (forall date : value,
         validators.validateDate spec.rolling_time date
         <> validators.fails "Invalid date")
  /\ validators.validateDate spec.calendar_time (String_ "2025-02-30")
     = validators.fails "Invalid date".
Proof.
  assert (Hfeb : spec.is_iso_date (chars "2025-02-30") = true)
    by (vm_compute; reflexivity).
  assert (Hsep : spec.is_iso_date (chars "2025-09-29") = true)
    by (vm_compute; reflexivity).
  assert (Hroll : spec.rolling_time "2025-02-30T00:00:00Z"
                  = Some 1740873600000%Z) by (vm_compute; reflexivity).
  repeat apply conj.
  - rewrite (validateDate_second_layer _ _ Hsep).
    change ("2025-09-29" ++ "T00:00:00Z")%string with "2025-09-29T00:00:00Z".
    now replace (spec.rolling_time "2025-09-29T00:00:00Z")
      with (Some 1759104000000%Z) by (vm_compute; reflexivity).
  - unfold validators.validateDate. cbn [truthy String.eqb Ascii.eqb Bool.eqb].
    now replace (fst (test validators.patterns.date "2025-13-01"))
      with false by (vm_compute; reflexivity).
  - now rewrite date_pattern_matches.
  - exact Hroll.
  - vm_compute. reflexivity.
  - rewrite (validateDate_second_layer _ _ Hfeb).
    change ("2025-02-30" ++ "T00:00:00Z")%string with "2025-02-30T00:00:00Z".
    now rewrite Hroll.
  - intros date. destruct date as [| |b|n|s|]; try discriminate.
    unfold validators.validateDate.
    destruct (negb (truthy (String_ s))); [discriminate|].
    rewrite date_pattern_matches.
    destruct (spec.is_iso_date (chars s)) eqn:E; cbn [negb]; [|discriminate].
    pose proof (rolling_time_iso_date s E) as H.
    destruct (spec.rolling_time (s ++ "T00:00:00Z"));
      [discriminate | congruence].
  - rewrite (validateDate_second_layer _ _ Hfeb).
    change ("2025-02-30" ++ "T00:00:00Z")%string with "2025-02-30T00:00:00Z".
    now replace (spec.calendar_time "2025-02-30T00:00:00Z")
      with (@None Z) by (vm_compute; reflexivity).
Qed.


(** ** Surrounding white space *)

(** C10: a title, tag or duration whose trimmed form is not empty is judged
    as its trimmed form is, since the validator trims before it checks;
    [validateDate] does not trim, and rejects at its pattern every text
    that white space surrounds. *)
Theorem validators_and_surrounding_space
  (s : string) (Date_time : string -> option Z) :
  (trim s <> "" ->
   validators.validateTitle (String_ s)
     = validators.validateTitle (String_ (trim s))
   /\ validators.validateTag (String_ s)
      = validators.validateTag (String_ (trim s))
   /\ validators.validateDuration (String_ s)
      = validators.validateDuration (String_ (trim s)))
  /\ (trim s <> s ->
      validators.validateDate Date_time (String_ s)
      = validators.fails "Date must be in YYYY-MM-DD format").
Proof.
  split.
  - intros Ht. pose proof (trim_nonempty s Ht) as Hs.
    unfold validators.validateTitle, validators.validateTag,
      validators.validateDuration.
    rewrite !truthy_string, !trim_idempotent by assumption.
    repeat split.
  - intros Hne. assert (Hs : s <> "") by (intros ->; now apply Hne).
    unfold validators.validateDate.
    rewrite truthy_string by assumption. cbn [negb].
    rewrite date_pattern_matches.
    destruct (spec.is_iso_date (chars s)) eqn:E; [|reflexivity].
    exfalso. apply Hne. unfold trim.
    rewrite (iso_date_is_trimmed _ E). apply string_of_list_ascii_of_string.
Qed.

Lemma validators_and_surrounding_space_witness :
  (validators.validateTitle (String_ " 2025-09-29 ")
     = validators.validateTitle (String_ (trim " 2025-09-29 "))
   /\ validators.validateTag (String_ " 2025-09-29 ")
      = validators.validateTag (String_ (trim " 2025-09-29 "))
   /\ validators.validateDuration (String_ " 2025-09-29 ")
      = validators.validateDuration (String_ (trim " 2025-09-29 ")))
  /\ validators.validateDate spec.calendar_time (String_ " 2025-09-29 ")
     = validators.fails "Date must be in YYYY-MM-DD format".
Proof.
  destruct (validators_and_surrounding_space " 2025-09-29 "
              spec.calendar_time) as [H1 H2].
  split.
  - apply H1. vm_compute. discriminate.
  - apply H2. vm_compute. discriminate.
Defined.

(** ** Searching *)

Import search.

Lemma new_array_spec (ts : list Task) (h : heap) :
  let '(l, h') := new_array ts h in
  h !! l = None /\ h' !! l = Some ts /\ h ⊆ h'.
Proof.
  unfold new_array. set (l := fresh (dom h)).
  assert (Hl : h !! l = None) by (apply not_elem_of_dom, is_fresh).
  split; [exact Hl|]. split.
  - apply lookup_insert_eq.
  - now apply insert_subseteq.
Qed.

Lemma array_filter_sublist {A S} (p : A -> S -> bool * S) (l : list A)
  (s : S) :
  sublist (fst (array_filter p l s)) l.
Proof.
  revert s. induction l as [|a l IH]; intros s; simpl.
  - constructor.
  - destruct (p a s) as [b s']. specialize (IH s').
    destruct (array_filter p l s') as [kept s'']. simpl in *.
    destruct b; now constructor.
Qed.

Lemma filter_sublist {A} (f : A -> bool) (l : list A) :
  sublist (List.filter f l) l.
Proof.
  induction l as [|a l IH]; simpl.
  - constructor.
  - destruct (f a); now constructor.
Qed.

Lemma new_array_view (h : heap) (l : loc) (kept : list Task) :
  sublist kept (default [] (h !! l)) ->
  let '(r, h') := new_array kept h in h ⊆ h' /\ spec.new_view h h' l r.
Proof.
  intros Hsub. pose proof (new_array_spec kept h) as H.
  unfold new_array in *. destruct H as (Hnone & _ & Hsub').
  split; [exact Hsub'|]. split; [exact Hnone|]. now exists kept.
Qed.

Lemma searchTasks_frame (h : heap) (tasks : loc) (regex : option RegExp)
  (fields : list field) :
  let '(r, h') := searchTasks tasks regex fields h in
  h ⊆ h'
  /\ match regex with
     | None => spec.same_array h h' tasks (fst r)
     | Some _ => spec.new_view h h' tasks (fst r)
     end.
Proof.
  destruct regex as [R|]; simpl; [|now repeat split].
  unfold bind, elements, ret.
  pose proof (array_filter_sublist (task_matches fields)
                (default [] (h !! tasks)) R) as Hsub.
  destruct (array_filter (task_matches fields) (default [] (h !! tasks)) R)
    as [kept R'].
  pose proof (new_array_view h tasks kept Hsub) as H.
  destruct (new_array kept h) as [l h']. exact H.
Qed.

Lemma applyCommand_frame (h : heap) (tasks : loc) (command : option string)
  (pattern : value) :
  let '(r, h') := applyCommand tasks command pattern h in
  h ⊆ h'
  /\ if spec.filters_by command then spec.new_view h h' tasks r
     else spec.same_array h h' tasks r.
Proof.
  unfold applyCommand, spec.filters_by.
  destruct command as [c|]; [|now repeat split].
  destruct (String.eqb c "tag"); [|destruct (String.eqb c "date")];
    cbn [orb]; [| |now repeat split];
    unfold bind, elements; apply new_array_view, filter_sublist.
Qed.

Lemma parseQuery_string (q : string) :
  exists r, parseQuery (String_ q) = Normal r
            /\ (command r = None -> q <> "" -> pattern r = String_ q)
            /\ (forall c, command r = Some c -> c = "tag" \/ c = "date").
Proof.
  unfold parseQuery. cbn [truthy].
  destruct (String.eqb q "") eqn:Hq; cbn [negb].
  - eexists. split; [reflexivity|]. split; [|discriminate].
    intros _ Hne. apply String.eqb_eq in Hq. contradiction.
  - destruct (fst (string_match q tag_command)).
    + eexists. split; [reflexivity|]. split; [discriminate|].
      intros c [= <-]. now left.
    + destruct (fst (string_match q date_command)).
      * eexists. split; [reflexivity|]. split; [discriminate|].
        intros c [= <-]. now right.
      * eexists. split; [reflexivity|]. split; [reflexivity|discriminate].
Qed.

Lemma performSearch_frame (h : heap) (tasks : loc) (query : value)
  (cs : bool) :
  let '(r, h') := performSearch tasks query cs h in
  h ⊆ h'
  /\ match r with
     | Normal r =>
         if truthy query then spec.new_view h h' tasks (search.tasks r)
         else spec.same_array h h' tasks (search.tasks r)
     | Throw _ => h' = h /\ truthy query = true /\ is_string query = false
     end.
Proof.
  unfold performSearch.
  destruct (truthy query) eqn:Hq; cbn [negb]; [|now repeat split].
  destruct query as [| |b|n|q|];
    try (unfold parseQuery; rewrite Hq; now repeat split).
  destruct (parseQuery_string q) as (r & -> & _ & Hc).
  destruct r as [command pattern]. cbn [search.command] in Hc.
  destruct command as [c|]; cbn [truthy].
  - assert (Hf : spec.filters_by (Some c) = true).
    { destruct (Hc c eq_refl) as [-> | ->]; reflexivity. }
    assert (Hne : negb (String.eqb c "") = true).
    { destruct (Hc c eq_refl) as [-> | ->]; reflexivity. }
    rewrite Hne. unfold bind, ret.
    pose proof (applyCommand_frame h tasks (Some c) pattern) as H.
    rewrite Hf in H.
    destruct (applyCommand tasks (Some c) pattern h). exact H.
  - destruct (validators.compileRegex _ _) as [[R|] e].
    + unfold bind, ret.
      pose proof (searchTasks_frame h tasks (Some R) default_fields) as H.
      destruct (searchTasks tasks (Some R) default_fields h) as [[l R'] h'].
      exact H.
    + unfold bind, ret.
      pose proof (new_array_view h tasks [] (sublist_nil_l _)) as H.
      destruct (new_array [] h). exact H.
Qed.

(** ** The two commands *)

Lemma tag_command_run (q : string) :
  anchored_run tag_command q =
  match spec.tag_argument (chars q) with
  | Some w =>
      Some {| prev := rev (chars q); rest := []; captures := [Some w] |}
  | None => None
  end.
Proof.
  unfold anchored_run, spec.tag_argument.
  generalize (chars q) as cs. intros cs.
  unfold tag_command. cbn [regexp.pattern flags_of group_count replicate].
  repeat step_matcher. cbn [compile groups_in].
  do 5 (destruct cs as [|? cs];
        [cbn; repeat (match goal with
                      | |- context [if ?b then _ else _] => destruct b
                      end); reflexivity|]).
  unfold advance, accepts_char.
  cbn -[repeat_matcher consumed at_line_end].
  rewrite ?take_0, ?drop_0. cbn -[repeat_matcher consumed at_line_end].
  unfold accepts_char at 1 2 3 4 5.
  rewrite !set_has_char, !eqb_false_r, !negb_involutive.
  unfold canonicalize, spec.same_ignoring_case. cbn [ignoreCase].
  repeat (match goal with
          | |- context [if (to_upper ?a =? to_upper ?b)%char
                        then _ else _] =>
              destruct (to_upper a =? to_upper b)%char; [|reflexivity]
          end).
  rewrite (repeat_to_end _ _ _ (char_set_step _ _ _)); cycle 1.
  { intros y Hy.
    apply (end_continuation _ (fun y => {| prev := prev y; rest := rest y;
                                           captures := _ |})); auto. }
  { lia. }
  rewrite (forallb_pointwise _ is_word_char).
  2:{ intros ch. unfold accepts_char.
      rewrite word_class, eqb_false_r. apply negb_involutive. }
  change (1 <=? List.length cs)%nat
    with (match List.length cs with 0 => false | S _ => true end).
  destruct (_ && _); [|reflexivity].
  cbn [at_line_end rest prev captures]. rewrite consumed_to_end.
  cbn. now rewrite <- !app_assoc.
Qed.

Lemma date_command_run (q : string) :
  anchored_run date_command q =
  match spec.date_argument (chars q) with
  | Some d =>
      Some {| prev := rev (chars q); rest := []; captures := [Some d] |}
  | None => None
  end.
Proof.
  unfold anchored_run, spec.date_argument.
  generalize (chars q) as cs. intros cs.
  unfold date_command. cbn [regexp.pattern flags_of group_count replicate].
  repeat step_matcher.
  do 16 (destruct cs as [|? cs];
         [cbn; plain_tests; repeat split_atom; reflexivity|]).
  unfold advance. cbn -[consumed at_line_end].
  rewrite ?take_0, ?drop_0. cbn -[consumed at_line_end]. plain_tests.
  destruct cs; cbn; repeat split_atom; reflexivity.
Qed.

(** What [String.prototype.match] returns for the two command
    expressions. *)
Lemma match_tag_command (q : string) :
  fst (string_match q tag_command) =
  match spec.tag_argument (chars q) with
  | Some w => Some {| index := 0; matched := q; groups := [Some (str w)] |}
  | None => None
  end.
Proof.
  unfold string_match.
  rewrite (exec_anchored tag_command q _ eq_refl eq_refl eq_refl).
  rewrite tag_command_run.
  destruct (spec.tag_argument (chars q)); [|reflexivity].
  cbn. now rewrite rev_involutive, string_of_list_ascii_of_string.
Qed.

Lemma match_date_command (q : string) :
  fst (string_match q date_command) =
  match spec.date_argument (chars q) with
  | Some d => Some {| index := 0; matched := q; groups := [Some (str d)] |}
  | None => None
  end.
Proof.
  unfold string_match.
  rewrite (exec_anchored date_command q _ eq_refl eq_refl eq_refl).
  rewrite date_command_run.
  destruct (spec.date_argument (chars q)); [|reflexivity].
  cbn. now rewrite rev_involutive, string_of_list_ascii_of_string.
Qed.

(** C7: [parseQuery] returns for every string, and what it returns is the
    classification of the specification: the empty query first, then the
    tag command, then the date command, and the raw text as a free pattern
    otherwise.  An absent query is treated as the empty one;
    "@tag:Academic" is a command, and with a trailing space it is a free
    pattern. *)
Theorem parseQuery_classifies :
  (forall q : string, parseQuery (String_ q) = Normal (spec.classify q))
  /\ parseQuery Undefined
     = Normal {| command := None; pattern := String_ "" |}
  /\ parseQuery Null = Normal {| command := None; pattern := String_ "" |}
  /\ parseQuery (String_ "@tag:Academic")
     = Normal {| command := Some "tag"; pattern := String_ "Academic" |}
  /\ parseQuery (String_ "@tag:Academic ")
     = Normal {| command := None; pattern := String_ "@tag:Academic " |}
  /\ parseQuery (String_ "@date:2025-09-29")
     = Normal {| command := Some "date"; pattern := String_ "2025-09-29" |}.
Proof.
  split; [|repeat split; vm_compute; reflexivity].
  intros q. unfold parseQuery, spec.classify. cbn [truthy].
  destruct (String.eqb q ""); cbn [negb]; [reflexivity|].
  rewrite match_tag_command.
  destruct (spec.tag_argument (chars q)); [reflexivity|].
  rewrite match_date_command.
  now destruct (spec.date_argument (chars q)).
Qed.

(** C9, as stated: with the empty query [performSearch] hands back the very
    array it received, not a new one. *)
Lemma performSearch_empty_query_returns_received_array :
  ~ spec.returns_new_view (spec.store_of [spec.exam1]) 0 "" false.
Proof.
  unfold spec.returns_new_view. vm_compute. intros [_ H]. discriminate H.
Qed.

(** C9, amended: [searchTasks], [applyCommand] and [performSearch] leave
    every array of the store as it was, the received one included.  What
    they return is the received array itself exactly where the code has
    [return tasks]: no regular expression, a command other than [tag] and
    [date], an empty or absent query.  In every other case it is a newly
    created array, the only one the call adds to the store, whose elements
    are elements of the received one in the same order.  For a query that
    is a string [performSearch] does not throw. *)
Theorem search_leaves_the_store :
  (forall (h : heap) (tasks : loc) (regex : option RegExp)
          (fields : list field),
      let '(r, h') := searchTasks tasks regex fields h in
      h ⊆ h'
      /\ match regex with
         | None => spec.same_array h h' tasks (fst r)
         | Some _ => spec.new_view h h' tasks (fst r)
         end)
  /\ (forall (h : heap) (tasks : loc) (command : option string)
             (pattern : value),
         let '(r, h') := applyCommand tasks command pattern h in
         h ⊆ h'
         /\ if spec.filters_by command then spec.new_view h h' tasks r
            else spec.same_array h h' tasks r)
  /\ (forall (h : heap) (tasks : loc) (query : value) (caseSensitive : bool),
         let '(r, h') := performSearch tasks query caseSensitive h in
         h ⊆ h'
         /\ match r with
            | Normal r =>
                if truthy query
                then spec.new_view h h' tasks (search.tasks r)
                else spec.same_array h h' tasks (search.tasks r)
            | Throw _ =>
                h' = h /\ truthy query = true /\ is_string query = false
            end).
Proof.
  split; [|split].
  - apply searchTasks_frame.
  - apply applyCommand_frame.
  - apply performSearch_frame.
Qed.

(** C1: the expression compiled for a free pattern carries the [g] flag, so
    [test] resumes at the [lastIndex] the previous success left.  With two
    tasks titled "exam" and the query "exam", the title of the second is
    tested from index 4 on and fails: the result holds the first task only,
    although the compiled pattern matches the title of the second. *)
Theorem performSearch_misses_a_matching_task :
  exists R l h',
    validators.compileRegex (String_ "exam") (Some "gi")
      = {| validators.regex := Some R; validators.compile_error := "" |}
    /\ parseQuery (String_ "exam")
       = Normal {| command := None; pattern := String_ "exam" |}
    /\ fst (test R (title spec.exam2)) = true
    /\ performSearch 0 (String_ "exam") false
         (spec.store_of [spec.exam1; spec.exam2])
       = (Normal {| tasks := l; error := "" |}, h')
    /\ h' !! l = Some [spec.exam1].
Proof. do 3 eexists. repeat split; vm_compute; reflexivity. Qed.

(** C8: the empty query gives back the received tasks and no error; a free
    pattern that does not compile gives a new empty array and the message
    of [compileRegex], which is not empty; in both cases the call
    returns. *)
Theorem performSearch_empty_query_and_bad_pattern :
  (forall (h : heap) (tasks : loc) (caseSensitive : bool),
      performSearch tasks (String_ "") caseSensitive h
      = (Normal {| tasks := tasks; error := "" |}, h))
  /\ (forall (h : heap) (tasks : loc) (q : string) (caseSensitive : bool)
             (p : value) (e : string),
         q <> "" ->
         parseQuery (String_ q)
           = Normal {| command := None; pattern := p |} ->
         validators.compileRegex p
             (Some (if caseSensitive then "g" else "gi"))
           = {| validators.regex := None; validators.compile_error := e |} ->
         exists l h',
           performSearch tasks (String_ q) caseSensitive h
             = (Normal {| tasks := l; error := e |}, h')
           /\ h' !! l = Some []
           /\ h ⊆ h'
           /\ e <> "").
Proof.
  split; [reflexivity|].
  intros h tasks q cs p e Hq Hparse Hcompile.
  unfold performSearch. cbn [truthy].
  destruct (String.eqb q "") eqn:E; [apply String.eqb_eq in E; contradiction|].
  cbn [negb]. rewrite Hparse. cbn [truthy]. rewrite Hcompile.
  unfold bind, ret.
  pose proof (new_array_spec [] h) as H.
  destruct (new_array [] h) as [l h']. destruct H as (_ & Hsome & Hsub).
  exists l, h'. repeat split; auto.
  destruct (parseQuery_string q) as (r & Hr & Hfree & _).
  rewrite Hparse in Hr. injection Hr as <-. cbn in Hfree.
  rewrite (Hfree eq_refl Hq) in Hcompile.
  unfold validators.compileRegex in Hcompile. cbn [truthy] in Hcompile.
  rewrite E in Hcompile. cbn [negb] in Hcompile.
  destruct (RegExp_new q _); [discriminate|].
  injection Hcompile as <-. cbn. discriminate.
Qed.

Lemma performSearch_empty_query_and_bad_pattern_witness :
  let e := validators.compile_error
             (validators.compileRegex (String_ "[") (Some "gi")) in
  exists l h',
    performSearch 0 (String_ "[") false (spec.store_of [spec.exam1])
      = (Normal {| tasks := l; error := e |}, h')
    /\ h' !! l = Some []
    /\ spec.store_of [spec.exam1] ⊆ h'
    /\ e <> "".
Proof.
  apply (proj2 performSearch_empty_query_and_bad_pattern
           (spec.store_of [spec.exam1]) 0 "[" false (String_ "[")).
  - discriminate.
  - vm_compute. reflexivity.
  - vm_compute. reflexivity.
Defined.

(** * Further properties

    The rest of the validators, of the search module and of the code
    around them. *)

Import runs shapes.

#[local] Arguments is_letter : simpl never.
#[local] Arguments is_separator : simpl never.
#[local] Arguments end_index : simpl never.

(** ** Greedy runs *)

Lemma repeat_greedy_run (m : matcher) (acc : ascii -> bool) c :
  (forall p r caps k,
      m {| prev := p; rest := r; captures := caps |} k =
      match r with
      | [] => None
      | ch :: r' =>
          if acc ch then k {| prev := ch :: p; rest := r'; captures := caps |}
          else None
      end) ->
  forall r p caps fuel min,
    min + List.length r < fuel ->
    repeat_matcher m [] fuel min None true
      {| prev := p; rest := r; captures := caps |} c
    = greedy_run acc c min p r caps.
Proof.
  intros Hm r. induction r as [|ch r IH]; intros p caps fuel min Hf;
    (destruct fuel as [|fuel]; [lia|]);
    destruct min as [|min];
    cbn [repeat_matcher greedy_run fmap option_fmap option_map Nat.eqb negb
         andb pred];
    rewrite clear_captures_nil, Hm; try reflexivity.
  - destruct (acc ch); [|reflexivity].
    unfold end_index. cbn [prev List.length].
    replace (S (List.length p) =? List.length p)%nat with false
      by (symmetry; apply Nat.eqb_neq; lia).
    cbn [List.length] in Hf. rewrite IH by lia. reflexivity.
  - destruct (acc ch); [|reflexivity].
    cbn [List.length] in Hf. rewrite IH by lia.
    now destruct (greedy_run _ _ _ _ _ _).
Qed.

(** When the continuation fails wherever the run could still go on, the
    run is the longest one. *)
Lemma greedy_run_longest acc c :
  (forall p ch r caps, acc ch = true ->
     c {| prev := p; rest := ch :: r; captures := caps |} = None) ->
  forall r p caps min,
    greedy_run acc c min p r caps =
    if (min <=? List.length (take_while acc r))%nat
    then c {| prev := rev (take_while acc r) ++ p;
              rest := drop_while acc r; captures := caps |}
    else None.
Proof.
  intros Hc r. induction r as [|ch r IH]; intros p caps min;
    cbn [greedy_run take_while drop_while List.length rev app].
  - now destruct min.
  - destruct (acc ch) eqn:E.
    + rewrite IH. cbn [List.length rev]. rewrite <- app_assoc. cbn [app].
      destruct min as [|min]; cbn [pred Nat.leb Nat.eqb].
      * destruct (c _); [reflexivity|]. now apply Hc.
      * now destruct (_ <=? _)%nat; [destruct (c _)|].
    + cbn. now destruct min.
Qed.


Lemma compile_greedy fl a A inv min p r caps c :
  compile fl a = char_set_matcher fl A inv -> groups_in a = [] ->
  compile fl (NRepeat a min None true)
    {| prev := p; rest := r; captures := caps |} c
  = greedy_run (accepts_char fl A inv) c min p r caps.
Proof.
  intros Ha Hg. cbn [compile rest]. rewrite Ha, Hg.
  apply repeat_greedy_run; [|lia]. intros. apply char_set_step.
Qed.

Lemma repeat_unfold m gs fuel min max g x c :
  repeat_matcher m gs (S fuel) min max g x c =
  match max with
  | Some 0 => c x
  | _ =>
      let d : continuation := fun y =>
        if (min =? 0)%nat && (end_index y =? end_index x)%nat then None
        else repeat_matcher m gs fuel (pred min) (pred <$> max) g y c in
      let xr := clear_captures gs x in
      if negb (min =? 0)%nat then m xr d
      else if g then
        match m xr d with
        | Some z => Some z
        | None => c x
        end
      else
        match c x with
        | Some z => Some z
        | None => m xr d
        end
  end.
Proof. reflexivity. Qed.

(** One step of the matcher of a pattern applied to a state. *)
Ltac step_pattern :=
  lazymatch goal with
  | |- context [compile ?fl (NSeq ?a ?b) ?x ?c] =>
      change (compile fl (NSeq a b) x c)
        with (compile fl a x (fun y => compile fl b y c))
  | |- context [compile ?fl (NAlt ?a ?b) ?x ?c] =>
      change (compile fl (NAlt a b) x c)
        with (match compile fl a x c with
              | Some z => Some z
              | None => compile fl b x c
              end)
  | |- context [compile ?fl (NGroup ?i ?a) ?x ?c] =>
      change (compile fl (NGroup i a) x c)
        with (compile fl a x (fun y =>
                c {| prev := prev y; rest := rest y;
                     captures := set_capture i (Some (consumed x y))
                                             (captures y) |}))
  | |- context [compile ?fl NBegin ?x ?c] =>
      change (compile fl NBegin x c)
        with (if at_line_start fl x then c x else None)
  | |- context [compile ?fl NEnd ?x ?c] =>
      change (compile fl NEnd x c)
        with (if at_line_end fl x then c x else None)
  | |- context [compile ?fl NEmpty ?x ?c] =>
      change (compile fl NEmpty x c) with (c x)
  | |- context [compile ?fl (NRepeat ?a ?min ?max ?g) ?x ?c] =>
      first
        [ lazymatch x with
          | {| prev := ?p; rest := ?r; captures := ?caps |} =>
              rewrite (compile_greedy fl a _ _ min p r caps c eq_refl eq_refl)
          end
        | change (compile fl (NRepeat a min max g) x c)
            with (repeat_matcher (compile fl a) (groups_in a)
                    (S (min + List.length (rest x))) min max g x c);
          rewrite repeat_unfold ]
  | |- context [compile ?fl (NChar ?a) ?x ?c] =>
      change (compile fl (NChar a) x c)
        with (char_set_matcher fl (Ascii.eqb a) false x c);
      rewrite char_set_step
  | |- context [compile ?fl (NClass ?i ?items) ?x ?c] =>
      change (compile fl (NClass i items) x c)
        with (char_set_matcher fl (class_mem items) i x c);
      rewrite char_set_step
  end; cbv beta match.

Lemma greedy_run_ext acc acc' c min p r caps :
  (forall ch, acc ch = acc' ch) ->
  greedy_run acc c min p r caps = greedy_run acc' c min p r caps.
Proof.
  intros H. revert min p. induction r as [|ch r IH]; intros min p;
    cbn [greedy_run]; [reflexivity|].
  now rewrite H, IH.
Qed.

Lemma succeeds_orelse (o o' : option state) :
  succeeds (match o with Some z => Some z | None => o' end)
  = succeeds o || succeeds o'.
Proof. now destruct o. Qed.

Lemma line_terminator_is_space c :
  is_line_terminator c = true -> is_space c = true.
Proof. unfold is_space. intros ->. apply orb_true_r. Qed.

Lemma title_run (c : continuation) (n : nat) :
  (forall p l r caps, n <= List.length p ->
     succeeds (c {| prev := p; rest := l :: r; captures := caps |})
     = negb (is_space l) && match r with [] => true | _ => false end) ->
  (forall p caps, c {| prev := p; rest := []; captures := caps |} = None) ->
  forall r p caps, n <= List.length p ->
    succeeds (greedy_run (fun a => negb (is_line_terminator a)) c 0 p r caps)
    = ends_well r.
Proof.
  intros Hc Hnil r. induction r as [|ch r IH]; intros p caps Hp.
  - cbn. now rewrite Hnil.
  - cbn [greedy_run Nat.eqb pred ends_well].
    destruct (is_line_terminator ch) eqn:E; cbn [negb andb].
    + rewrite Hc by assumption.
      rewrite (line_terminator_is_space _ E). now destruct r.
    + rewrite succeeds_orelse, IH, Hc by (cbn [List.length]; lia).
      destruct r as [|ch' r]; [now rewrite andb_true_r|].
      now rewrite andb_false_r, orb_false_r.
Qed.

Lemma accepts_plain A inv ch : accepts_char no_flags A inv ch = xorb (A ch) inv.
Proof.
  unfold accepts_char. rewrite set_has_plain by reflexivity.
  now destruct (A ch), inv.
Qed.

Lemma title_pattern_matches (s : string) :
  fst (test validators.patterns.title s) = title_shape (chars s).
Proof.
  rewrite (test_anchored validators.patterns.title s _ eq_refl eq_refl eq_refl).
  unfold anchored_run. generalize (chars s) as cs. intros cs.
  unfold validators.patterns.title.
  cbn [regexp.pattern flags_of group_count replicate].
  destruct cs as [|a r]; [reflexivity|].
  do 4 step_pattern. rewrite accepts_plain.
  cbn [at_line_start prev title_shape class_mem existsb item_mem escape_mem].
  rewrite orb_false_r, xorb_false_r.
  destruct (is_space a); [reflexivity|]. cbn [negb andb].
  do 2 step_pattern. cbn [Nat.eqb negb andb groups_in app].
  rewrite clear_captures_nil, succeeds_orelse.
  destruct r as [|b r]; [reflexivity|].
  do 2 step_pattern. cbn [at_line_end rest succeeds]. rewrite orb_false_r.
  step_pattern.
  rewrite (greedy_run_ext _ (fun a => negb (is_line_terminator a)))
    by (intros; now rewrite accepts_plain, xorb_false_r).
  apply (title_run _ 1).
  - intros p l r' caps Hp. do 3 step_pattern. rewrite accepts_plain.
    cbn [class_mem existsb item_mem escape_mem].
    rewrite orb_false_r, xorb_false_r.
    destruct (is_space l); [reflexivity|]. cbn [negb andb].
    unfold end_index. cbn [prev List.length].
    replace (S (List.length p) =? 1)%nat with false
      by (symmetry; apply Nat.eqb_neq; lia).
    cbn [Nat.add]. rewrite repeat_unfold. cbn [fmap option_fmap option_map pred].
    do 3 step_pattern.
    cbn [at_line_end rest]. now destruct r'.
  - intros. now do 2 step_pattern.
  - cbn. lia.
Qed.

Lemma progress_1 n : (S n =? n)%nat = false.
Proof. apply Nat.eqb_neq. lia. Qed.
Lemma progress_2 n : (S (S n) =? n)%nat = false.
Proof. apply Nat.eqb_neq. lia. Qed.
Lemma progress_3 n : (S (S (S n)) =? n)%nat = false.
Proof. apply Nat.eqb_neq. lia. Qed.

Ltac progress_checks :=
  unfold end_index; cbn [prev List.length];
  rewrite ?progress_1, ?progress_2, ?progress_3.

Lemma duration_tail_matches p r caps :
  succeeds (compile no_flags duration_tail
              {| prev := p; rest := r; captures := caps |} Some)
  = fraction_shape r.
Proof.
  unfold duration_tail.
  destruct r as [|c0 [|c1 [|c2 [|c3 r]]]]; cbn;
    rewrite ?set_has_plain, ?set_has_char by reflexivity;
    unfold canonicalize; cbn; progress_checks; cbn;
    rewrite ?orb_false_r, ?andb_true_r, ?andb_false_r;
    try reflexivity;
    repeat match goal with
      | |- context [Ascii.eqb ?a ?b] => destruct (Ascii.eqb a b); cbn
      | |- context [is_digit ?a] => destruct (is_digit a); cbn
      end; reflexivity.
Qed.

Lemma succeeds_false o : succeeds o = false -> o = None.
Proof. now destruct o. Qed.

Lemma digit_not_dot d : is_digit d = true -> Ascii.eqb "." d = false.
Proof.
  intros H. destruct (Ascii.eqb_spec "."%char d) as [<-|]; [|reflexivity].
  discriminate.
Qed.

Lemma duration_pattern_matches (s : string) :
  fst (test validators.patterns.duration s) = duration_shape (chars s).
Proof.
  rewrite (test_anchored validators.patterns.duration s _
             eq_refl eq_refl eq_refl).
  unfold anchored_run. generalize (chars s) as cs. intros cs.
  unfold validators.patterns.duration.
  cbn [regexp.pattern flags_of group_count replicate].
  destruct cs as [|a r]; [reflexivity|].
  do 5 step_pattern. cbn [at_line_start prev duration_shape].
  rewrite succeeds_orelse. f_equal.
  - do 3 step_pattern. rewrite accepts_plain, xorb_false_r, succeeds_if.
    cbn [prev rest captures]. fold duration_tail.
    now rewrite duration_tail_matches.
  - do 2 step_pattern. rewrite accepts_plain, xorb_false_r, succeeds_if.
    cbn [class_mem existsb item_mem]. rewrite orb_false_r. f_equal.
    do 2 step_pattern.
    rewrite (greedy_run_ext _ is_digit)
      by (intros; rewrite accepts_plain, xorb_false_r; cbn;
          now rewrite orb_false_r).
    rewrite greedy_run_longest.
    + cbn [Nat.leb]. step_pattern. cbn [prev rest captures].
      fold duration_tail. now rewrite duration_tail_matches.
    + intros p ch r' caps Hd. step_pattern. cbn [prev rest captures].
      fold duration_tail. apply succeeds_false.
      rewrite duration_tail_matches. cbn [fraction_shape].
      destruct r'; [reflexivity|]. now rewrite (digit_not_dot _ Hd).
Qed.


Lemma letter_class c :
  accepts_char no_flags (class_mem [Range "A" "Z"; Range "a" "z"]) false c
  = is_letter c.
Proof.
  rewrite accepts_plain, xorb_false_r. cbn [class_mem existsb item_mem].
  now rewrite orb_false_r.
Qed.

Lemma separator_class c :
  accepts_char no_flags (class_mem [Range " " " "; Range "-" "-"]) false c
  = is_separator c.
Proof.
  rewrite accepts_plain, xorb_false_r. cbn [class_mem existsb item_mem].
  rewrite orb_false_r. apply eqb_prop. revert c. apply for_all_chars.
  vm_compute. reflexivity.
Qed.

Lemma letter_not_separator c : is_letter c = true -> is_separator c = false.
Proof.
  revert c.
  assert (H : forall c, implb (is_letter c) (negb (is_separator c)) = true)
    by (apply for_all_chars; vm_compute; reflexivity).
  intros c Hc. specialize (H c). rewrite Hc in H. cbn in H.
  now apply negb_true_iff.
Qed.

Lemma drop_while_stops {A} (p : A -> bool) (l : list A) :
  match drop_while p l with
  | a :: _ => p a = false
  | [] => True
  end.
Proof.
  induction l as [|a l IH]; cbn [drop_while]; [exact I|].
  destruct (p a) eqn:E; [exact IH | exact E].
Qed.

Lemma drop_while_length {A} (p : A -> bool) (l : list A) :
  List.length (drop_while p l) <= List.length l.
Proof.
  induction l as [|a l IH]; cbn [drop_while List.length]; [lia|].
  destruct (p a); cbn [List.length]; lia.
Qed.

Lemma tag_shape_run r :
  tag_shape true (drop_while is_letter r) = tag_shape true r.
Proof.
  induction r as [|c r IH]; cbn [drop_while tag_shape]; [reflexivity|].
  destruct (is_letter c) eqn:E; [exact IH|].
  cbn [tag_shape]. now rewrite E.
Qed.

Lemma tag_shape_word r :
  (1 <=? List.length (take_while is_letter r))%nat
  && tag_shape true (drop_while is_letter r)
  = tag_shape false r.
Proof.
  destruct r as [|c r]; cbn [take_while drop_while tag_shape]; [reflexivity|].
  destruct (is_letter c) eqn:E; cbn [List.length Nat.leb andb].
  - apply tag_shape_run.
  - now destruct (is_separator c).
Qed.

(** Where a letter follows, neither a further group nor the end of the
    input can. *)
Lemma tag_more_stuck fuel p l r caps :
  is_letter l = true ->
  repeat_matcher (compile no_flags tag_more) [] fuel 0 None true
    {| prev := p; rest := l :: r; captures := caps |} at_end = None.
Proof.
  intros Hl. destruct fuel as [|fuel]; [reflexivity|].
  rewrite repeat_unfold. cbn [Nat.eqb negb]. rewrite clear_captures_nil.
  unfold tag_more at 1. do 2 step_pattern.
  rewrite separator_class, (letter_not_separator _ Hl).
  unfold at_end. now do 2 step_pattern.
Qed.

Lemma tag_more_matches n :
  forall r p caps fuel,
    List.length r <= n -> List.length r < fuel ->
    match r with ch :: _ => is_letter ch = false | [] => True end ->
    succeeds (repeat_matcher (compile no_flags tag_more) [] fuel 0 None true
                {| prev := p; rest := r; captures := caps |} at_end)
    = tag_shape true r.
Proof.
  induction n as [|n IH]; intros r p caps fuel Hn Hf Hr;
    (destruct fuel as [|fuel]; [lia|]);
    rewrite repeat_unfold; cbn [Nat.eqb negb andb]; rewrite clear_captures_nil;
    rewrite succeeds_orelse; unfold tag_more at 1; do 2 step_pattern;
    (destruct r as [|ch r]; [reflexivity|]); cbn [List.length] in Hn, Hf;
    [lia|].
  rewrite separator_class. cbn [tag_shape]. rewrite Hr.
  replace (succeeds (at_end _)) with false by (unfold at_end; now do 2 step_pattern).
  rewrite orb_false_r.
  destruct (is_separator ch); [|reflexivity]. cbn [andb].
  step_pattern. unfold tag_word. step_pattern.
  rewrite (greedy_run_ext _ is_letter) by apply letter_class.
  rewrite greedy_run_longest.
  - rewrite succeeds_if, <- tag_shape_word. f_equal.
    step_pattern. cbn [fmap option_fmap option_map pred].
    unfold end_index. cbn [prev]. rewrite length_app. cbn [List.length].
    replace (_ =? _)%nat with false by (symmetry; apply Nat.eqb_neq; lia).
    apply IH.
    + pose proof (drop_while_length is_letter r). lia.
    + pose proof (drop_while_length is_letter r). lia.
    + apply drop_while_stops.
  - intros p' l r' caps' Hl. step_pattern.
    destruct (_ =? _)%nat; [reflexivity|].
    now apply tag_more_stuck.
Qed.

Lemma tag_pattern_matches (s : string) :
  fst (test validators.patterns.tag s) = tag_shape false (chars s).
Proof.
  rewrite (test_anchored validators.patterns.tag s _ eq_refl eq_refl eq_refl).
  unfold anchored_run. generalize (chars s) as cs. intros cs.
  unfold validators.patterns.tag.
  cbn [regexp.pattern flags_of group_count replicate].
  do 4 step_pattern. cbn [at_line_start prev].
  rewrite (greedy_run_ext _ is_letter) by apply letter_class.
  rewrite greedy_run_longest.
  - rewrite succeeds_if, <- tag_shape_word. f_equal.
    step_pattern.
    change (NSeq (NClass false [Range " " " "; Range "-" "-"]) _)
      with tag_more.
    cbn [rest]. apply (tag_more_matches (List.length cs)).
    + apply drop_while_length.
    + pose proof (drop_while_length is_letter cs). cbn. lia.
    + apply drop_while_stops.
  - intros p l r caps Hl. step_pattern.
    change (NSeq (NClass false [Range " " " "; Range "-" "-"]) _)
      with tag_more.
    now apply tag_more_stuck.
Qed.

(** ** What the validators accept *)

Lemma chars_trim (s : string) : chars (trim s) = trim_end (trim_start (chars s)).
Proof. apply list_ascii_of_string_of_list_ascii. Qed.

Lemma trim_end_last (l : list ascii) :
  match rev (trim_end l) with
  | a :: _ => is_space a = false
  | [] => True
  end.
Proof.
  unfold trim_end. rewrite rev_involutive. apply drop_while_stops.
Qed.

(** A trimmed text that is not empty starts and ends with a code unit that
    is no white space. *)
Lemma trimmed_ends (l : list ascii) :
  trim_end (trim_start l) = []
  \/ exists a r, trim_end (trim_start l) = a :: r
                 /\ is_space a = false
                 /\ is_space (List.last (a :: r) a) = false.
Proof.
  destruct (trim_start_head l) as [->|(a & l' & -> & Ha)]; [now left|].
  right. destruct (trim_end_keeps_head a l' Ha) as [r Hr].
  exists a, r. split; [exact Hr|]. split; [exact Ha|].
  pose proof (trim_end_last (a :: l')) as H. rewrite Hr in H.
  destruct (rev (a :: r)) as [|b t] eqn:E.
  - apply (f_equal (@List.length _)) in E. rewrite length_rev in E.
    discriminate.
  - apply (f_equal (@rev _)) in E. rewrite rev_involutive in E.
    rewrite E. cbn [rev]. rewrite last_last. exact H.
Qed.

Lemma ends_well_trimmed (r : list ascii) (d : ascii) :
  r <> [] -> is_space (List.last r d) = false ->
  ends_well r = negb (existsb is_line_terminator r).
Proof.
  induction r as [|ch r IH]; [congruence|]. intros _ Hl.
  destruct r as [|ch' r].
  - cbn in Hl |- *. rewrite Hl, orb_false_r.
    destruct (is_line_terminator ch) eqn:E; [|reflexivity].
    now rewrite (line_terminator_is_space _ E) in Hl.
  - change (ends_well (ch :: ch' :: r))
      with (negb (is_line_terminator ch) && ends_well (ch' :: r)).
    rewrite IH by (try discriminate; exact Hl).
    cbn [existsb]. now rewrite !negb_orb.
Qed.

Lemma title_shape_trimmed (a : ascii) (r : list ascii) :
  is_space a = false -> is_space (List.last (a :: r) a) = false ->
  title_shape (a :: r) = negb (existsb is_line_terminator (a :: r)).
Proof.
  intros Ha Hl. cbn [title_shape existsb]. rewrite Ha. cbn [negb andb].
  assert (is_line_terminator a = false) as ->.
  { destruct (is_line_terminator a) eqn:E; [|reflexivity].
    now rewrite (line_terminator_is_space _ E) in Ha. }
  cbn [orb]. destruct r as [|b r]; [reflexivity|].
  apply (ends_well_trimmed _ a); [discriminate | exact Hl].
Qed.

Lemma jslength_zero (s : string) : (jslength s =? 0)%nat = String.eqb s "".
Proof. now destruct s. Qed.

(** X1: the message of [validateTitle] about spaces is the answer to
    exactly the titles whose trimmed form, of at most 100 code units,
    holds a line terminator: after trimming, no title fails the pattern
    for its spaces. *)
Theorem validateTitle_space_error_is_line_break (s : string) :
  validators.validateTitle (String_ s)
  = validators.fails
      "Title cannot have leading/trailing spaces or consecutive spaces"
  <-> jslength (trim s) <= 100
      /\ existsb is_line_terminator (chars (trim s)) = true.
Proof.
  unfold validators.validateTitle.
  rewrite title_pattern_matches. unfold jslength. rewrite chars_trim.
  destruct (trimmed_ends (chars s)) as [E|(a & r & E & Ha & Hl)]; rewrite E.
  - cbn [List.length Nat.eqb existsb].
    destruct (negb (truthy (String_ s))); split;
      (discriminate || (intros [_ H]; discriminate H)).
  - assert (Hs : truthy (String_ s) = true).
    { apply truthy_string. intros ->. discriminate E. }
    rewrite Hs, title_shape_trimmed by assumption.
    cbn [negb List.length Nat.eqb]. rewrite negb_involutive.
    destruct (100 <? S (List.length r))%nat eqn:E100.
    + apply Nat.ltb_lt in E100. split; [discriminate | lia].
    + apply Nat.ltb_ge in E100.
      destruct (existsb is_line_terminator (a :: r)).
      * split; [now split | reflexivity].
      * split; [|intros [_ H]; discriminate H].
        destruct (fst (test _ _)); discriminate.
Qed.

(** [parseFloat] of a text that starts with a digit is a number that is
    not negative. *)
Lemma parseFloat_digit (c : ascii) (r : list ascii) :
  is_digit c = true ->
  exists num den,
    validators.parseFloat (str (c :: r)) = Some (Z.of_N num # den)%Q.
Proof.
  intros Hd. unfold validators.parseFloat.
  rewrite list_ascii_of_string_of_list_ascii. unfold trim_start.
  rewrite drop_while_head by now apply digit_not_space.
  assert (match c :: r with
          | "-"%char :: r0 => (true, r0)
          | "+"%char :: r0 => (false, r0)
          | _ => (false, c :: r)
          end = (false, c :: r)) as ->.
  { destruct c as [[] [] [] [] [] [] [] []]; try reflexivity;
      vm_compute in Hd; discriminate Hd. }
  cbn [validators.digits_value]. rewrite Hd.
  destruct (validators.digits_value _ r) as [[v k] r'].
  match goal with
  | |- context [let '(_, _) := ?m in _] => destruct m as [num kf]
  end.
  cbn [Nat.add Nat.eqb]. eauto.
Qed.

Lemma duration_shape_digit (c : ascii) (r : list ascii) :
  duration_shape (c :: r) = true -> is_digit c = true.
Proof.
  cbn [duration_shape]. intros H.
  assert (Hc : Ascii.eqb "0" c || between "1" "9" c = true).
  { destruct (Ascii.eqb "0" c); [reflexivity|].
    destruct (between "1" "9" c); [reflexivity|]. discriminate H. }
  clear H. revert c Hc.
  assert (H : forall c, implb (Ascii.eqb "0" c || between "1" "9" c)
                              (is_digit c) = true)
    by (apply for_all_chars; vm_compute; reflexivity).
  intros c Hc. specialize (H c). now rewrite Hc in H.
Qed.

Lemma num_lt_zero (num : N) (den : positive) :
  validators.num_lt (Some (Z.of_N num # den)%Q) (Some 0%Q) = false.
Proof.
  unfold validators.num_lt. apply negb_false_iff, Qle_bool_iff.
  unfold Qle. cbn. lia.
Qed.

(** X2: no input makes [validateDuration] answer "Duration must be
    positive": what passes the pattern has no sign, so the comparison with
    zero that guards this message never holds. *)
Theorem validateDuration_never_answers_positive (v : value) :
  validators.validateDuration v <> validators.fails "Duration must be positive".
Proof.
  destruct v; try discriminate. unfold validators.validateDuration.
  destruct (negb (truthy (String_ s))); [discriminate|].
  destruct (jslength (trim s) =? 0)%nat; [discriminate|].
  rewrite duration_pattern_matches.
  destruct (duration_shape (chars (trim s))) eqn:E; [|discriminate].
  cbn [negb]. destruct (chars (trim s)) as [|c r] eqn:Ec; [discriminate E|].
  destruct (parseFloat_digit c r (duration_shape_digit c r E))
    as (num & den & Hp).
  rewrite <- Ec, string_of_list_ascii_of_string in Hp. rewrite Hp.
  rewrite num_lt_zero.
  destruct (validators.num_lt _ _); discriminate.
Qed.

(** X3: [validateDuration] accepts a text exactly when its trimmed form is
    a zero or digits without a leading zero, then nothing or a point and
    one or two digits, and the number it reads is at most 10000. *)
Theorem validateDuration_accepts_exactly (s : string) :
  validators.validateDuration (String_ s) = validators.ok
  <-> duration_shape (chars (trim s)) = true
      /\ exists q, validators.parseFloat (trim s) = Some q
                   /\ (0 <= q)%Q /\ (q <= 10000)%Q.
Proof.
  unfold validators.validateDuration.
  rewrite duration_pattern_matches, jslength_zero.
  destruct (duration_shape (chars (trim s))) eqn:E.
  - destruct (chars (trim s)) as [|c r] eqn:Ec; [discriminate E|].
    destruct (parseFloat_digit c r (duration_shape_digit c r E))
      as (num & den & Hp).
    rewrite <- Ec, string_of_list_ascii_of_string in Hp. rewrite Hp.
    assert (Ht : trim s <> "") by (intros Ht; now rewrite Ht in Ec).
    rewrite truthy_string by now apply trim_nonempty.
    rewrite (proj2 (String.eqb_neq _ _) Ht), num_lt_zero. cbn [negb].
    unfold validators.num_lt.
    destruct (Qle_bool (Z.of_N num # den) 10000) eqn:Q; cbn [negb].
    + split; [|reflexivity]. intros _. split; [reflexivity|].
      eexists. split; [reflexivity|]. split.
      * unfold Qle. cbn. lia.
      * now apply Qle_bool_iff.
    + split; [discriminate|]. intros (_ & q & [= <-] & _ & Hq).
      apply Qle_bool_iff in Hq. congruence.
  - split; [|intros [H _]; discriminate H].
    destruct (negb (truthy _)); [discriminate|].
    destruct (String.eqb _ _); discriminate.
Qed.

(** X4: [validateTag] accepts a text exactly when its trimmed form, of at
    most 50 code units, is made of words of the letters A-Z and a-z with
    one space or one hyphen between two words. *)
Theorem validateTag_accepts_exactly (s : string) :
  validators.validateTag (String_ s) = validators.ok
  <-> jslength (trim s) <= 50 /\ tag_shape false (chars (trim s)) = true.
Proof.
  unfold validators.validateTag.
  rewrite tag_pattern_matches, jslength_zero.
  destruct (String.eqb_spec (trim s) "") as [Ht|Ht].
  - rewrite Ht. cbn. destruct (String.eqb s "");
      split; (discriminate || (intros [_ H]; discriminate H)).
  - rewrite truthy_string by now apply trim_nonempty. cbn [negb].
    destruct (50 <? jslength (trim s))%nat eqn:E50.
    + apply Nat.ltb_lt in E50. split; [discriminate | lia].
    + apply Nat.ltb_ge in E50.
      destruct (tag_shape false (chars (trim s))); cbn [negb].
      * split; [now split | reflexivity].
      * split; [discriminate | intros [_ H]; discriminate H].
Qed.

(** X5: [validateDate] accepts a text exactly when it reads [YYYY-MM-DD]
    with a month in 01..12 and a day in 01..31 and the [Date] constructor
    of the host gives a valid date for it at midnight UTC. *)
Theorem validateDate_accepts_exactly (Date_time : string -> option Z)
  (s : string) :
  validators.validateDate Date_time (String_ s) = validators.ok
  <-> spec.is_iso_date (chars s) = true
      /\ Date_time (s ++ "T00:00:00Z")%string <> None.
Proof.
  unfold validators.validateDate. rewrite date_pattern_matches.
  destruct (spec.is_iso_date (chars s)) eqn:E.
  - assert (Hs : s <> "") by (intros ->; discriminate E).
    rewrite truthy_string by assumption. cbn [negb].
    destruct (Date_time _).
    + split; [now split | reflexivity].
    + split; [discriminate | now intros [_ H]].
  - split; [|intros [H _]; discriminate H].
    destruct (negb (truthy _)); discriminate.
Qed.

Lemma record_error_lookup (key k : string) (r : validators.ValidationResult)
  (m : gmap string string) :
  validators.record_error key r m !! k
  = if negb (validators.valid r) && bool_decide (key = k)
    then Some (validators.error r) else m !! k.
Proof.
  unfold validators.record_error.
  destruct (validators.valid r); cbn [negb andb]; [reflexivity|].
  case_bool_decide as E.
  - subst. apply lookup_insert_eq.
  - now apply lookup_insert_ne.
Qed.

Lemma record_error_empty (key : string) (r : validators.ValidationResult)
  (m : gmap string string) :
  validators.record_error key r m = ∅ <-> validators.valid r = true /\ m = ∅.
Proof.
  unfold validators.record_error. destruct (validators.valid r); cbn [negb].
  - tauto.
  - split; [|intros [H _]; discriminate H].
    intros H. now apply insert_non_empty in H.
Qed.

(** X6: [validateTask] reports a form as valid exactly when each of the
    four validators accepts its field, and [errors] holds, under the name
    of each rejected field and under no other key, the message of its
    validator. *)
Theorem validateTask_collects_the_four_answers
  (Date_time : string -> option Z) (task : validators.TaskForm) :
  let vt := validators.validateTitle (validators.form_title task) in
  let vd := validators.validateDate Date_time (validators.form_dueDate task) in
  let vn := validators.validateDuration (validators.form_duration task) in
  let vg := validators.validateTag (validators.form_tag task) in
  let r := validators.validateTask Date_time task in
  (validators.all_valid r = true
   <-> validators.valid vt = true /\ validators.valid vd = true
       /\ validators.valid vn = true /\ validators.valid vg = true)
  /\ forall k,
       validators.errors r !! k =
       if negb (validators.valid vg) && bool_decide ("tag" = k)
       then Some (validators.error vg)
       else if negb (validators.valid vn) && bool_decide ("duration" = k)
       then Some (validators.error vn)
       else if negb (validators.valid vd) && bool_decide ("dueDate" = k)
       then Some (validators.error vd)
       else if negb (validators.valid vt) && bool_decide ("title" = k)
       then Some (validators.error vt)
       else None.
Proof.
  intros vt vd vn vg r. split.
  - unfold r, validators.validateTask. cbn [validators.all_valid].
    fold vt vd vn vg. rewrite Nat.eqb_eq, map_size_empty_iff.
    rewrite !record_error_empty. tauto.
  - intros k. unfold r, validators.validateTask. cbn [validators.errors].
    fold vt vd vn vg. rewrite !record_error_lookup.
    now rewrite lookup_empty.
Qed.

(** ** Matches as parts of the text *)

Import segments.

Lemma same_input_refl x : same_input x x.
Proof. reflexivity. Qed.

Lemma same_input_trans z y x :
  same_input z y -> same_input y x -> same_input z x.
Proof. unfold same_input. congruence. Qed.

Lemma match_captured_same fl s p r p' r' :
  match_captured fl s p r = Some (p', r') -> rev p' ++ r' = rev p ++ r.
Proof.
  revert p r. induction s as [|a s IH]; intros p r H; cbn in H.
  - now injection H as <- <-.
  - destruct r as [|ch r]; [discriminate|].
    destruct (Ascii.eqb _ _); [|discriminate].
    apply IH in H. rewrite H. cbn [rev]. now rewrite <- app_assoc.
Qed.

Lemma char_set_tracks fl A inv : tracks (char_set_matcher fl A inv).
Proof.
  intros x c z H. unfold char_set_matcher in H.
  destruct (rest x) as [|ch r] eqn:E; [discriminate|].
  destruct (Bool.eqb _ _); [discriminate|]. eexists. split; [|split; [|exact H]].
  - unfold follows. cbn. rewrite E. cbn. lia.
  - unfold same_input. cbn [prev rest rev]. rewrite E, <- app_assoc.
    reflexivity.
Qed.

Lemma repeat_tracks m gs fuel :
  tracks m ->
  forall min max g x c z,
    repeat_matcher m gs fuel min max g x c = Some z ->
    exists y, follows y x /\ same_input y x /\ c y = Some z.
Proof.
  intros Hm. induction fuel as [|fuel IH]; intros min max g x c z H;
    [discriminate|].
  cbn [repeat_matcher] in H.
  set (d := fun y =>
              if (min =? 0)%nat && (end_index y =? end_index x)%nat
              then None
              else repeat_matcher m gs fuel (pred min) (pred <$> max) g y c)
    in *.
  assert (Hd : m (clear_captures gs x) d = Some z ->
               exists y, follows y x /\ same_input y x /\ c y = Some z).
  { intros E. apply Hm in E as (y & Hy & Hs & E). unfold d in E.
    destruct (_ && _); [discriminate|].
    apply IH in E as (y' & Hy' & Hs' & E). exists y'.
    split; [|split; [|exact E]].
    - eapply follows_trans; [exact Hy'|]. destruct x; exact Hy.
    - eapply same_input_trans; [exact Hs'|]. destruct x; exact Hs. }
  assert (Hx : c x = Some z ->
               exists y, follows y x /\ same_input y x /\ c y = Some z)
    by (intros E; exists x; split; [apply follows_refl|]; now split).
  destruct max as [[|k]|]; [now apply Hx| |].
  all: destruct (negb (min =? 0)%nat); [now apply Hd|];
    destruct g;
    [ destruct (m (clear_captures gs x) d) eqn:E;
      [injection H as <-; now apply Hd | now apply Hx]
    | destruct (c x) eqn:E; [injection H as <-; now apply Hx | now apply Hd] ].
Qed.

(** A matcher hands on the input it was given. *)
Theorem compile_tracks fl r : tracks (compile fl r).
Proof.
  induction r as [ |a| |inv items|a IHa b IHb|a IHa b IHb
                  |a IHa min max g|i a IHa|neg a IHa|i| | | | ];
    intros x c z H; cbn [compile] in H;
    try (now apply char_set_tracks in H).
  - exists x. split; [apply follows_refl|]. now split.
  - apply IHa in H as (y & Hy & Hs & H).
    apply IHb in H as (y' & Hy' & Hs' & H).
    exists y'. split; [eapply follows_trans; eassumption|].
    split; [eapply same_input_trans; eassumption | exact H].
  - destruct (compile fl a x c) eqn:E.
    + injection H as <-. now apply IHa.
    + now apply IHb.
  - now apply repeat_tracks in H.
  - apply IHa in H as (y & Hy & Hs & H). eexists.
    split; [|split; [|exact H]]; [exact Hy | exact Hs].
  - destruct (compile fl a x Some); destruct neg; try discriminate.
    + eexists. split; [|split; [|exact H]]; [unfold follows; cbn; lia|].
      reflexivity.
    + exists x. split; [apply follows_refl|]. now split.
  - destruct (captures x !! pred i) as [[s|]|];
      try (exists x; split; [apply follows_refl|]; now split).
    destruct (match_captured fl s (prev x) (rest x)) as [[p r]|] eqn:E;
      [|discriminate].
    eexists. split; [|split; [|exact H]].
    + apply match_captured_follows in E. exact E.
    + apply match_captured_same in E. exact E.
  - destruct (at_line_start fl x); [|discriminate].
    exists x. split; [apply follows_refl|]. now split.
  - destruct (at_line_end fl x); [|discriminate].
    exists x. split; [apply follows_refl|]. now split.
  - destruct (Bool.eqb _ _); [discriminate|].
    exists x. split; [apply follows_refl|]. now split.
  - destruct (Bool.eqb _ _); [|discriminate].
    exists x. split; [apply follows_refl|]. now split.
Qed.

Lemma scan_same m oh caps p r x y :
  tracks m ->
  scan m oh caps p r = Some (x, y) ->
  rev (prev x) ++ rest x = rev p ++ r /\ same_input y x /\ follows y x.
Proof.
  intros Hm. revert p. induction r as [|ch r IH]; intros p H;
    rewrite scan_unfold in H.
  - destruct (m _ Some) eqn:E.
    + injection H as <- <-. apply Hm in E as (y' & Hy & Hs & [= <-]).
      now split.
    + destruct oh; discriminate.
  - destruct (m _ Some) eqn:E.
    + injection H as <- <-. apply Hm in E as (y' & Hy & Hs & [= <-]).
      now split.
    + destruct oh; [discriminate|]. apply IH in H as (H1 & H2 & H3).
      split; [|now split]. rewrite H1. cbn [rev]. now rewrite <- app_assoc.
Qed.

(** What two states of one input lie apart is what was consumed between
    them. *)
Lemma consumed_between x y :
  follows y x -> same_input y x ->
  rest x = consumed x y ++ rest y.
Proof.
  intros [H1 H2] Hs. unfold consumed, end_index, same_input in *.
  assert (Hl : List.length (prev x) <= List.length (prev y)) by lia.
  rewrite <- (take_drop (List.length (prev y) - List.length (prev x)) (prev y))
    in Hs at 1.
  rewrite rev_app_distr, <- app_assoc in Hs.
  apply app_inj_1 in Hs as [Hp Hr]; [now rewrite Hr|].
  rewrite !length_rev, length_drop. lia.
Qed.

(** The text of a match is the text found at its index. *)
Lemma exec_match_text R S m R' :
  exec R S = (Some m, R') ->
  index m + jslength (matched m) <= List.length (chars S)
  /\ chars (matched m)
     = substring (index m) (jslength (matched m)) (chars S).
Proof.
  intros H. unfold exec in H.
  destruct (_ <? _)%nat eqn:El; [discriminate|]. apply Nat.ltb_ge in El.
  destruct (scan _ _ _ _ _) as [[x y]|] eqn:E; [|discriminate].
  injection H as <- <-. cbn [index matched].
  apply scan_same in E as (H1 & H2 & H3); [|apply compile_tracks].
  rewrite rev_involutive, take_drop in H1.
  pose proof (consumed_between x y H3 H2) as Hc.
  unfold jslength, substring. rewrite list_ascii_of_string_of_list_ascii.
  rewrite <- H1. unfold end_index.
  rewrite drop_app_length' by (symmetry; apply length_rev).
  rewrite Hc, length_app, length_rev, length_app.
  split; [lia|]. now rewrite take_app_length.
Qed.

(** ** [findMatches] on matches that are not empty *)

(** The flags [findMatches] gives to its copy of the expression are the
    flags of the expression and [g]. *)
Lemma flags_with_g (fl : flags) :
  parse_flags
    (chars (if validators.includes "g" (flags_string fl)
            then flags_string fl else (flags_string fl ++ "g")%string))
    no_flags
  = Normal {| hasIndices := hasIndices fl; global := true;
              ignoreCase := ignoreCase fl; multiline := multiline fl;
              dotAll := dotAll fl; sticky := sticky fl |}.
Proof. destruct fl as [[] [] [] [] [] []]; vm_compute; reflexivity. Qed.

Lemma RegExp_new_flags p f R :
  RegExp_new p f = Normal R ->
  parse_flags (chars f) no_flags = Normal (flags_of R) /\ lastIndex R = 0.
Proof.
  unfold RegExp_new. destruct (parse_flags _ _); [|discriminate].
  destruct (parse_pattern p) as [[r n]|]; [|discriminate].
  now intros [= <-].
Qed.

Lemma exec_sets_lastIndex R S m R' :
  uses_lastIndex R = true ->
  exec R S = (Some m, R') ->
  R' = set_lastIndex R (index m + jslength (matched m)).
Proof.
  intros Hu H. pose proof (exec_progress R S m R' Hu H) as (_ & _ & Hl & _).
  unfold exec in H. rewrite Hu in H.
  destruct (_ <? _)%nat; [discriminate|].
  destruct (scan _ _ _ _ _) as [[x y]|]; [|discriminate].
  injection H as <- <-. cbn in Hl. unfold set_lastIndex. now rewrite Hl.
Qed.

Lemma nonempty_length (s : string) : s <> "" -> 0 < jslength s.
Proof. destruct s; [congruence|]. cbn. lia. Qed.

(** The loop of [findMatches] from [lastIndex] [i], when no match is
    empty. *)
Lemma findMatches_loop_ends (text : string) (Rg : RegExp) :
  uses_lastIndex Rg = true ->
  (forall i m R', exec (set_lastIndex Rg i) text = (Some m, R') ->
                  matched m <> "") ->
  forall fuel i,
    jslength text < fuel + i -> 0 < fuel ->
    exists spans,
      spans_in_order (chars text) i spans = true
      /\ forall fuel' acc,
           jslength text < fuel' + i -> 0 < fuel' ->
           validators.findMatches_loop fuel' text (set_lastIndex Rg i) acc
           = Some (acc ++ spans).
Proof.
  intros Hu Hne. induction fuel as [|fuel IH]; intros i Hf H0; [lia|].
  destruct (exec (set_lastIndex Rg i) text) as [[m|] R'] eqn:E.
  - assert (Hu' : uses_lastIndex (set_lastIndex Rg i) = true) by exact Hu.
    pose proof (exec_progress _ _ _ _ Hu' E) as (H1 & H2 & _ & _).
    pose proof (exec_sets_lastIndex _ _ _ _ Hu' E) as ->.
    pose proof (exec_match_text _ _ _ _ E) as (H3 & H4).
    pose proof (nonempty_length _ (Hne _ _ _ E)) as H5.
    cbn [lastIndex set_lastIndex] in H1, H2.
    change (set_lastIndex (set_lastIndex Rg i) ?k) with (set_lastIndex Rg k)
      in E.
    destruct (IH (index m + jslength (matched m))) as (spans & Ho & Hs).
    { unfold jslength in *. lia. }
    { unfold jslength in *. lia. }
    exists ({| validators.span_text := matched m;
               validators.span_index := index m;
               validators.span_length := jslength (matched m) |} :: spans).
    split.
    + cbn [spans_in_order validators.span_index validators.span_length
           validators.span_text].
      rewrite Ho, andb_true_r, !andb_true_iff.
      rewrite Nat.leb_le, Nat.ltb_lt, Nat.leb_le, String.eqb_eq.
      repeat split; try assumption.
      rewrite <- H4. symmetry. apply string_of_list_ascii_of_string.
    + intros fuel' acc Hf' H0'. destruct fuel' as [|fuel']; [lia|].
      cbn [validators.findMatches_loop]. rewrite E.
      rewrite Hs, <- app_assoc; [reflexivity | |];
        unfold jslength in *; lia.
  - exists []. split; [reflexivity|].
    intros fuel' acc Hf' H0'. destruct fuel' as [|fuel']; [lia|].
    cbn [validators.findMatches_loop]. rewrite E. now rewrite app_nil_r.
Qed.

(** X7: when no match of the expression in the text is empty,
    [findMatches] returns, and its spans follow one another in the text:
    each holds the text found at its index, none is empty, none starts
    before the one before ends. *)
Theorem findMatches_returns_spans_in_order (text : string) (R Rg : RegExp) :
  text <> "" ->
  RegExp_new (source R)
    (if validators.includes "g" (flags_string (flags_of R))
     then flags_string (flags_of R)
     else (flags_string (flags_of R) ++ "g")%string) = Normal Rg ->
  (forall i m R', exec (set_lastIndex Rg i) text = (Some m, R') ->
                  matched m <> "") ->
  exists spans,
    spans_in_order (chars text) 0 spans = true
    /\ forall fuel, jslength text < fuel ->
         validators.findMatches fuel text (Some R) = Some (Normal spans).
Proof.
  intros Ht Hn Hne.
  destruct (RegExp_new_flags _ _ _ Hn) as [Hfl Hl].
  rewrite flags_with_g in Hfl. injection Hfl as Hfl.
  assert (Hu : uses_lastIndex Rg = true)
    by (unfold uses_lastIndex; now rewrite <- Hfl).
  assert (HR : set_lastIndex Rg 0 = Rg)
    by (destruct Rg; cbn in Hl; now rewrite Hl).
  destruct (findMatches_loop_ends text Rg Hu Hne (S (jslength text)) 0)
    as (spans & Ho & Hs); [lia | lia |].
  exists spans. split; [exact Ho|]. intros fuel Hf.
  unfold validators.findMatches.
  rewrite (proj2 (String.eqb_neq _ _) Ht), Hn.
  rewrite <- HR, Hs by lia. reflexivity.
Qed.

Lemma findMatches_returns_spans_in_order_witness :
  exists spans,
    spans_in_order (chars "abcabc") 0 spans = true
    /\ forall fuel, jslength "abcabc" < fuel ->
         validators.findMatches fuel "abcabc" (Some (literal "b" "i"))
         = Some (Normal spans).
Proof.
  apply (findMatches_returns_spans_in_order "abcabc" (literal "b" "i")
           (literal "b" "gi")).
  - discriminate.
  - vm_compute. reflexivity.
  - intros i m R' H.
    assert (Hi : i <= 6 \/ 6 < i) by lia.
    destruct Hi as [Hi|Hi].
    + do 7 (destruct i as [|i];
            [vm_compute in H; (discriminate H || (injection H as <- _; discriminate))|]).
      lia.
    + unfold exec in H.
      replace (_ <? _)%nat with true in H; [discriminate|].
      symmetry. apply Nat.ltb_lt. cbn. lia.
Defined.

(** ** [highlightMatches] keeps the text *)

Lemma matches_in_order_weaken input next next' ms :
  next' <= next ->
  matches_in_order input next ms = true ->
  matches_in_order input next' ms = true.
Proof.
  destruct ms as [|m ms]; [reflexivity|]. cbn [matches_in_order].
  rewrite !andb_true_iff, !Nat.leb_le. intros H [[[H1 H2] H3] H4].
  repeat split; try assumption. lia.
Qed.

Lemma exec_match_in_order R S m R' ms next :
  exec R S = (Some m, R') ->
  next <= index m ->
  matches_in_order (chars S) (index m + jslength (matched m)) ms = true ->
  matches_in_order (chars S) next (m :: ms) = true.
Proof.
  intros E Hn Hms. pose proof (exec_match_text _ _ _ _ E) as (H3 & H4).
  cbn [matches_in_order]. rewrite Hms, andb_true_r, !andb_true_iff.
  rewrite !Nat.leb_le, String.eqb_eq. repeat split; try assumption.
  rewrite <- H4. symmetry. apply string_of_list_ascii_of_string.
Qed.

(** The matches [replace] collects follow one another in the text. *)
Lemma collect_matches_in_order S :
  forall fuel R,
    matches_in_order (chars S)
      (if global (flags_of R) then lastIndex R else 0)
      (fst (validators.collect_matches fuel S R)) = true.
Proof.
  induction fuel as [|fuel IH]; intros R; [reflexivity|].
  cbn [validators.collect_matches].
  destruct (exec R S) as [[m|] R'] eqn:E; [|reflexivity].
  destruct (global (flags_of R)) eqn:Hg.
  - assert (Hu : uses_lastIndex R = true)
      by (unfold uses_lastIndex; now rewrite Hg).
    destruct (exec_progress R S m R' Hu E) as (H1 & H2 & H3 & H4).
    set (R'' := if String.eqb (matched m) ""
                then set_lastIndex R' (Datatypes.S (lastIndex R')) else R').
    specialize (IH R'').
    destruct (validators.collect_matches fuel S R'') as [ms Rf].
    cbn [fst] in *.
    apply (exec_match_in_order _ _ _ _ _ _ E H1).
    eapply matches_in_order_weaken; [|exact IH].
    unfold R''. destruct (String.eqb _ _); cbn; rewrite ?H4, Hg; cbn; lia.
  - cbn [fst]. apply (exec_match_in_order _ _ _ _ _ _ E); [lia | reflexivity].
Qed.

Lemma append_assoc (a b c : string) :
  ((a ++ b) ++ c = a ++ (b ++ c))%string.
Proof.
  induction a as [|x a IH]; [reflexivity|].
  change (String x ((a ++ b) ++ c) = String x (a ++ (b ++ c)))%string.
  now rewrite IH.
Qed.

Lemma splice_marked input replacer :
  (forall m, replacer m
             = ("<mark>" ++ validators.escapeHtml m ++ "</mark>")%string) ->
  forall ms next,
    next <= List.length input ->
    matches_in_order input next ms = true ->
    marked (drop next input) (validators.splice input next ms replacer).
Proof.
  intros Hr. induction ms as [|m ms IH]; intros next Hn H;
    cbn [validators.splice]; [apply marked_rest|].
  cbn [matches_in_order] in H. rewrite !andb_true_iff in H.
  destruct H as [[[H1 H2] H3] H4].
  rewrite H1. apply Nat.leb_le in H1, H2. apply String.eqb_eq in H3.
  specialize (IH _ H2 H4).
  assert (Hd : drop next input
               = take (index m - next) (drop next input)
                 ++ substring (index m) (jslength (matched m)) input
                 ++ drop (index m + jslength (matched m)) input).
  { unfold substring.
    rewrite <- (take_drop (index m - next) (drop next input)) at 1.
    f_equal. rewrite drop_drop.
    replace (next + (index m - next)) with (index m) by lia.
    rewrite <- (take_drop (jslength (matched m)) (drop (index m) input)) at 1.
    now rewrite drop_drop. }
  rewrite Hd at 1. rewrite Hr. clear Hd.
  remember (substring (index m) (jslength (matched m)) input) as sub.
  replace (validators.escapeHtml (matched m))
    with (validators.escapeHtml (str sub)) by now rewrite H3.
  rewrite !append_assoc.
  apply (marked_match _ _ _ _ IH).
Qed.

(** X8: what [highlightMatches] returns is the text with some of its parts
    marked: the parts follow one another as in the text, each marked part
    is escaped and wrapped in [<mark>], and everything in between is
    copied as it is.  Nothing of the text is lost or moved. *)
Theorem highlightMatches_marks_parts_of_the_text
  (text : string) (regex : option RegExp) :
  marked (chars text) (fst (validators.highlightMatches text regex)).
Proof.
  assert (H0 : marked (chars text) text).
  { rewrite <- (string_of_list_ascii_of_string text) at 2.
    apply marked_rest. }
  unfold validators.highlightMatches.
  destruct regex as [R|]; [|exact H0].
  destruct (String.eqb text ""); [exact H0|].
  unfold validators.replace.
  set (R0 := if global (flags_of R) then set_lastIndex R 0 else R).
  pose proof (collect_matches_in_order text (S (S (jslength text))) R0) as H.
  destruct (validators.collect_matches _ text R0) as [ms R'].
  cbn [fst] in *.
  change (chars text) with (drop 0 (chars text)).
  apply splice_marked; [reflexivity | lia |].
  eapply matches_in_order_weaken; [|exact H]. lia.
Qed.

(** ** [highlightMatches] rewinds a global expression *)

Lemma collect_matches_rewinds S R :
  global (flags_of R) = true ->
  forall fuel i,
    List.length (chars S) + 2 <= fuel + i -> 0 < fuel ->
    snd (validators.collect_matches fuel S (set_lastIndex R i))
    = set_lastIndex R 0.
Proof.
  intros Hg. induction fuel as [|fuel IH]; intros i Hf H0; [lia|].
  cbn [validators.collect_matches].
  assert (Hu : uses_lastIndex (set_lastIndex R i) = true)
    by (unfold uses_lastIndex; cbn; now rewrite Hg).
  destruct (exec (set_lastIndex R i) S) as [[m|] R'] eqn:E.
  - cbn [flags_of set_lastIndex]. rewrite Hg.
    destruct (exec_progress _ _ _ _ Hu E) as (H1 & H2 & H3 & H4).
    pose proof (exec_sets_lastIndex _ _ _ _ Hu E) as ->.
    cbn [lastIndex set_lastIndex] in *.
    match goal with
    | |- context [validators.collect_matches fuel S ?R2] =>
        assert (HR : exists k, R2 = set_lastIndex R k /\ i < k)
    end.
    { destruct (String.eqb (matched m) "") eqn:Em.
      - eexists. split; [reflexivity|]. lia.
      - eexists. split; [reflexivity|].
        apply String.eqb_neq, nonempty_length in Em. lia. }
    destruct HR as (k & -> & Hk).
    specialize (IH k).
    destruct (validators.collect_matches fuel S (set_lastIndex R k))
      as [ms Rf].
    cbn [snd] in *. apply IH; lia.
  - unfold exec in E. rewrite Hu in E.
    destruct (_ <? _)%nat; [now injection E as <-|].
    destruct (scan _ _ _ _ _) as [[x y]|]; [discriminate|].
    now injection E as <-.
Qed.

(** X9: after [highlightMatches] a global expression has its [lastIndex]
    at 0 again, wherever an earlier [test] had left it. *)
Theorem highlightMatches_rewinds_global_expression (text : string) (R : RegExp) :
  text <> "" -> global (flags_of R) = true ->
  snd (validators.highlightMatches text (Some R)) = Some (set_lastIndex R 0).
Proof.
  intros Ht Hg. unfold validators.highlightMatches, validators.replace.
  rewrite (proj2 (String.eqb_neq _ _) Ht), Hg.
  pose proof (collect_matches_rewinds text R Hg (S (S (jslength text))) 0) as H.
  destruct (validators.collect_matches _ text (set_lastIndex R 0)) as [ms R'].
  cbn [snd] in *. rewrite H; [reflexivity | unfold jslength; lia | lia].
Qed.

Lemma highlightMatches_rewinds_global_expression_witness :
  snd (validators.highlightMatches "exam week"
         (Some (set_lastIndex (literal "e" "g") 4)))
  = Some (set_lastIndex (set_lastIndex (literal "e" "g") 4) 0).
Proof.
  apply (highlightMatches_rewinds_global_expression "exam week"
           (set_lastIndex (literal "e" "g") 4)).
  - discriminate.
  - reflexivity.
Defined.

(** ** Searching with a command *)

Lemma parseQuery_is_classify (q : string) :
  parseQuery (String_ q) = Normal (spec.classify q).
Proof.
  unfold parseQuery, spec.classify. cbn [truthy].
  destruct (String.eqb q ""); cbn [negb]; [reflexivity|].
  rewrite match_tag_command.
  destruct (spec.tag_argument (chars q)); [reflexivity|].
  rewrite match_date_command.
  now destruct (spec.date_argument (chars q)).
Qed.

Lemma tag_argument_nonempty cs w : spec.tag_argument cs = Some w -> cs <> [].
Proof. now intros H ->. Qed.

Lemma date_argument_nonempty cs d : spec.date_argument cs = Some d -> cs <> [].
Proof. now intros H ->. Qed.

Lemma chars_nonempty (q : string) : chars q <> [] -> String.eqb q "" = false.
Proof. destruct q; [intros H; now contradiction H | reflexivity]. Qed.

(** X10: a tag command returns, in a new array, the tasks whose tag is the
    word after [@tag:], compared as it is written, and a date command
    those due on the date after [@date:]; their order is kept, and the
    case-sensitivity setting plays no part. *)
Theorem performSearch_runs_the_commands
  (h : heap) (l : loc) (q : string) (cs : bool) :
  (forall w, spec.tag_argument (chars q) = Some w ->
     performSearch l (String_ q) cs h
     = (Normal {| tasks := fresh (dom h); error := "" |},
        <[fresh (dom h) :=
            List.filter (fun t => String.eqb (tag t) (str w))
                        (default [] (h !! l))]> h))
  /\ (forall d, spec.tag_argument (chars q) = None ->
        spec.date_argument (chars q) = Some d ->
        performSearch l (String_ q) cs h
        = (Normal {| tasks := fresh (dom h); error := "" |},
           <[fresh (dom h) :=
               List.filter (fun t => String.eqb (dueDate t) (str d))
                           (default [] (h !! l))]> h)).
Proof.
  split.
  - intros w Hw. unfold performSearch. cbn [truthy].
    rewrite (chars_nonempty q (tag_argument_nonempty _ _ Hw)).
    rewrite parseQuery_is_classify. unfold spec.classify.
    rewrite (chars_nonempty q (tag_argument_nonempty _ _ Hw)), Hw.
    reflexivity.
  - intros d Hw Hd. unfold performSearch. cbn [truthy].
    rewrite (chars_nonempty q (date_argument_nonempty _ _ Hd)).
    rewrite parseQuery_is_classify. unfold spec.classify.
    rewrite (chars_nonempty q (date_argument_nonempty _ _ Hd)), Hw, Hd.
    reflexivity.
Qed.

Lemma performSearch_runs_the_commands_witness :
  performSearch 0 (String_ "@TAG:Academic") true
                (spec.store_of [spec.exam1; spec.exam2])
  = (Normal {| tasks := fresh (dom (spec.store_of [spec.exam1; spec.exam2]));
               error := "" |},
     <[fresh (dom (spec.store_of [spec.exam1; spec.exam2])) :=
         List.filter (fun t => String.eqb (tag t) (str (chars "Academic")))
           (default [] (spec.store_of [spec.exam1; spec.exam2] !! 0))]>
       (spec.store_of [spec.exam1; spec.exam2])).
Proof.
  apply (proj1 (performSearch_runs_the_commands
                  (spec.store_of [spec.exam1; spec.exam2]) 0
                  "@TAG:Academic" true)).
  vm_compute. reflexivity.
Defined.

(** ** Searching with a free pattern *)

(** Where a search from the start finds nothing, a search from further on
    finds nothing either. *)
Lemma scan_later m caps :
  forall k r p,
    scan m false caps p r = None -> k <= List.length r ->
    scan m false caps (rev (take k r) ++ p) (drop k r) = None.
Proof.
  induction k as [|k IH]; intros r p H Hk; [exact H|].
  destruct r as [|c r]; [cbn in Hk; lia|].
  rewrite scan_unfold in H.
  destruct (m {| prev := p; rest := c :: r; captures := caps |} Some);
    [discriminate H|].
  cbn [take drop rev]. rewrite <- app_assoc. apply IH; [exact H|].
  cbn in Hk. lia.
Qed.

(** A global expression that is not sticky passes [test] from some
    [lastIndex] only on a text it matches in. *)
Lemma test_from_later (R : RegExp) (k : nat) (s : string) :
  global (flags_of R) = true -> sticky (flags_of R) = false ->
  fst (test (set_lastIndex R k) s) = true -> matches_in R s = true.
Proof.
  intros Hg Hs. unfold matches_in, test, exec, uses_lastIndex.
  cbn [flags_of set_lastIndex lastIndex group_count regexp.pattern].
  rewrite Hg, Hs. cbn [orb].
  replace (List.length (chars s) <? 0)%nat with false
    by (symmetry; apply Nat.ltb_ge; lia).
  rewrite take_0, drop_0. cbn [rev].
  destruct (scan _ false _ [] (chars s)) as [[x y]|] eqn:E; [reflexivity|].
  destruct (List.length (chars s) <? k)%nat eqn:El; [discriminate|].
  apply Nat.ltb_ge in El.
  pose proof (scan_later _ _ k _ _ E El) as E'.
  rewrite app_nil_r in E'. now rewrite E'.
Qed.

(** [test] leaves the expression with some [lastIndex], and with 0 when
    it fails. *)
Lemma test_state (R : RegExp) (k : nat) (s : string) :
  global (flags_of R) = true ->
  exists k', snd (test (set_lastIndex R k) s) = set_lastIndex R k'
             /\ (fst (test (set_lastIndex R k) s) = false -> k' = 0).
Proof.
  intros Hg. unfold test, exec, uses_lastIndex.
  cbn [flags_of set_lastIndex lastIndex]. rewrite Hg. cbn [orb].
  destruct (_ <? _)%nat; [now exists 0|].
  destruct (scan _ _ _ _ _) as [[x y]|]; [|now exists 0].
  exists (end_index y). split; [reflexivity | discriminate].
Qed.

Lemma task_matches_state (fields : list field) (R : RegExp) (t : Task) :
  global (flags_of R) = true ->
  forall k, exists k',
    snd (task_matches fields t (set_lastIndex R k)) = set_lastIndex R k'.
Proof.
  intros Hg. unfold task_matches.
  induction fields as [|f fields IH]; intros k; cbn [array_some];
    [now exists k|].
  destruct (test_state R k (get t f) Hg) as (k' & Hk & _).
  destruct (test (set_lastIndex R k) (get t f)) as [b R']. cbn [snd] in Hk.
  subst R'. destruct b; [now exists k'|]. apply IH.
Qed.

(** A task the callback keeps has a field the expression matches in. *)
Lemma task_matches_sound (fields : list field) (R : RegExp) (t : Task) :
  global (flags_of R) = true -> sticky (flags_of R) = false ->
  forall k, fst (task_matches fields t (set_lastIndex R k)) = true ->
            task_has_match fields R t = true.
Proof.
  intros Hg Hs. unfold task_matches, task_has_match.
  induction fields as [|f fields IH]; intros k H; cbn [array_some existsb] in *;
    [discriminate|].
  destruct (test_state R k (get t f) Hg) as (k' & Hk & _).
  pose proof (test_from_later R k (get t f) Hg Hs) as Hl.
  destruct (test (set_lastIndex R k) (get t f)) as [b R']. cbn [fst snd] in *.
  subst R'. destruct b.
  - now rewrite Hl.
  - rewrite (IH k' H). apply orb_true_r.
Qed.

(** From [lastIndex] 0 the callback judges a task as the fields say. *)
Lemma task_matches_fresh (fields : list field) (R : RegExp) (t : Task) :
  global (flags_of R) = true ->
  fst (task_matches fields t (set_lastIndex R 0)) = task_has_match fields R t
  /\ (task_has_match fields R t = false ->
      snd (task_matches fields t (set_lastIndex R 0)) = set_lastIndex R 0).
Proof.
  intros Hg. unfold task_matches, task_has_match.
  induction fields as [|f fields IH]; cbn [array_some existsb];
    [now split|].
  unfold matches_in at 1 3.
  destruct (test_state R 0 (get t f) Hg) as (k' & Hk & H0).
  destruct (test (set_lastIndex R 0) (get t f)) as [b R']. cbn [fst snd] in *.
  subst R'. destruct b; cbn [orb]; [split; [reflexivity | discriminate]|].
  rewrite (H0 eq_refl). exact IH.
Qed.

Lemma array_filter_sound (fields : list field) (R : RegExp) :
  global (flags_of R) = true -> sticky (flags_of R) = false ->
  forall ts k,
    forallb (task_has_match fields R)
            (fst (array_filter (task_matches fields) ts (set_lastIndex R k)))
    = true.
Proof.
  intros Hg Hs. induction ts as [|t ts IH]; intros k; cbn [array_filter];
    [reflexivity|].
  destruct (task_matches_state fields R t Hg k) as (k' & Hk).
  pose proof (task_matches_sound fields R t Hg Hs k) as Ht.
  destruct (task_matches fields t (set_lastIndex R k)) as [b R'].
  cbn [fst snd] in *. subst R'. specialize (IH k').
  destruct (array_filter _ ts _) as [kept R'']. cbn [fst] in *.
  destruct b; [|exact IH]. cbn [forallb]. now rewrite Ht, IH.
Qed.

Lemma array_filter_first (fields : list field) (R : RegExp) :
  global (flags_of R) = true ->
  forall ts,
    head (fst (array_filter (task_matches fields) ts (set_lastIndex R 0)))
    = head (List.filter (task_has_match fields R) ts).
Proof.
  intros Hg. induction ts as [|t ts IH]; cbn [array_filter List.filter];
    [reflexivity|].
  destruct (task_matches_fresh fields R t Hg) as [Hb Hr].
  destruct (task_matches fields t (set_lastIndex R 0)) as [b R'].
  cbn [fst snd] in *. subst b.
  destruct (task_has_match fields R t).
  - now destruct (array_filter _ ts R').
  - rewrite (Hr eq_refl).
    now destruct (array_filter _ ts (set_lastIndex R 0)).
Qed.

Lemma search_flags (cs : bool) :
  parse_flags (chars (if cs then "g" else "gi")) no_flags
  = Normal {| hasIndices := false; global := true; ignoreCase := negb cs;
              multiline := false; dotAll := false; sticky := false |}.
Proof. now destruct cs. Qed.

(** X11: for a query that is no command and compiles, [performSearch]
    returns, in a new array and in their order, tasks of which each has a
    field the expression matches in; the first task of the list that has
    such a field is always the first one returned, so that an empty
    result means that no task matches. *)
Theorem performSearch_free_pattern_is_sound
  (h : heap) (l : loc) (q : string) (cs : bool) (R : RegExp) :
  q <> "" ->
  spec.tag_argument (chars q) = None ->
  spec.date_argument (chars q) = None ->
  RegExp_new q (if cs then "g" else "gi") = Normal R ->
  exists kept,
    performSearch l (String_ q) cs h
    = (Normal {| tasks := fresh (dom h); error := "" |},
       <[fresh (dom h) := kept]> h)
    /\ sublist kept (default [] (h !! l))
    /\ forallb (task_has_match default_fields R) kept = true
    /\ head kept
       = head (List.filter (task_has_match default_fields R)
                           (default [] (h !! l))).
Proof.
  intros Hq Ht Hd HR.
  destruct (RegExp_new_flags _ _ _ HR) as [Hfl Hl].
  rewrite search_flags in Hfl. injection Hfl as Hfl.
  assert (Hg : global (flags_of R) = true) by now rewrite <- Hfl.
  assert (Hs : sticky (flags_of R) = false) by now rewrite <- Hfl.
  assert (H0 : R = set_lastIndex R 0)
    by (destruct R; cbn in Hl; now rewrite Hl).
  unfold performSearch. rewrite (truthy_string q Hq). cbn [negb].
  rewrite parseQuery_is_classify. unfold spec.classify.
  rewrite (proj2 (String.eqb_neq _ _) Hq), Ht, Hd. cbn [truthy].
  unfold validators.compileRegex. cbn [default from_option id].
  rewrite (truthy_string q Hq). cbn [negb]. unfold Datatypes.id. rewrite HR.
  unfold searchTasks, bind, elements, ret, new_array.
  pose proof (array_filter_sublist (task_matches default_fields)
                (default [] (h !! l)) R) as H1.
  pose proof (array_filter_sound default_fields R Hg Hs
                (default [] (h !! l)) 0) as H2.
  pose proof (array_filter_first default_fields R Hg
                (default [] (h !! l))) as H3.
  rewrite <- H0 in H2, H3.
  destruct (array_filter _ (default [] (h !! l)) R) as [kept R'].
  cbn [fst] in *. exists kept. now repeat split.
Qed.

Lemma performSearch_free_pattern_is_sound_witness :
  exists kept,
    performSearch 0 (String_ "exam") false
                  (spec.store_of [spec.exam1; spec.exam2])
    = (Normal {| tasks := fresh (dom (spec.store_of [spec.exam1; spec.exam2]));
                 error := "" |},
       <[fresh (dom (spec.store_of [spec.exam1; spec.exam2])) := kept]>
         (spec.store_of [spec.exam1; spec.exam2]))
    /\ sublist kept
         (default [] (spec.store_of [spec.exam1; spec.exam2] !! 0))
    /\ forallb (task_has_match default_fields (literal "exam" "gi")) kept
       = true
    /\ head kept
       = head (List.filter (task_has_match default_fields (literal "exam" "gi"))
                 (default [] (spec.store_of [spec.exam1; spec.exam2] !! 0))).
Proof.
  apply (performSearch_free_pattern_is_sound
           (spec.store_of [spec.exam1; spec.exam2]) 0 "exam" false
           (literal "exam" "gi")).
  - discriminate.
  - vm_compute. reflexivity.
  - vm_compute. reflexivity.
  - vm_compute. reflexivity.
Defined.

(** ** Validating a pattern before searching *)

Lemma RegExp_new_any_flags (q f : string) (fl : flags) :
  parse_flags (chars f) no_flags = Normal fl ->
  match RegExp_new q f with
  | Normal _ => exists r, parse_pattern q = Normal r
  | Throw _ => exists m, parse_pattern q = Throw m
  end.
Proof.
  intros Hf. unfold RegExp_new. rewrite Hf.
  destruct (parse_pattern q) as [[r n]|m]; eauto.
Qed.

(** X12: a query [validatePattern] accepts never makes [performSearch]
    report an error, whatever the case-sensitivity setting; and a query
    that is no command and that [validatePattern] rejects makes it report
    one and return no task. *)
Theorem validatePattern_foretells_performSearch
  (h : heap) (l : loc) (q : string) (cs : bool) :
  (pattern_valid (validatePattern (String_ q)) = true ->
   exists r, fst (performSearch l (String_ q) cs h) = Normal r
             /\ error r = "")
  /\ (pattern_valid (validatePattern (String_ q)) = false ->
      spec.tag_argument (chars q) = None ->
      spec.date_argument (chars q) = None ->
      exists r, performSearch l (String_ q) cs h
                = (Normal r, <[tasks r := []]> h)
                /\ error r <> "" /\ h !! tasks r = None).
Proof.
  unfold performSearch. cbn [truthy].
  destruct (String.eqb q "") eqn:Hq; cbn [negb].
  { split; [eexists; split; reflexivity|]. unfold validatePattern.
    cbn [truthy]. rewrite Hq. discriminate. }
  rewrite parseQuery_is_classify. unfold spec.classify. rewrite Hq.
  destruct (spec.tag_argument (chars q));
    [|destruct (spec.date_argument (chars q))];
    cbn [truthy negb String.eqb]; unfold bind, ret.
  - split; [|discriminate]. intros _.
    destruct (applyCommand l _ _ h). eexists. split; reflexivity.
  - split; [|discriminate]. intros _.
    destruct (applyCommand l _ _ h). eexists. split; reflexivity.
  - unfold validatePattern, validators.compileRegex.
    cbn [truthy default from_option]. unfold Datatypes.id.
    rewrite Hq. cbn [negb].
    pose proof (RegExp_new_any_flags q "i" _ eq_refl) as Hi.
    pose proof (RegExp_new_any_flags q _ _ (search_flags cs)) as Hs.
    destruct (RegExp_new q "i") as [Ri|mi];
      destruct (RegExp_new q (if cs then "g" else "gi")) as [Rs|ms];
      destruct Hi as [ri Hi]; destruct Hs as [rs Hs]; try congruence;
      cbn [pattern_valid].
    + split; [|discriminate]. intros _.
      cbn [searchTasks]. unfold bind, elements, ret, new_array.
      destruct (array_filter _ _ _). eexists. split; reflexivity.
    + split; [discriminate|]. intros _ _ _.
      unfold new_array.
      exists {| tasks := fresh (dom h); error := "Invalid regex: " ++ ms |}.
      split; [reflexivity|].
      cbn [error tasks]. split; [discriminate|].
      apply not_elem_of_dom, is_fresh.
Qed.

Lemma validatePattern_foretells_performSearch_witness :
  (exists r, fst (performSearch 0 (String_ "ex.m") true
                    (spec.store_of [spec.exam1])) = Normal r
             /\ error r = "")
  /\ (exists r, performSearch 0 (String_ "ex(m") true
                  (spec.store_of [spec.exam1])
                = (Normal r, <[tasks r := []]> (spec.store_of [spec.exam1]))
                /\ error r <> "" /\ spec.store_of [spec.exam1] !! tasks r = None).
Proof.
  split.
  - apply (proj1 (validatePattern_foretells_performSearch
                    (spec.store_of [spec.exam1]) 0 "ex.m" true)).
    vm_compute. reflexivity.
  - apply (proj2 (validatePattern_foretells_performSearch
                    (spec.store_of [spec.exam1]) 0 "ex(m" true));
      vm_compute; reflexivity.
Defined.

(** ** Suggestions *)

Lemma unique_spec (l seen : list string) (t : string) :
  In t (unique seen l) <-> In t l /\ ~ In t seen.
Proof.
  revert seen. induction l as [|a l IH]; intros seen; cbn [unique In].
  - tauto.
  - destruct (existsb (String.eqb a) seen) eqn:E.
    + apply existsb_exists in E as (b & Hb & Eb). apply String.eqb_eq in Eb.
      subst b. rewrite IH. split; [tauto|]. intros [[<-|H] Hn]; tauto.
    + assert (Ha : ~ In a seen).
      { intros Ha. apply not_true_iff_false in E. apply E.
        apply existsb_exists. exists a. split; [exact Ha|].
        apply String.eqb_refl. }
      cbn [In]. rewrite IH. cbn [In]. split.
      * intros [<-|[H Hn]]; [tauto|]. split; [tauto|]. tauto.
      * intros [[<-|H] Hn]; [tauto|].
        destruct (String.eqb_spec a t) as [->|Hne]; [tauto|]. right. tauto.
Qed.

(** X13: every tag of a task gets a suggestion [@tag:<tag>], and only such
    tags do; as a query, the suggestion is the tag command for that tag
    exactly when the tag is one word of letters, digits and underscores,
    and a free pattern otherwise, as for the tags with a space or a
    hyphen that [validateTag] accepts. *)
Theorem tag_suggestions_are_commands_for_single_words
  (today : string) (ts : list Task) (t : string) :
  (In t (map tag ts)
   <-> In {| suggestion_type := "tag";
             suggestion_text := "@tag:" ++ t;
             suggestion_label := "Filter by tag: " ++ t;
             suggestion_pattern := "@tag:" ++ t |}
          (getSuggestions today ts))
  /\ parseQuery (String_ ("@tag:" ++ t))
     = Normal (if negb (String.eqb t "") && forallb is_word_char (chars t)
               then {| command := Some "tag"; pattern := String_ t |}
               else {| command := None;
                       pattern := String_ ("@tag:" ++ t) |}).
Proof.
  split.
  - unfold getSuggestions. rewrite in_app_iff. cbn [In]. split.
    + intros H. left. apply in_map_iff. exists t. split; [reflexivity|].
      apply unique_spec. split; [exact H | intros H'; exact H'].
    + intros [H|[E|[E|[]]]]; try discriminate E.
      apply in_map_iff in H as (t' & E & H).
      injection E as E _. apply String.app_inj in E. subst t'.
      now apply unique_spec in H.
  - rewrite parseQuery_is_classify. unfold spec.classify.
    change (String.eqb ("@tag:" ++ t) "") with false. cbv match.
    rewrite chars_append. unfold spec.tag_argument, spec.date_argument.
    change (spec.strip_prefix spec.same_ignoring_case (chars "@tag:")
              (chars "@tag:" ++ chars t)) with (Some (chars t)).
    change (spec.strip_prefix Ascii.eqb (chars "@date:")
              (chars "@tag:" ++ chars t)) with (@None (list ascii)).
    cbv match.
    assert (E : (1 <=? List.length (chars t))%nat = negb (String.eqb t ""))
      by now destruct t.
    rewrite E. destruct (_ && _); [|reflexivity].
    now rewrite string_of_list_ascii_of_string.
Qed.

(** ** Sorting *)



Section sorting.

Context {A : Type} (compare : A -> A -> Z).

(** [x] has to come after [y]. *)
Let after (x y : A) : bool := (0 <? compare x y)%Z.

Hypothesis after_asymmetric :
  forall x y, after x y = true -> after y x = false.




End sorting.




(** ** The task list of the page *)

Section filtering_by_text.

Context (R : RegExp) (text : Task -> string).
Hypothesis R_global : global (flags_of R) = true.

Let callback (task : Task) (R : RegExp) : bool * RegExp :=
  test R (text task).

Lemma text_filter_state (ts : list Task) (k : nat) :
  exists k', snd (array_filter callback ts (set_lastIndex R k))
             = set_lastIndex R k'.
Proof.
  revert k. induction ts as [|t ts IH]; intros k; cbn [array_filter];
    [now exists k|].
  unfold callback at 1.
  destruct (test_state R k (text t) R_global) as (k' & Hk & _).
  destruct (test (set_lastIndex R k) (text t)) as [b R']. cbn [snd] in Hk.
  subst R'. destruct (IH k') as (k'' & Hk'').
  destruct (array_filter callback ts (set_lastIndex R k')) as [kept R''].
  now exists k''.
Qed.

Lemma text_filter_sound (ts : list Task) (k : nat) :
  sticky (flags_of R) = false ->
  forallb (fun t => matches_in R (text t))
          (fst (array_filter callback ts (set_lastIndex R k))) = true.
Proof.
  intros Hs. revert k. induction ts as [|t ts IH]; intros k;
    cbn [array_filter]; [reflexivity|].
  unfold callback at 1.
  destruct (test_state R k (text t) R_global) as (k' & Hk & _).
  pose proof (test_from_later R k (text t) R_global Hs) as Hl.
  destruct (test (set_lastIndex R k) (text t)) as [b R']. cbn [fst snd] in *.
  subst R'. specialize (IH k').
  destruct (array_filter callback ts (set_lastIndex R k')) as [kept R''].
  cbn [fst] in *. destruct b; [|exact IH]. cbn [forallb]. now rewrite Hl, IH.
Qed.

Lemma text_filter_first (ts : list Task) :
  head (fst (array_filter callback ts (set_lastIndex R 0)))
  = head (List.filter (fun t => matches_in R (text t)) ts).
Proof.
  induction ts as [|t ts IH]; cbn [array_filter List.filter]; [reflexivity|].
  unfold callback at 1. unfold matches_in at 1.
  destruct (test_state R 0 (text t) R_global) as (k' & Hk & H0).
  destruct (test (set_lastIndex R 0) (text t)) as [b R']. cbn [fst snd] in *.
  subst R'. destruct b.
  - now destruct (array_filter callback ts (set_lastIndex R k')).
  - rewrite (H0 eq_refl).
    now destruct (array_filter callback ts (set_lastIndex R 0)).
Qed.

End filtering_by_text.

(** X15: after [setSearchQuery], [getFilteredTasks] shows every task,
    sorted, when the query is empty or does not compile; when it
    compiles, it shows, sorted, tasks of the list of which each matches
    in its title, tag and date joined by spaces, the first task that
    matches always among them.  The tasks of the state are left as they
    are; the expression is left with the [lastIndex] of its last
    test. *)
Theorem getFilteredTasks_after_setSearchQuery
  (s0 : state.AppState) (q : string) (cs : bool) :
  let s := state.setSearchQuery q cs s0 in
  ((q = "" \/ exists m, RegExp_new q (if cs then "g" else "gi") = Throw m) ->
   state.getFilteredTasks s
   = (utils.sortBy (state.tasks s0) (state.sortBy s0) (state.sortOrder s0),
      s))
  /\ (forall R,
        q <> "" -> RegExp_new q (if cs then "g" else "gi") = Normal R ->
        exists kept i,
          state.getFilteredTasks s
          = (utils.sortBy kept (state.sortBy s0) (state.sortOrder s0),
             {| state.tasks := state.tasks s0;
                state.searchQuery := q;
                state.searchRegex := Some (set_lastIndex R i);
                state.caseSensitive := cs;
                state.sortBy := state.sortBy s0;
                state.sortOrder := state.sortOrder s0 |})
          /\ sublist kept (state.tasks s0)
          /\ forallb (fun t => matches_in R (state.searchText t)) kept = true
          /\ head kept
             = head (List.filter
                       (fun t => matches_in R (state.searchText t))
                       (state.tasks s0))).
Proof.
  intros s. unfold s, state.setSearchQuery, state.getFilteredTasks,
    validators.compileRegex.
  cbn [state.searchRegex state.tasks state.sortBy state.sortOrder
       state.searchQuery state.caseSensitive truthy default from_option
       validators.regex].
  unfold Datatypes.id. split.
  - intros [->|[m Hm]]; [reflexivity|].
    destruct (String.eqb q ""); cbn [negb]; [reflexivity|].
    now rewrite Hm.
  - intros R Hq HR.
    rewrite (proj2 (String.eqb_neq _ _) Hq). cbn [negb]. rewrite HR.
    cbn [validators.regex].
    destruct (RegExp_new_flags _ _ _ HR) as [Hfl Hl].
    rewrite search_flags in Hfl. injection Hfl as Hfl.
    assert (Hg : global (flags_of R) = true) by now rewrite <- Hfl.
    assert (Hs : sticky (flags_of R) = false) by now rewrite <- Hfl.
    assert (H0 : R = set_lastIndex R 0)
      by (destruct R; cbn in Hl; now rewrite Hl).
    pose proof (array_filter_sublist
                  (fun task R => test R (state.searchText task))
                  (state.tasks s0) R) as H1.
    pose proof (text_filter_sound R state.searchText Hg
                  (state.tasks s0) 0 Hs) as H2.
    pose proof (text_filter_first R state.searchText Hg (state.tasks s0))
      as H3.
    destruct (text_filter_state R state.searchText Hg (state.tasks s0) 0)
      as (i & Hi).
    rewrite <- H0 in H2, H3, Hi.
    destruct (array_filter _ (state.tasks s0) R) as [kept R'].
    cbn [fst snd] in *. subst R'. exists kept, i. now repeat split.
Qed.

Lemma getFilteredTasks_after_setSearchQuery_witness :
  state.getFilteredTasks (state.setSearchQuery "ex(m" false spec.sample_state)
  = (utils.sortBy (state.tasks spec.sample_state)
       (state.sortBy spec.sample_state) (state.sortOrder spec.sample_state),
     state.setSearchQuery "ex(m" false spec.sample_state)
  /\ exists kept i,
       state.getFilteredTasks
         (state.setSearchQuery "exam" false spec.sample_state)
       = (utils.sortBy kept (state.sortBy spec.sample_state)
            (state.sortOrder spec.sample_state),
          {| state.tasks := state.tasks spec.sample_state;
             state.searchQuery := "exam";
             state.searchRegex := Some (set_lastIndex (literal "exam" "gi") i);
             state.caseSensitive := false;
             state.sortBy := state.sortBy spec.sample_state;
             state.sortOrder := state.sortOrder spec.sample_state |})
       /\ sublist kept (state.tasks spec.sample_state)
       /\ forallb (fun t => matches_in (literal "exam" "gi")
                                       (state.searchText t)) kept = true
       /\ head kept
          = head (List.filter
                    (fun t => matches_in (literal "exam" "gi")
                                         (state.searchText t))
                    (state.tasks spec.sample_state)).
Proof.
  split.
  - apply (proj1 (getFilteredTasks_after_setSearchQuery
                    spec.sample_state "ex(m" false)).
    right. eexists. vm_compute. reflexivity.
  - apply (proj2 (getFilteredTasks_after_setSearchQuery
                    spec.sample_state "exam" false)).
    + discriminate.
    + vm_compute. reflexivity.
Defined.

(** ** Formatting a date *)

Lemma checked_on_range (P : nat -> bool) (lo n : nat) :
  forallb P (seq lo n) = true -> forall k, lo <= k < lo + n -> P k = true.
Proof.
  intros H k Hk. rewrite forallb_forall in H. apply H, in_seq. exact Hk.
Qed.

Lemma year_text (y : Z) :
  (1000 <= y <= 9999)%Z -> shapes.four_digits (chars (pretty y)) = true.
Proof.
  intros Hy.
  assert (H : forallb
                (fun i => forallb
                   (fun j => shapes.four_digits
                      (chars (pretty (1000 + 100 * Z.of_nat i + Z.of_nat j)%Z)))
                   (seq 0 100))
                (seq 0 90) = true) by (vm_compute; reflexivity).
  pose proof (checked_on_range _ _ _ H (Z.to_nat ((y - 1000) / 100))) as Hi.
  cbv beta in Hi.
  assert (Hq : (0 <= (y - 1000) / 100 < 90)%Z)
    by (split; [apply Z.div_pos | apply Z.div_lt_upper_bound]; lia).
  pose proof (Z.mod_pos_bound (y - 1000) 100 ltac:(lia)) as Hr.
  pose proof (checked_on_range _ _ _ (Hi ltac:(lia))
                (Z.to_nat ((y - 1000) mod 100))) as Hj.
  cbv beta in Hj. rewrite !Z2Nat.id in Hj by lia.
  replace (1000 + 100 * ((y - 1000) / 100) + (y - 1000) mod 100)%Z with y
    in Hj by (rewrite <- Z.add_assoc, <- Z.div_mod; lia).
  apply Hj. lia.
Qed.

Lemma month_text (m : nat) :
  m < 12 ->
  shapes.two_digits_in 1 12 (chars (utils.padStart 2 "0" (pretty (m + 1)))) = true.
Proof.
  intros Hm.
  assert (H : forallb (fun k => shapes.two_digits_in 1 12
                         (chars (utils.padStart 2 "0" (pretty (k + 1)))))
                      (seq 0 12) = true) by (vm_compute; reflexivity).
  apply (checked_on_range _ _ _ H m). lia.
Qed.

Lemma day_text (d : nat) :
  1 <= d <= 31 ->
  shapes.two_digits_in 1 31 (chars (utils.padStart 2 "0" (pretty d))) = true.
Proof.
  intros Hd.
  assert (H : forallb (fun k => shapes.two_digits_in 1 31
                         (chars (utils.padStart 2 "0" (pretty k))))
                      (seq 1 31) = true) by (vm_compute; reflexivity).
  apply (checked_on_range _ _ _ H d). lia.
Qed.

(** X16: for a date whose year has four digits, [formatDate] gives a text
    that [patterns.date] accepts, the first layer of [validateDate]. *)
Theorem formatDate_passes_the_date_pattern (d : utils.DateFields) :
  (1000 <= utils.fullYear d <= 9999)%Z ->
  utils.month d < 12 ->
  1 <= utils.day d <= 31 ->
  fst (test validators.patterns.date
            (utils.formatDate (utils.DateObject (Some d)))) = true.
Proof.
  intros Hy Hm Hd. rewrite date_pattern_matches. cbn [utils.formatDate].
  rewrite !chars_append.
  pose proof (year_text _ Hy) as H1. pose proof (month_text _ Hm) as H2.
  pose proof (day_text _ Hd) as H3.
  destruct (chars (pretty (utils.fullYear d))) as [|a [|b [|c [|e [|]]]]];
    try discriminate H1.
  destruct (chars (utils.padStart 2 "0" (pretty (utils.month d + 1))))
    as [|m1 [|m2 [|]]]; try discriminate H2.
  destruct (chars (utils.padStart 2 "0" (pretty (utils.day d))))
    as [|d1 [|d2 [|]]]; try discriminate H3.
  cbn [shapes.four_digits shapes.two_digits_in] in H1, H2, H3.
  cbn [app chars list_ascii_of_string spec.is_iso_date].
  rewrite H1, H2, H3. reflexivity.
Qed.

Lemma formatDate_passes_the_date_pattern_witness :
  fst (test validators.patterns.date
         (utils.formatDate
            (utils.DateObject
               (Some {| utils.fullYear := 2025; utils.month := 8;
                        utils.day := 29 |})))) = true.
Proof.
  apply formatDate_passes_the_date_pattern; cbn; lia.
Defined.
(** ** The duration the page stores *)

Lemma parseFloat_number_prefix (s : string) :
  validators.parseFloat s = number_prefix (trim_start (chars s)).
Proof.
  unfold validators.parseFloat, number_prefix.
  generalize (trim_start (chars s)) as cs. intros cs.
  assert (E1 : match cs with
               | "-"%char :: r => (true, r)
               | "+"%char :: r => (false, r)
               | _ => (false, cs)
               end
               = match cs with
                 | c :: r => if Ascii.eqb c "-" then (true, r)
                             else if Ascii.eqb c "+" then (false, r)
                             else (false, cs)
                 | [] => (false, cs)
                 end).
  { destruct cs as [|[[] [] [] [] [] [] [] []] r]; reflexivity. }
  rewrite E1. clear E1.
  destruct (match cs with [] => _ | _ => _ end) as [neg cs1].
  destruct (validators.digits_value 0 cs1) as [[int ki] cs2].
  assert (E2 : match cs2 with
               | "."%char :: r =>
                   let '(v, k, _) := validators.digits_value int r in (v, k)
               | _ => (int, 0)
               end
               = match cs2 with
                 | c :: r =>
                     if Ascii.eqb c "."
                     then let '(v, k, _) := validators.digits_value int r in
                          (v, k)
                     else (int, 0)
                 | [] => (int, 0)
                 end).
  { destruct cs2 as [|[[] [] [] [] [] [] [] []] r]; reflexivity. }
  now rewrite E2.
Qed.

Lemma digits_value_app (l ws : list ascii) :
  match ws with c :: _ => is_digit c = false | [] => True end ->
  forall acc,
    validators.digits_value acc (l ++ ws)
    = let '(v, k, r) := validators.digits_value acc l in (v, k, r ++ ws).
Proof.
  intros Hws. induction l as [|c l IH]; intros acc.
  - cbn [app validators.digits_value]. destruct ws as [|c ws]; [reflexivity|].
    cbn [validators.digits_value]. now rewrite Hws.
  - cbn [app validators.digits_value].
    destruct (is_digit c); [|reflexivity].
    rewrite IH. now destruct (validators.digits_value _ l) as [[v k] r].
Qed.

Lemma space_is_no_numeral (c : ascii) :
  is_space c = true ->
  is_digit c = false /\ Ascii.eqb c "-" = false /\ Ascii.eqb c "+" = false
  /\ Ascii.eqb c "." = false.
Proof.
  revert c.
  assert (H : forall c,
             implb (is_space c)
                   (negb (is_digit c) && negb (Ascii.eqb c "-")
                    && negb (Ascii.eqb c "+") && negb (Ascii.eqb c "."))
             = true)
    by (apply for_all_chars; vm_compute; reflexivity).
  intros c Hc. specialize (H c). rewrite Hc in H. cbn [implb] in H.
  rewrite !andb_true_iff, !negb_true_iff in H. tauto.
Qed.

(** White space after a numeral does not change what is read. *)
Lemma number_prefix_app (l ws : list ascii) :
  l <> [] -> forallb is_space ws = true ->
  number_prefix (l ++ ws) = number_prefix l.
Proof.
  intros Hl Hws.
  assert (Hd : match ws with c :: _ => is_digit c = false | [] => True end).
  { destruct ws as [|c ws]; [exact I|]. cbn in Hws.
    apply andb_prop in Hws as [Hc _]. now apply space_is_no_numeral. }
  assert (Hp : match ws with
               | c :: _ => Ascii.eqb c "." = false
               | [] => True
               end).
  { destruct ws as [|c ws]; [exact I|]. cbn in Hws.
    apply andb_prop in Hws as [Hc _]. now apply space_is_no_numeral. }
  unfold number_prefix. destruct l as [|c l]; [congruence|]. cbn [app].
  assert (E : forall cs1 : list ascii,
    (let '(int, ki, cs2) := validators.digits_value 0 (cs1 ++ ws) in
     (match cs2 with
      | c :: r => if Ascii.eqb c "."
                  then let '(v, k, _) := validators.digits_value int r in
                       (v, k)
                  else (int, 0%nat)
      | [] => (int, 0%nat)
      end, ki))
    = (let '(int, ki, cs2) := validators.digits_value 0 cs1 in
       (match cs2 with
        | c :: r => if Ascii.eqb c "."
                    then let '(v, k, _) := validators.digits_value int r in
                         (v, k)
                    else (int, 0%nat)
        | [] => (int, 0%nat)
        end, ki))).
  { intros cs1. rewrite (digits_value_app cs1 ws Hd).
    destruct (validators.digits_value 0 cs1) as [[int ki] cs2].
    f_equal. destruct cs2 as [|d r]; cbn [app].
    - destruct ws as [|w ws]; [reflexivity|]. now rewrite Hp.
    - destruct (Ascii.eqb d "."); [|reflexivity].
      rewrite (digits_value_app r ws Hd).
      now destruct (validators.digits_value int r) as [[v k] r']. }
  assert (F : forall neg (cs1 : list ascii),
    (let '(int, ki, cs2) := validators.digits_value 0 (cs1 ++ ws) in
     let '(num, kf) :=
       match cs2 with
       | c :: r => if Ascii.eqb c "."
                   then let '(v, k, _) := validators.digits_value int r in
                        (v, k)
                   else (int, 0%nat)
       | [] => (int, 0%nat)
       end in
     if ((ki + kf)%nat =? 0)%nat then None
     else Some (if neg : bool
                then Qopp (Qmake (Z.of_N num)
                                 (Nat.iter kf (Pos.mul 10) 1%positive))
                else Qmake (Z.of_N num)
                           (Nat.iter kf (Pos.mul 10) 1%positive)))
    = (let '(int, ki, cs2) := validators.digits_value 0 cs1 in
       let '(num, kf) :=
         match cs2 with
         | c :: r => if Ascii.eqb c "."
                     then let '(v, k, _) := validators.digits_value int r in
                          (v, k)
                     else (int, 0%nat)
         | [] => (int, 0%nat)
         end in
       if ((ki + kf)%nat =? 0)%nat then None
       else Some (if neg : bool
                  then Qopp (Qmake (Z.of_N num)
                                   (Nat.iter kf (Pos.mul 10) 1%positive))
                  else Qmake (Z.of_N num)
                             (Nat.iter kf (Pos.mul 10) 1%positive)))).
  { intros neg cs1. specialize (E cs1).
    destruct (validators.digits_value 0 (cs1 ++ ws)) as [[int ki] cs2].
    destruct (validators.digits_value 0 cs1) as [[int' ki'] cs2'].
    injection E as E1 E2. subst ki'. now rewrite E1. }
  destruct (Ascii.eqb c "-"); [exact (F true l)|].
  destruct (Ascii.eqb c "+"); [exact (F false l)|].
  exact (F false (c :: l)).
Qed.

Lemma trim_end_split (l : list ascii) :
  exists ws, l = trim_end l ++ ws /\ forallb is_space ws = true.
Proof.
  unfold trim_end.
  assert (H : forall r : list ascii,
             exists ws, r = rev ws ++ drop_while is_space r
                        /\ forallb is_space ws = true).
  { induction r as [|c r IH]; [now exists []|]. cbn [drop_while].
    destruct (is_space c) eqn:E; [|now exists []].
    destruct IH as (ws & Hr & Hw). exists (ws ++ [c]). split.
    - rewrite rev_app_distr. cbn [rev app]. now rewrite <- Hr.
    - rewrite forallb_app, Hw. cbn. now rewrite E. }
  destruct (H (rev l)) as (ws & Hr & Hw). exists ws. split; [|exact Hw].
  apply (f_equal (@rev _)) in Hr.
  now rewrite rev_involutive, rev_app_distr, rev_involutive in Hr.
Qed.

(** [parseFloat] reads the same number from a text and from its trimmed
    form. *)
Lemma parseFloat_trim (s : string) :
  validators.parseFloat (trim s) = validators.parseFloat s.
Proof.
  rewrite !parseFloat_number_prefix, chars_trim.
  set (l := trim_start (chars s)).
  assert (Hi : trim_start (trim_end l) = trim_end l).
  { destruct (trimmed_ends (chars s)) as [E|(a & r & E & Ha & _)];
      fold l in E; rewrite E; [reflexivity|].
    unfold trim_start. now apply drop_while_head. }
  rewrite Hi. destruct (trim_end_split l) as (ws & Hl & Hw).
  destruct (trim_end l) as [|a r] eqn:E.
  - cbn [app] in Hl. destruct ws as [|w ws]; [now rewrite Hl|].
    exfalso. cbn in Hw. apply andb_prop in Hw as [Hw _].
    destruct (trim_start_head (chars s)) as [E'|(a & l' & E' & Ha)];
      fold l in E'; rewrite E' in Hl; [discriminate|].
    injection Hl as -> _. congruence.
  - rewrite Hl. symmetry. now apply number_prefix_app.
Qed.

(** X17: when [validateDuration] accepts the text of the duration field,
    the number the page stores for the task, [parseFloat] of the text as
    it was typed, is a number between 0 and 10000. *)
Theorem accepted_duration_is_stored_in_range (s : string) :
  validators.validateDuration (String_ s) = validators.ok ->
  exists q, validators.parseFloat s = Some q
            /\ (0 <= q)%Q /\ (q <= 10000)%Q.
Proof.
  unfold validators.validateDuration.
  rewrite duration_pattern_matches, parseFloat_trim.
  destruct (negb (truthy (String_ s))); [discriminate|].
  destruct (jslength (trim s) =? 0)%nat; [discriminate|].
  destruct (duration_shape (chars (trim s))) eqn:E; [|discriminate].
  cbn [negb]. destruct (chars (trim s)) as [|c r] eqn:Ec; [discriminate E|].
  destruct (parseFloat_digit c r (duration_shape_digit c r E))
    as (num & den & Hp).
  rewrite <- Ec, string_of_list_ascii_of_string, parseFloat_trim in Hp.
  rewrite Hp, num_lt_zero. unfold validators.num_lt.
  destruct (Qle_bool (Z.of_N num # den) 10000) eqn:Q; [|discriminate].
  intros _. eexists. split; [reflexivity|]. split.
  - unfold Qle. cbn. lia.
  - now apply Qle_bool_iff.
Qed.

Lemma accepted_duration_is_stored_in_range_witness :
  exists q, validators.parseFloat " 12.5 " = Some q
            /\ (0 <= q)%Q /\ (q <= 10000)%Q.
Proof.
  apply (accepted_duration_is_stored_in_range " 12.5 ").
  vm_compute. reflexivity.
Defined.

(** ** The repeated word *)

Lemma greedy_run_longest_at acc c caps :
  (forall p ch r, acc ch = true ->
     c {| prev := p; rest := ch :: r; captures := caps |} = None) ->
  forall r p min,
    greedy_run acc c min p r caps =
    if (min <=? List.length (take_while acc r))%nat
    then c {| prev := rev (take_while acc r) ++ p;
              rest := drop_while acc r; captures := caps |}
    else None.
Proof.
  intros Hc r. induction r as [|ch r IH]; intros p min;
    cbn [greedy_run take_while drop_while List.length rev app].
  - now destruct min.
  - destruct (acc ch) eqn:E.
    + rewrite IH. cbn [List.length rev]. rewrite <- app_assoc. cbn [app].
      destruct min as [|min]; cbn [pred Nat.leb Nat.eqb].
      * destruct (c _); [reflexivity|]. now apply Hc.
      * now destruct (_ <=? _)%nat; [destruct (c _)|].
    + cbn. now destruct min.
Qed.

Lemma space_class fl ch :
  set_has fl (class_mem [ClassEsc Esc_s]) ch = is_space ch.
Proof.
  unfold set_has. destruct (ignoreCase fl).
  - apply eqb_prop. revert ch. apply for_all_chars. vm_compute. reflexivity.
  - cbn. apply orb_false_r.
Qed.

Lemma word_is_no_space a : is_word_char a = true -> is_space a = false.
Proof.
  revert a.
  assert (H : forall a, implb (is_word_char a) (negb (is_space a)) = true)
    by (apply for_all_chars; vm_compute; reflexivity).
  intros a Ha. specialize (H a). rewrite Ha in H. now apply negb_true_iff.
Qed.

Lemma word_differs_from_space a b :
  is_word_char a = true -> is_space b = true ->
  spec.same_ignoring_case a b = false.
Proof.
  revert a b.
  assert (H : forall a b,
             implb (is_word_char a && is_space b)
                   (negb (spec.same_ignoring_case a b)) = true)
    by (apply for_all_chars2; vm_compute; reflexivity).
  intros a b Ha Hb. specialize (H a b). rewrite Ha, Hb in H.
  now apply negb_true_iff.
Qed.

Lemma same_as_word a b :
  is_word_char a = true -> spec.same_ignoring_case a b = true ->
  is_word_char b = true.
Proof.
  revert a b.
  assert (H : forall a b,
             implb (is_word_char a && spec.same_ignoring_case a b)
                   (is_word_char b) = true)
    by (apply for_all_chars2; vm_compute; reflexivity).
  intros a b Ha Hb. specialize (H a b). now rewrite Ha, Hb in H.
Qed.

Lemma take_while_all {A} (p : A -> bool) (l : list A) :
  forallb p (take_while p l) = true.
Proof.
  induction l as [|a l IH]; [reflexivity|]. cbn [take_while].
  destruct (p a) eqn:E; [|reflexivity]. cbn. now rewrite E.
Qed.

(** The back reference, under the [i] flag, in terms of [strip_prefix]. *)
Lemma match_captured_folding (w p r : list ascii) :
  match_captured folding w p r =
  match spec.strip_prefix spec.same_ignoring_case w r with
  | Some r' => Some (rev (take (List.length w) r) ++ p, r')
  | None => None
  end.
Proof.
  revert p r. induction w as [|a w IH]; intros p r;
    cbn [match_captured spec.strip_prefix List.length].
  - now rewrite take_0.
  - destruct r as [|c r]; [reflexivity|].
    change (Ascii.eqb (canonicalize folding a) (canonicalize folding c))
      with (spec.same_ignoring_case a c).
    destruct (spec.same_ignoring_case a c); [|reflexivity].
    rewrite IH. destruct (spec.strip_prefix _ w r); [|reflexivity].
    cbn [take rev]. now rewrite <- app_assoc.
Qed.

Lemma strip_prefix_words (w r r' : list ascii) :
  spec.strip_prefix spec.same_ignoring_case w r = Some r' ->
  forallb is_word_char w = true ->
  forallb is_word_char (take (List.length w) r) = true
  /\ List.length (take (List.length w) r) = List.length w.
Proof.
  revert r. induction w as [|a w IH]; intros r H Hw;
    cbn [spec.strip_prefix List.length] in *.
  - now rewrite take_0.
  - destruct r as [|c r]; [discriminate|].
    destruct (spec.same_ignoring_case a c) eqn:E; [|discriminate].
    cbn [forallb] in Hw. apply andb_prop in Hw as [Ha Hw].
    destruct (IH r H Hw) as [H1 H2]. cbn [take forallb List.length].
    now rewrite (same_as_word a c Ha E), H1, H2.
Qed.

Lemma word_before_rev (w p : list ascii) caps r :
  w <> [] -> forallb is_word_char w = true ->
  word_before {| prev := rev w ++ p; rest := r; captures := caps |} = true.
Proof.
  intros Hw Ha. unfold word_before. cbn [prev].
  destruct (rev w) as [|c t] eqn:E.
  - apply (f_equal (@List.length _)) in E. rewrite length_rev in E.
    destruct w; [congruence | discriminate].
  - cbn [app]. rewrite forallb_forall in Ha. apply Ha.
    apply in_rev. rewrite E. now left.
Qed.

Lemma consumed_run (w p r r' : list ascii) caps caps' :
  consumed {| prev := p; rest := r; captures := caps |}
           {| prev := rev w ++ p; rest := r'; captures := caps' |} = w.
Proof.
  unfold consumed, end_index. cbn [prev].
  rewrite length_app, length_rev, Nat.add_sub.
  rewrite <- (length_rev w), take_app_length. apply rev_involutive.
Qed.

Lemma word_char_folding ch :
  accepts_char folding (class_mem [ClassEsc Esc_w]) false ch = is_word_char ch.
Proof.
  unfold accepts_char. rewrite word_class, eqb_false_r. apply negb_involutive.
Qed.

Lemma space_char_folding ch :
  accepts_char folding (class_mem [ClassEsc Esc_s]) false ch = is_space ch.
Proof.
  unfold accepts_char. rewrite space_class, eqb_false_r. apply negb_involutive.
Qed.

Lemma word_after_run r p caps :
  word_after {| prev := p; rest := r; captures := caps |}
  = (1 <=? List.length (take_while is_word_char r))%nat.
Proof.
  unfold word_after. cbn [rest]. destruct r as [|c r]; [reflexivity|].
  cbn [take_while]. now destruct (is_word_char c).
Qed.

(** The attempt of the pattern at one position. *)
Lemma repeated_word_attempt (p r : list ascii) :
  succeeds (compile folding repeated_word
              {| prev := p; rest := r; captures := [None] |} Some)
  = negb (word_before {| prev := p; rest := r; captures := [None] |})
    && repeated_word_at r.
Proof.
  unfold repeated_word, repeated_word_at. step_pattern.
  change (compile folding NWordB ?x ?c)
    with (if Bool.eqb (word_before x) (word_after x) then None else c x).
  cbv beta. rewrite word_after_run.
  set (w := take_while is_word_char r).
  set (wb := word_before _).
  destruct (1 <=? List.length w)%nat eqn:Ew.
  2:{ (* no word starts here *)
      destruct wb; cbn [Bool.eqb negb andb]; [|reflexivity].
      do 4 step_pattern.
      rewrite (greedy_run_ext _ is_word_char) by apply word_char_folding.
      rewrite greedy_run_longest_at.
      - fold w. now rewrite Ew.
      - intros p' ch r' Hch. do 3 step_pattern. cbn [prev rest captures].
        cbn [greedy_run Nat.eqb]. rewrite space_char_folding.
        now rewrite (word_is_no_space _ Hch). }
  destruct wb; cbn [Bool.eqb negb andb]; [reflexivity|].
  do 4 step_pattern.
  rewrite (greedy_run_ext _ is_word_char) by apply word_char_folding.
  rewrite greedy_run_longest_at.
  2:{ intros p' ch r' Hch. do 3 step_pattern. cbn [prev rest captures].
      cbn [greedy_run Nat.eqb]. rewrite space_char_folding.
      now rewrite (word_is_no_space _ Hch). }
  fold w. rewrite Ew. step_pattern.
  cbn [prev rest captures]. rewrite consumed_run.
  change (set_capture 1 (Some w) [None]) with [Some w].
  assert (Hw : w <> []) by (intros E; now rewrite E in Ew).
  assert (Ha : forallb is_word_char w = true) by apply take_while_all.
  set (r1 := drop_while is_word_char r).
  do 2 step_pattern.
  rewrite (greedy_run_ext _ is_space) by apply space_char_folding.
  rewrite greedy_run_longest_at.
  2:{ intros p' ch r' Hch. step_pattern.
      change (compile folding (NBackref 1) ?x ?c)
        with (match captures x !! pred 1 with
              | Some (Some s) =>
                  match match_captured folding s (prev x) (rest x) with
                  | Some (p, r) =>
                      c {| prev := p; rest := r; captures := captures x |}
                  | None => None
                  end
              | _ => c x
              end).
      cbn [captures pred lookup list_lookup prev rest].
      destruct w as [|a w']; [congruence|].
      cbn [match_captured].
      change (Ascii.eqb (canonicalize folding a) (canonicalize folding ch))
        with (spec.same_ignoring_case a ch).
      cbn [forallb] in Ha. apply andb_prop in Ha as [Ha _].
      now rewrite (word_differs_from_space a ch Ha Hch). }
  rewrite succeeds_if. f_equal.
  step_pattern.
  change (compile folding (NBackref 1) ?x ?c)
    with (match captures x !! pred 1 with
          | Some (Some s) =>
              match match_captured folding s (prev x) (rest x) with
              | Some (p, r) =>
                  c {| prev := p; rest := r; captures := captures x |}
              | None => None
              end
          | _ => c x
          end).
  cbn [captures pred lookup list_lookup prev rest].
  rewrite match_captured_folding.
  destruct (spec.strip_prefix _ w _) as [r3|] eqn:E; [|reflexivity].
  step_pattern.
  change (compile folding NWordB ?x ?c)
    with (if Bool.eqb (word_before x) (word_after x) then None else c x).
  cbv beta. destruct (strip_prefix_words _ _ _ E Ha) as [H1 H2].
  rewrite word_before_rev; [| |exact H1].
  2:{ intros E'. rewrite E' in H2. destruct w; [congruence|discriminate]. }
  unfold word_after. cbn [rest]. destruct r3 as [|c r3]; [reflexivity|].
  now destruct (is_word_char c).
Qed.


Lemma test_without_lastIndex (R : RegExp) (s : string) :
  uses_lastIndex R = false ->
  fst (test R s)
  = match scan (compile (flags_of R) (regexp.pattern R)) (sticky (flags_of R))
                (replicate (group_count R) None) [] (chars s) with
    | Some _ => true
    | None => false
    end.
Proof.
  intros Hu. unfold test, exec. rewrite Hu.
  replace (List.length (chars s) <? 0)%nat with false
    by (symmetry; apply Nat.ltb_ge; lia).
  rewrite take_0, drop_0. cbn [rev].
  now destruct (scan _ _ _ _ _) as [[x y]|].
Qed.

Lemma scan_repeated_word (r p : list ascii) :
  match scan (compile folding repeated_word) false [None] p r with
  | Some _ => true
  | None => false
  end
  = has_repeated_word
      (word_before {| prev := p; rest := r; captures := [None] |}) r.
Proof.
  revert p. induction r as [|c r IH]; intros p; rewrite scan_unfold;
    pose proof (repeated_word_attempt p) as H.
  - specialize (H []). rewrite andb_false_r in H.
    apply succeeds_false in H. now rewrite H.
  - specialize (H (c :: r)). cbn [has_repeated_word].
    change (word_before {| prev := p; rest := c :: r; captures := [None] |})
      with (word_before {| prev := p; rest := []; captures := [None] |})
      in H |- *.
    rewrite <- H.
    destruct (compile folding repeated_word _ Some); [reflexivity|].
    cbn [succeeds orb]. apply IH.
Qed.

(** [patterns.duplicateWord] matches in a text exactly when the text
    holds a word followed by white space and the same word, case
    aside. *)
Lemma duplicate_pattern_matches (s : string) :
  fst (test validators.patterns.duplicateWord s)
  = has_repeated_word false (chars s).
Proof.
  rewrite test_without_lastIndex by reflexivity.
  apply (scan_repeated_word (chars s) []).
Qed.

(** X18: [validateTitle] accepts a text exactly when its trimmed form is
    not empty, has at most 100 code units and no line terminator, and
    holds no word that is followed by white space and the same word again,
    case aside, where a word is a run of letters, digits and
    underscores. *)
Theorem validateTitle_accepts_exactly (s : string) :
  validators.validateTitle (String_ s) = validators.ok
  <-> chars (trim s) <> []
      /\ jslength (trim s) <= 100
      /\ existsb is_line_terminator (chars (trim s)) = false
      /\ has_repeated_word false (chars (trim s)) = false.
Proof.
  unfold validators.validateTitle.
  rewrite title_pattern_matches, duplicate_pattern_matches.
  unfold jslength. rewrite chars_trim.
  destruct (trimmed_ends (chars s)) as [E|(a & r & E & Ha & Hl)]; rewrite E.
  - cbn [List.length Nat.eqb].
    destruct (negb (truthy (String_ s))); split;
      (discriminate || (intros [H _]; now contradiction H)).
  - assert (Hs : truthy (String_ s) = true).
    { apply truthy_string. intros ->. discriminate E. }
    rewrite Hs, title_shape_trimmed by assumption.
    cbn [negb List.length Nat.eqb]. rewrite negb_involutive.
    destruct (100 <? S (List.length r))%nat eqn:E100.
    + apply Nat.ltb_lt in E100. split; [discriminate | lia].
    + apply Nat.ltb_ge in E100.
      destruct (existsb is_line_terminator (a :: r)).
      * split; [discriminate | intros (_ & _ & H & _); discriminate H].
      * destruct (has_repeated_word false (a :: r)).
        -- split; [discriminate | intros (_ & _ & _ & H); discriminate H].
        -- split; [|reflexivity]. intros _. repeat split; [discriminate|lia].
Qed.

(** ** Importing *)

Import json records.

Lemma no_text_is_not_text (v : option JSON) :
  validators.no_text v = negb (text v).
Proof.
  unfold validators.no_text.
  destruct v as [[|b|q|s|l|m]|]; cbn; rewrite ?orb_true_r; try reflexivity.
  now destruct (String.eqb s "").
Qed.

Section importing.

Context (JSON_parse : string -> completion JSON)
        (null_property_message : string -> string).

(** The body of the loop of [validateImportJSON], record by record. *)
Lemma check_record_spec (i : nat) (r : JSON) :
  match r with
  | JNull =>
      validators.check_record null_property_message i r
      = Throw (null_property_message "id")
  | _ =>
      if complete_record r
      then validators.check_record null_property_message i r = Normal None
      else exists what : string,
             validators.check_record null_property_message i r
             = Normal (Some ("Record " ++ pretty i ++ ": " ++ what)%string)
  end.
Proof.
  destruct r as [| | | | |m]; try reflexivity;
    try (cbn; eexists; reflexivity).
  unfold validators.check_record, complete_record. cbn [get].
  rewrite !no_text_is_not_text.
  destruct (text (member "id" m)); cbn [negb andb];
    [|eexists; reflexivity].
  destruct (text (member "title" m)); cbn [negb andb];
    [|eexists; reflexivity].
  destruct (text (member "dueDate" m)); cbn [negb andb];
    [|eexists; reflexivity].
  destruct (member "duration" m) as [[| | | | |]|];
    cbn [validators.no_value negb andb]; try (eexists; reflexivity).
  all: destruct (text (member "tag" m)); cbn [negb andb];
    [|eexists; reflexivity].
  all: destruct (text (member "createdAt" m)); cbn [negb andb];
    [|eexists; reflexivity].
  all: destruct (text (member "updatedAt" m)); cbn [negb andb];
    [reflexivity | eexists; reflexivity].
Qed.

Lemma check_records_spec (l : list JSON) :
  forall i,
    match first_incomplete i l with
    | None =>
        validators.check_records null_property_message i l = Normal None
    | Some (k, JNull) =>
        validators.check_records null_property_message i l
        = Throw (null_property_message "id")
    | Some (k, _) =>
        exists what : string,
          validators.check_records null_property_message i l
          = Normal (Some ("Record " ++ pretty k ++ ": " ++ what)%string)
    end.
Proof.
  induction l as [|r l IH]; intros i; [reflexivity|].
  cbn [first_incomplete validators.check_records].
  pose proof (check_record_spec i r) as H.
  destruct (complete_record r) eqn:E.
  - assert (Hr : validators.check_record null_property_message i r
                 = Normal None)
      by (destruct r; try discriminate E; exact H).
    rewrite Hr. apply IH.
  - destruct r as [| | | | |];
      [now rewrite H | destruct H as [what ->]; now exists what ..].
Qed.

Lemma first_incomplete_none (l : list JSON) (i : nat) :
  first_incomplete i l = None <-> forallb complete_record l = true.
Proof.
  revert i. induction l as [|r l IH]; intros i; cbn; [tauto|].
  destruct (complete_record r); [apply IH|]. split; discriminate.
Qed.

(** X19: [validateImportJSON] accepts a text exactly when [JSON.parse]
    reads it as an array of which every element is an object with an
    [id], a [title], a [dueDate], a [tag], a [createdAt] and an
    [updatedAt] that are non-empty strings, and a [duration] that is
    there and not [null]; it then returns the array and no error, and
    otherwise no data and an error that is not empty. *)
Theorem validateImportJSON_accepts_exactly (s : string) :
  let r := validators.validateImportJSON JSON_parse null_property_message s in
  (validators.import_valid r = true
   <-> exists l, JSON_parse s = Normal (JArray l)
                 /\ forallb complete_record l = true)
  /\ (validators.import_valid r = true ->
      exists l, validators.import_data r = Some (JArray l)
                /\ JSON_parse s = Normal (JArray l)
                /\ validators.import_error r = "")
  /\ (validators.import_valid r = false ->
      validators.import_data r = None
      /\ validators.import_error r <> "").
Proof.
  intros r.
  assert (Hno : validators.import_valid r = false ->
                validators.import_data r = None ->
                validators.import_error r <> "" ->
                ~ (exists l, JSON_parse s = Normal (JArray l)
                             /\ forallb complete_record l = true) ->
                (validators.import_valid r = true
                 <-> exists l, JSON_parse s = Normal (JArray l)
                               /\ forallb complete_record l = true)
                /\ (validators.import_valid r = true ->
                    exists l, validators.import_data r = Some (JArray l)
                              /\ JSON_parse s = Normal (JArray l)
                              /\ validators.import_error r = "")
                /\ (validators.import_valid r = false ->
                    validators.import_data r = None
                    /\ validators.import_error r <> "")).
  { intros H1 H2 H3 H4. rewrite H1. split; [split; [discriminate|tauto]|].
    split; [discriminate|]. now intros _. }
  unfold r in *. clear r. unfold validators.validateImportJSON in *.
  destruct (JSON_parse s) as [data|m].
  2:{ apply Hno; try reflexivity; [discriminate|].
      intros (l & H & _). discriminate H. }
  destruct data as [| | | |l|];
    try (apply Hno; try reflexivity; [discriminate|];
         intros (l & H & _); discriminate H).
  pose proof (check_records_spec l 0) as H.
  pose proof (first_incomplete_none l 0) as Hn.
  destruct (first_incomplete 0 l) as [[k bad]|].
  - assert (Hf : ~ (exists l', Normal (JArray l) = Normal (JArray l')
                               /\ forallb complete_record l' = true)).
    { intros (l' & [= <-] & Hl). apply Hn in Hl. discriminate Hl. }
    destruct bad as [| | | | |];
      [rewrite H in Hno |- * | destruct H as [what H]; rewrite H in Hno |- * ..];
      (apply Hno; try reflexivity; [discriminate | exact Hf]).
  - clear Hno. rewrite H. cbn. split; [|split].
    + split; [|reflexivity]. intros _. exists l.
      split; [reflexivity | now apply Hn].
    + intros _. now exists l.
    + discriminate.
Qed.

(** X20: when the array holds a record that is not complete,
    [validateImportJSON] answers for the first such record: with its
    index in a "Record" message, or, when that record is [null], with the
    message of a JSON parse error although the text was parsed. *)
Theorem validateImportJSON_answers_for_first_bad_record
  (s : string) (l : list JSON) (k : nat) (bad : JSON) :
  JSON_parse s = Normal (JArray l) ->
  first_incomplete 0 l = Some (k, bad) ->
  let r := validators.validateImportJSON JSON_parse null_property_message s in
  validators.import_valid r = false
  /\ (bad = JNull ->
      validators.import_error r
      = ("JSON parse error: " ++ null_property_message "id")%string)
  /\ (bad <> JNull ->
      exists what : string,
        validators.import_error r
        = ("Record " ++ pretty k ++ ": " ++ what)%string).
Proof.
  intros Hp Hk r. unfold r, validators.validateImportJSON. rewrite Hp.
  pose proof (check_records_spec l 0) as H. rewrite Hk in H.
  destruct bad as [| | | | |];
    [rewrite H | destruct H as [what ->] ..]; cbn;
    (split; [reflexivity|]); split; try congruence;
    intros _; now exists what.
Qed.

End importing.

Section stored_import.

Context (JSON_parse : string -> completion JSON)
        (JSON_stringify : JSON -> string)
        (null_property_message : string -> string).

Lemma save_other_keys (within_quota : storage.Storage -> bool)
  (key k : string) (v : JSON) (ls : storage.Storage) :
  k <> key ->
  snd (storage.save JSON_stringify within_quota key v ls) !! k = ls !! k.
Proof.
  intros Hk. unfold storage.save, storage.setItem.
  destruct (within_quota _); [|reflexivity]. cbn [snd].
  apply lookup_insert_ne. congruence.
Qed.

Lemma save_refused (within_quota : storage.Storage -> bool)
  (key : string) (v : JSON) (ls : storage.Storage) :
  (forall m, within_quota m = false) ->
  snd (storage.save JSON_stringify within_quota key v ls) = ls.
Proof.
  intros Hq. unfold storage.save, storage.setItem. now rewrite Hq.
Qed.

Lemma importData_cases (within_quota : storage.Storage -> bool)
  (s : string) (ls : storage.Storage) :
  match import_complaint JSON_parse null_property_message s with
  | Some e =>
      storage.importData JSON_parse JSON_stringify null_property_message
                         within_quota s ls
      = (storage.failure e, ls)
  | None =>
      exists parsed tasks settings tags,
        JSON_parse s = Normal (JObject parsed)
        /\ storage.importData JSON_parse JSON_stringify null_property_message
                              within_quota s ls
           = ({| storage.success := true; storage.error := "";
                 storage.data := Some (JObject parsed) |},
              snd (storage.saveTags JSON_stringify within_quota tags
                (snd (storage.saveSettings JSON_stringify within_quota settings
                   (snd (storage.saveTasks JSON_stringify within_quota tasks
                           ls))))))
  end.
Proof.
  unfold import_complaint, storage.importData.
  destruct (JSON_parse s) as [parsed|m]; [|reflexivity].
  destruct parsed as [| | | | |members]; try reflexivity.
  cbn [get].
  destruct (falsy (member "tasks" members)
            || negb (is_array (member "tasks" members))); [reflexivity|].
  destruct (falsy (member "settings" members)
            || negb (is_object (member "settings" members))); [reflexivity|].
  destruct (falsy (member "tags" members)
            || negb (is_array (member "tags" members))); [reflexivity|].
  destruct (storage.check_tasks _ 0 _) as [[e|]|m]; try reflexivity.
  eexists _, _, _, _. split; reflexivity.
Qed.

(** X21: [importData] writes under its three keys only, and writes nothing
    when it reports a failure. *)
Theorem importData_keeps_to_its_keys
  (within_quota : storage.Storage -> bool) (s : string)
  (ls : storage.Storage) :
  let r := storage.importData JSON_parse JSON_stringify null_property_message
                              within_quota s ls in
  (storage.success (fst r) = false -> snd r = ls)
  /\ forall k, k <> storage.STORAGE_KEY -> k <> storage.SETTINGS_KEY ->
               k <> storage.TAGS_KEY -> snd r !! k = ls !! k.
Proof.
  intros r. unfold r. pose proof (importData_cases within_quota s ls) as H.
  destruct (import_complaint JSON_parse null_property_message s) as [e|].
  - rewrite H. now split.
  - destruct H as (parsed & tasks & settings & tags & _ & ->).
    split; [discriminate|]. intros k H1 H2 H3. cbn [snd].
    unfold storage.saveTags, storage.saveSettings, storage.saveTasks.
    now rewrite !save_other_keys.
Qed.

(** X22: whether [importData] reports success does not depend on whether
    the host could store anything: on a host that refuses every write it
    reports the same success and leaves the storage as it was. *)
Theorem importData_reports_success_without_saving
  (within_quota refusing : storage.Storage -> bool) (s : string)
  (ls : storage.Storage) :
  (forall m, refusing m = false) ->
  let r := storage.importData JSON_parse JSON_stringify null_property_message
                              within_quota s ls in
  let r' := storage.importData JSON_parse JSON_stringify null_property_message
                               refusing s ls in
  fst r' = fst r /\ snd r' = ls.
Proof.
  intros Hq r r'. unfold r, r'.
  pose proof (importData_cases within_quota s ls) as H.
  pose proof (importData_cases refusing s ls) as H'.
  destruct (import_complaint JSON_parse null_property_message s) as [e|].
  - rewrite H, H'. now split.
  - destruct H as (parsed & tasks & settings & tags & Hp & ->).
    destruct H' as (parsed' & tasks' & settings' & tags' & Hp' & ->).
    cbn [fst snd]. split; [congruence|].
    unfold storage.saveTags, storage.saveSettings, storage.saveTasks.
    now rewrite !save_refused.
Qed.

Lemma valid_import_is_array (s : string) :
  validators.import_valid
    (validators.validateImportJSON JSON_parse null_property_message s) = true ->
  exists l, JSON_parse s = Normal (JArray l).
Proof.
  unfold validators.validateImportJSON.
  destruct (JSON_parse s) as [[| | | |l|]|m]; try discriminate.
  intros _. now exists l.
Qed.

(** X23: no text passes both [validateImportJSON] and [importData]: the
    first wants an array of records, the second an object with [tasks],
    [settings] and [tags], as [exportData] writes it.  A text the first
    accepts is refused by the second for its tasks array, with nothing
    stored; a text the second accepts is refused by the first as not
    being an array. *)
Theorem import_formats_exclude_each_other
  (within_quota : storage.Storage -> bool) (s : string)
  (ls : storage.Storage) :
  (validators.import_valid
     (validators.validateImportJSON JSON_parse null_property_message s) = true
   -> storage.importData JSON_parse JSON_stringify null_property_message
                         within_quota s ls
      = (storage.failure "Invalid data: missing or invalid tasks array", ls))
  /\ (storage.success
        (fst (storage.importData JSON_parse JSON_stringify
                null_property_message within_quota s ls)) = true
      -> validators.validateImportJSON JSON_parse null_property_message s
         = {| validators.import_valid := false;
              validators.import_data := None;
              validators.import_error := "Data must be an array" |}).
Proof.
  split.
  - intros H. apply valid_import_is_array in H as [l Hl].
    unfold storage.importData. now rewrite Hl.
  - pose proof (importData_cases within_quota s ls) as H.
    destruct (import_complaint JSON_parse null_property_message s) as [e|].
    + rewrite H. discriminate.
    + destruct H as (parsed & _ & _ & _ & Hp & _). intros _.
      unfold validators.validateImportJSON. now rewrite Hp.
Qed.

End stored_import.

Lemma validateImportJSON_answers_for_first_bad_record_witness :
  validators.import_valid
    (validators.validateImportJSON sample_parse sample_message "[null]")
  = false
  /\ (JNull = JNull ->
      validators.import_error
        (validators.validateImportJSON sample_parse sample_message "[null]")
      = ("JSON parse error: " ++ sample_message "id")%string)
  /\ (JNull <> JNull ->
      exists what : string,
        validators.import_error
          (validators.validateImportJSON sample_parse sample_message "[null]")
        = ("Record " ++ pretty 0 ++ ": " ++ what)%string).
Proof.
  apply (validateImportJSON_answers_for_first_bad_record
           sample_parse sample_message "[null]" [JNull] 0 JNull);
    reflexivity.
Defined.

Lemma importData_keeps_to_its_keys_witness :
  storage.success
    (fst (storage.importData sample_parse sample_stringify sample_message
            (fun _ => true) sample_export ∅)) = true
  /\ snd (storage.importData sample_parse sample_stringify sample_message
            (fun _ => true) sample_export ∅) !! "theme"
     = (∅ : storage.Storage) !! "theme"
  /\ snd (storage.importData sample_parse sample_stringify sample_message
            (fun _ => true) "[]" ∅) = ∅.
Proof.
  split; [vm_compute; reflexivity|]. split.
  - apply (proj2 (importData_keeps_to_its_keys sample_parse sample_stringify
                    sample_message (fun _ => true) sample_export ∅));
      discriminate.
  - apply (proj1 (importData_keeps_to_its_keys sample_parse sample_stringify
                    sample_message (fun _ => true) "[]" ∅)).
    vm_compute. reflexivity.
Defined.

Lemma importData_reports_success_without_saving_witness :
  fst (storage.importData sample_parse sample_stringify sample_message
         (fun _ => false) sample_export ∅)
  = fst (storage.importData sample_parse sample_stringify sample_message
           (fun _ => true) sample_export ∅)
  /\ snd (storage.importData sample_parse sample_stringify sample_message
            (fun _ => false) sample_export ∅) = ∅.
Proof.
  apply (importData_reports_success_without_saving sample_parse
           sample_stringify sample_message (fun _ => true) (fun _ => false)
           sample_export ∅).
  reflexivity.
Defined.

Lemma import_formats_exclude_each_other_witness :
  storage.importData sample_parse sample_stringify sample_message
                     (fun _ => true) "[]" ∅
  = (storage.failure "Invalid data: missing or invalid tasks array", ∅)
  /\ validators.validateImportJSON sample_parse sample_message sample_export
     = {| validators.import_valid := false;
          validators.import_data := None;
          validators.import_error := "Data must be an array" |}.
Proof.
  split.
  - apply (proj1 (import_formats_exclude_each_other sample_parse
                    sample_stringify sample_message (fun _ => true) "[]" ∅)).
    vm_compute. reflexivity.
  - apply (proj2 (import_formats_exclude_each_other sample_parse
                    sample_stringify sample_message (fun _ => true)
                    sample_export ∅)).
    vm_compute. reflexivity.
Defined.
